(** * discord-cluster: messaging engine, shared store and shutdown guard

    A shallow embedding of the TypeScript sources

      - src/ipc/IPCHandler.ts        (IPCHandler)
      - src/utils/ResultCollection.ts (ResultCollection)
      - src/ipc/Store.ts             (StoreManager, StoreClient)
      - src/ipc/EventBus.ts          (EventBusClient, EventBusManager)
      - src/handlers/message.ts      (ClusterHandler.handleMessage: ClientReady
                                      and the cases that route IPC messages)
      - src/plugins/processGuard.ts  (ProcessGuard, ClusterProcessGuard)
      - src/utils/Logger.ts          (Logger)

    Conventions of the embedding.

      - A JavaScript [Map] keyed by a string is a [gmap string _]; where the
        iteration order of the [Map] is observable (the per-unit results of a
        broadcast, the cleanup tasks, the cluster registry) it is an
        association list kept in insertion order.
      - [Date.now()] is a parameter [now : Z] (milliseconds).
      - [setTimeout]/[clearTimeout] are a table of armed timers indexed by
        the handle [setTimeout] returned; the event loop firing a timer is an
        explicit event.
      - [resolve]/[reject] closures kept in a pending entry are identified by
        the nonce of the call that created them; every call of one of them is
        appended to a log, so that "at most once" is a statement about that
        log and not about the idempotence of JavaScript promises.
      - JavaScript numbers are integers ([Z]); [NaN] and fractions are outside
        the model. *)

From Stdlib Require Import ZArith Bool List Lia.
From stdpp Require Import base decidable option list gmap strings fin_maps.

Open Scope Z_scope.

(** ** JavaScript values that cross the IPC boundary *)

Inductive JSValue : Type :=
  | JUndefined
  | JNull
  | JBool (b : bool)
  | JNum (n : Z)
  | JStr (s : string)
  | JObject (ref : nat)          (* any non-Error object, opaque *)
  | JError (message : string).   (* an instance of Error *)

(** [v !== undefined] *)
Definition is_defined (v : JSValue) : bool :=
  match v with JUndefined => false | _ => true end.

(** [v instanceof Error] *)
Definition instanceof_Error (v : JSValue) : option string :=
  match v with JError m => Some m | _ => None end.

(** [typeof v === 'number' ? v : 0] *)
Definition number_or_zero (v : JSValue) : Z :=
  match v with JNum n => n | _ => 0 end.

(** ** ClusterResult and ResultCollection (src/utils/ResultCollection.ts) *)

Inductive Status : Type := ok | error.

Definition is_ok (s : Status) : bool :=
  match s with ok => true | error => false end.

Definition is_error (s : Status) : bool :=
  match s with ok => false | error => true end.

(** [interface ClusterResult<T> { clusterId; status; data?; error? }].
    An absent [data] is [JUndefined], an absent [error] is [None]. *)
Record ClusterResult : Type := mkResult {
  clusterId : Z;
  status : Status;
  data : JSValue;
  error_msg : option string;
}.

Module ResultCollection.

(** [constructor(public readonly results: ClusterResult<T>[])] *)
Abbreviation t := (list ClusterResult) (only parsing).

(** [results.filter(r => r.status === 'ok' && r.data !== undefined).map(r => r.data)] *)
Definition values (results : t) : list JSValue :=
  map data (filter (fun r => is_ok (status r) && is_defined (data r) = true) results).

(** [results.filter(r => r.status === 'error').map(...)], with
    [r.error || 'Unknown error'] (the empty string is falsy). *)
Definition errors (results : t) : list (Z * string) :=
  map (fun r => (clusterId r,
                 match error_msg r with
                 | Some EmptyString | None => "Unknown error"%string
                 | Some m => m
                 end))
      (filter (fun r => is_error (status r) = true) results).

(** [results.every(r => r.status === 'ok')] *)
Definition allOk (results : t) : bool :=
  forallb (fun r => is_ok (status r)) results.

(** [values().reduce((acc, v) => acc + (typeof v === 'number' ? v : 0), 0)] *)
Definition sum (results : t) : Z :=
  fold_left (fun acc v => acc + number_or_zero v) (values results) 0.

(** [results.find(r => r.clusterId === clusterId)] *)
Definition get (results : t) (id : Z) : option ClusterResult :=
  List.find (fun r => clusterId r =? id) results.

(** [values()[0]]; [None] is JavaScript's [undefined]. *)
Definition first (results : t) : option JSValue :=
  head (values results).

(** [values().find(predicate)] *)
Definition find (predicate : JSValue -> bool) (results : t) : option JSValue :=
  List.find predicate (values results).

Definition size (results : t) : nat := length results.

(** [results.filter(r => r.status === 'ok').length] *)
Definition successCount (results : t) : nat :=
  length (filter (fun r => is_ok (status r) = true) results).

(** [results.filter(r => r.status === 'error').length] *)
Definition errorCount (results : t) : nat :=
  length (filter (fun r => is_error (status r) = true) results).

End ResultCollection.

(** ** StoreManager (src/ipc/Store.ts) *)

(** [interface StoreEntry { value: unknown; expiresAt?: number }] *)
Record StoreEntry : Type := mkEntry {
  value : JSValue;
  expiresAt : option Z;
}.

Module StoreManager.

(** [entry.expiresAt && Date.now() > entry.expiresAt]: the guard shared by
    [get], [has] and [cleanup].  A number is truthy when it is not 0. *)
Definition expired (entry : StoreEntry) (now : Z) : bool :=
  match expiresAt entry with
  | Some e => negb (e =? 0) && (e <? now)
  | None => false
  end.

(** [ttl ? Date.now() + ttl : undefined] *)
Definition expiry_of (ttl : option Z) (now : Z) : option Z :=
  match ttl with
  | Some t => if t =? 0 then None else Some (now + t)
  | None => None
  end.

Definition get (data : gmap string StoreEntry) (key : string) (now : Z)
  : JSValue * gmap string StoreEntry :=
  match data !! key with
  | None => (JUndefined, data)
  | Some entry =>
      if expired entry now then (JUndefined, delete key data)
      else (value entry, data)
  end.

Definition set (data : gmap string StoreEntry) (key : string) (v : JSValue)
    (ttl : option Z) (now : Z) : gmap string StoreEntry :=
  <[key := {| value := v; expiresAt := expiry_of ttl now |}]> data.

Definition has (data : gmap string StoreEntry) (key : string) (now : Z)
  : bool * gmap string StoreEntry :=
  match data !! key with
  | None => (false, data)
  | Some entry =>
      if expired entry now then (false, delete key data)
      else (true, data)
  end.

(** [Map.prototype.delete] returns whether the key was present. *)
Definition delete (data : gmap string StoreEntry) (key : string)
  : bool * gmap string StoreEntry :=
  (bool_decide (is_Some (data !! key)), base.delete key data).

(** The sweep run by [setInterval]: every entry that passes the expiry
    guard at [now] is deleted, the others stay. *)
Definition cleanup (data : gmap string StoreEntry) (now : Z)
  : gmap string StoreEntry :=
  filter (fun kv => expired (snd kv) now = false) data.

(** [destroy()] clears the map. *)
Definition destroy (data : gmap string StoreEntry) : gmap string StoreEntry := ∅.

(** A call on the store, as the manager receives them over time. *)
Inductive Op : Type :=
  | OpGet (key : string) (now : Z)
  | OpHas (key : string) (now : Z)
  | OpSet (key : string) (v : JSValue) (ttl : option Z) (now : Z)
  | OpDelete (key : string)
  | OpCleanup (now : Z)
  | OpDestroy.

Definition apply (data : gmap string StoreEntry) (op : Op) : gmap string StoreEntry :=
  match op with
  | OpGet k now => snd (get data k now)
  | OpHas k now => snd (has data k now)
  | OpSet k v ttl now => set data k v ttl now
  | OpDelete k => snd (delete data k)
  | OpCleanup now => cleanup data now
  | OpDestroy => destroy data
  end.

Definition run (data : gmap string StoreEntry) (ops : list Op) : gmap string StoreEntry :=
  fold_left apply ops data.

(** The calls that write or remove [key] explicitly. *)
Definition writes (key : string) (op : Op) : bool :=
  match op with
  | OpSet k _ _ _ | OpDelete k => bool_decide (k = key)
  | OpDestroy => true
  | OpGet _ _ | OpHas _ _ | OpCleanup _ => false
  end.

End StoreManager.

(** ** IPC messages (src/types: [IPCMessage], [MessageTypes])

    A message is [{ _type, _nonce, data }]; each constructor is one
    [MessageTypes] tag together with the fields the receiving code reads from
    [_nonce] and [data] (the shapes its [as { ... }] casts name). *)

Inductive IPCMessage : Type :=
  | HandlerRequest (nonce handler : string) (payload : JSValue)
  | HandlerRequestAll (nonce handler : string) (payload : JSValue)
  | HandlerRequestTo (targetCluster : Z) (nonce handler : string) (payload : JSValue)
  | HandlerResponse (nonce : string) (payload : JSValue) (sourceCluster : option Z)
  | HandlerError (nonce : string) (message : string) (sourceCluster : option Z)
  | StoreGet (nonce key : string)
  | StoreSet (nonce key : string) (v : JSValue) (ttl : option Z)
  | StoreHas (nonce key : string)
  | StoreDelete (nonce key : string)
  | StoreResponse (nonce : string) (v : JSValue)
  | EventEmit (nonce event : string) (payload : JSValue) (sourceCluster : Z)
      (targetCluster : option Z)
  | EventEmitAndWait (nonce event : string) (payload : JSValue) (sourceCluster : Z)
  | EventForward (nonce event : string) (payload : JSValue) (sourceCluster : Z)
  | EventAck (nonce : string) (sourceCluster : Z).

(** [message._nonce] *)
Definition nonce_of (m : IPCMessage) : string :=
  match m with
  | HandlerRequest n _ _ | HandlerRequestAll n _ _ | HandlerRequestTo _ n _ _
  | HandlerResponse n _ _ | HandlerError n _ _
  | StoreGet n _ | StoreSet n _ _ _ | StoreHas n _ | StoreDelete n _
  | StoreResponse n _
  | EventEmit n _ _ _ _ | EventEmitAndWait n _ _ _ | EventForward n _ _ _
  | EventAck n _ => n
  end.

(** [type SendFn = (message: unknown) => Promise<void>]: the transport is
    a collaborator; a call either resolves or rejects with an [Error]. *)
Inductive SendResult : Type := SendOk | SendFailed (message : string).

Definition SendFn : Type := IPCMessage -> SendResult.

(** [type HandlerFn = (data) => TResult | Promise<TResult>], observed through
    [await fn(data)]: a value, or a thrown [Error] with its message (the
    source reads [(err as Error).message]). *)
Inductive HandlerResult : Type := Returns (v : JSValue) | Throws (message : string).

Definition HandlerFn : Type := JSValue -> HandlerResult.

(** What the caller of an [async] method observes when the method returns:
    the awaited value, a rejection, or a promise left pending whose
    settlement is recorded later in the log. *)
Inductive CallResult (A : Type) : Type :=
  | Returned (a : A)
  | Failed (message : string)
  | Pending.
Arguments Returned {A} a.
Arguments Failed {A} message.
Arguments Pending {A}.

(** A JavaScript [Map<number, V>] whose iteration order matters: [set]
    overwrites in place or appends. *)
Fixpoint assoc_set {V : Type} (k : Z) (v : V) (m : list (Z * V)) : list (Z * V) :=
  match m with
  | [] => [(k, v)]
  | (k', v') :: rest =>
      if k' =? k then (k, v) :: rest else (k', v') :: assoc_set k v rest
  end.

(** [clearTimeout(handle)] guarded by [if (handle)]. *)
Definition clearTimeout {C : Type} (handle : option nat) (timers : gmap nat C)
  : gmap nat C :=
  match handle with
  | Some tid => delete tid timers
  | None => timers
  end.

(** [interface StoredPromise { resolve; reject; timeout? }] (src/types).
    [sp_settles] names the promise whose [resolve]/[reject] the entry holds. *)
Record StoredPromise : Type := {
  sp_settles : string;
  sp_timeout : option nat;
}.

Module IPCHandler.

(** An entry of [pendingAll]. *)
Record PendingAll : Type := {
  results : list (Z * JSValue);
  expected : Z;
  pa_settles : string;
  pa_timeout : option nat;
}.

(** The two closures handed to [setTimeout]. *)
Inductive TimerCallback : Type :=
  | RejectTimedOut (nonce : string)     (* in createPromise *)
  | ResolvePartial (nonce : string).    (* in requestAll *)

Inductive Settlement : Type :=
  | Resolved (v : JSValue)
  | ResolvedAll (rc : ResultCollection.t)
  | Rejected (message : string).

Record State : Type := {
  handlers : gmap string HandlerFn;
  promises : gmap string StoredPromise;
  pendingAll : gmap string PendingAll;
  timers : gmap nat TimerCallback;
  next_timer : nat;
  sent : list IPCMessage;                  (* calls of this.send, oldest first *)
  settled : list (string * Settlement);    (* calls of resolve/reject *)
}.

Definition init (hs : gmap string HandlerFn) : State :=
  {| handlers := hs; promises := ∅; pendingAll := ∅; timers := ∅;
     next_timer := 0; sent := []; settled := [] |}.

Definition with_handlers (f : gmap string HandlerFn -> gmap string HandlerFn)
    (st : State) : State :=
  {| handlers := f (handlers st); promises := promises st;
     pendingAll := pendingAll st; timers := timers st;
     next_timer := next_timer st; sent := sent st; settled := settled st |}.

Definition with_promises (f : gmap string StoredPromise -> gmap string StoredPromise)
    (st : State) : State :=
  {| handlers := handlers st; promises := f (promises st);
     pendingAll := pendingAll st; timers := timers st;
     next_timer := next_timer st; sent := sent st; settled := settled st |}.

Definition with_pendingAll (f : gmap string PendingAll -> gmap string PendingAll)
    (st : State) : State :=
  {| handlers := handlers st; promises := promises st;
     pendingAll := f (pendingAll st); timers := timers st;
     next_timer := next_timer st; sent := sent st; settled := settled st |}.

Definition with_timers (f : gmap nat TimerCallback -> gmap nat TimerCallback)
    (st : State) : State :=
  {| handlers := handlers st; promises := promises st;
     pendingAll := pendingAll st; timers := f (timers st);
     next_timer := next_timer st; sent := sent st; settled := settled st |}.

(** [setTimeout(cb, ms)] returns a handle never handed out before. *)
Definition setTimeout (cb : TimerCallback) (st : State) : nat * State :=
  (next_timer st,
   {| handlers := handlers st; promises := promises st;
      pendingAll := pendingAll st;
      timers := <[next_timer st := cb]> (timers st);
      next_timer := S (next_timer st); sent := sent st; settled := settled st |}).

Definition record_send (m : IPCMessage) (st : State) : State :=
  {| handlers := handlers st; promises := promises st;
     pendingAll := pendingAll st; timers := timers st;
     next_timer := next_timer st; sent := sent st ++ [m]; settled := settled st |}.

Definition settle (who : string) (s : Settlement) (st : State) : State :=
  {| handlers := handlers st; promises := promises st;
     pendingAll := pendingAll st; timers := timers st;
     next_timer := next_timer st; sent := sent st;
     settled := settled st ++ [(who, s)] |}.

(** [Array.from(results.entries()).map(([clusterId, result]) => ...)] *)
Definition to_result (e : Z * JSValue) : ClusterResult :=
  match instanceof_Error (snd e) with
  | Some m => mkResult (fst e) error JUndefined (Some m)
  | None => mkResult (fst e) ok (snd e) None
  end.

Definition collect (rs : list (Z * JSValue)) : ResultCollection.t :=
  map to_result rs.

Section WithTransport.

Variable send : SendFn.

(** [handle(name, handler)] and [removeHandler(name)] *)
Definition handle (name : string) (fn : HandlerFn) (st : State) : State :=
  with_handlers (insert name fn) st.

Definition removeHandler (name : string) (st : State) : bool * State :=
  (bool_decide (is_Some (handlers st !! name)), with_handlers (delete name) st).

(** [createPromise(nonce, timeout?)]: the timer exists only for
    [timeout && timeout > 0]. *)
Definition createPromise (nonce : string) (timeout : option Z) (st : State)
  : State :=
  let '(timer, st1) :=
    match timeout with
    | Some ms =>
        if 0 <? ms
        then let '(tid, st1) := setTimeout (RejectTimedOut nonce) st in
             (Some tid, st1)
        else (None, st)
    | None => (None, st)
    end in
  with_promises
    (insert nonce {| sp_settles := nonce; sp_timeout := timer |}) st1.

Definition request (nonce handler : string) (payload : JSValue)
    (timeout : option Z) (st : State) : CallResult JSValue * State :=
  let m := HandlerRequest nonce handler payload in
  let st1 := record_send m st in
  match send m with
  | SendFailed e => (Failed e, st1)
  | SendOk => (Pending, createPromise nonce timeout st1)
  end.

(** [requestTo], with [sendToCluster] present as ClusterClient constructs it:
    it wraps the request into one HandlerRequestTo message for [send]. *)
Definition requestTo (cluster : Z) (nonce handler : string) (payload : JSValue)
    (timeout : option Z) (st : State) : CallResult JSValue * State :=
  let m := HandlerRequestTo cluster nonce handler payload in
  let st1 := record_send m st in
  match send m with
  | SendFailed e => (Failed e, st1)
  | SendOk => (Pending, createPromise nonce timeout st1)
  end.

(** The in-process call of the caller's own handler, stored under [-1]. *)
Definition initialResults (handler : string) (payload : JSValue) (st : State)
  : list (Z * JSValue) :=
  match handlers st !! handler with
  | Some fn =>
      match fn payload with
      | Returns localResult => [(-1, localResult)]
      | Throws m => [(-1, JError m)]
      end
  | None => []
  end.

(** [requestAll(handler, data?, timeout = 30000)]; [totalClusters] is the
    value of [this.totalClusters?.()]. *)
Definition requestAll (nonce handler : string) (payload : JSValue)
    (timeout : option Z) (totalClusters : option Z) (st : State)
  : CallResult ResultCollection.t * State :=
  let timeout := default 30000 timeout in
  let total := default 0 totalClusters in
  if total =? 0 then (Returned [], st) else
  let remoteExpected := total - 1 in
  let initial := initialResults handler payload st in
  if remoteExpected <=? 0 then (Returned (collect initial), st) else
  let m := HandlerRequestAll nonce handler payload in
  let st1 := record_send m st in
  match send m with
  | SendFailed e => (Failed e, st1)
  | SendOk =>
      let '(timer, st2) :=
        if 0 <? timeout
        then let '(tid, st2) := setTimeout (ResolvePartial nonce) st1 in
             (Some tid, st2)
        else (None, st1) in
      (Pending,
       with_pendingAll
         (insert nonce
            {| results := initial;
               expected := remoteExpected + Z.of_nat (length initial);
               pa_settles := nonce;
               pa_timeout := timer |}) st2)
  end.

(** The branch shared by [HandlerResponse] and [HandlerError] once an
    entry of [pendingAll] was found and [src !== undefined]. *)
Definition collectReply (nonce : string) (pending : PendingAll) (src : Z)
    (result : JSValue) (st : State) : State :=
  let results' := assoc_set src result (results pending) in
  if expected pending <=? Z.of_nat (length results')
  then settle (pa_settles pending) (ResolvedAll (collect results'))
         (with_pendingAll (delete nonce)
            (with_timers (clearTimeout (pa_timeout pending)) st))
  else with_pendingAll
         (insert nonce
            {| results := results'; expected := expected pending;
               pa_settles := pa_settles pending;
               pa_timeout := pa_timeout pending |}) st.

(** The fall-through to [this.promises]. *)
Definition settlePromise (nonce : string) (s : Settlement) (st : State) : State :=
  match promises st !! nonce with
  | Some promise =>
      settle (sp_settles promise) s
        (with_promises (delete nonce)
           (with_timers (clearTimeout (sp_timeout promise)) st))
  | None => st
  end.

(** [handleIncoming(message, sourceCluster?)] *)
Definition handleIncoming (message : IPCMessage) (sourceCluster : option Z)
    (st : State) : State :=
  match message with
  | HandlerRequestAll nonce handler payload
  | HandlerRequest nonce handler payload =>
      match handlers st !! handler with
      | None =>
          record_send
            (HandlerError nonce
               ("No handler registered for '" +:+ handler +:+ "'")
               sourceCluster) st
      | Some fn =>
          match fn payload with
          | Returns result =>
              let reply := HandlerResponse nonce result sourceCluster in
              let st1 := record_send reply st in
              match send reply with
              | SendOk => st1
              | SendFailed e =>
                  (* the rejected send lands in the same catch block *)
                  record_send (HandlerError nonce e sourceCluster) st1
              end
          | Throws e =>
              record_send (HandlerError nonce e sourceCluster) st
          end
      end
  | HandlerResponse nonce responseData src =>
      match pendingAll st !! nonce, src with
      | Some pending, Some s => collectReply nonce pending s responseData st
      | _, _ => settlePromise nonce (Resolved responseData) st
      end
  | HandlerError nonce errMsg src =>
      match pendingAll st !! nonce, src with
      | Some pending, Some s => collectReply nonce pending s (JError errMsg) st
      | _, _ => settlePromise nonce (Rejected errMsg) st
      end
  | _ => st
  end.

(** The event loop runs the callback of an armed timer; a handle that was
    cleared, or already ran, does nothing. *)
Definition fireTimer (tid : nat) (st : State) : State :=
  match timers st !! tid with
  | None => st
  | Some cb =>
      let st1 := with_timers (delete tid) st in
      match cb with
      | RejectTimedOut nonce =>
          settle nonce (Rejected "IPC request timed out")
            (with_promises (delete nonce) st1)
      | ResolvePartial nonce =>
          match pendingAll st1 !! nonce with
          | Some pending =>
              settle nonce (ResolvedAll (collect (results pending)))
                (with_pendingAll (delete nonce) st1)
          | None => st1
          end
      end
  end.

(** [clearPending()]: every entry of both tables has its timer cleared and
    its [reject] called.  Within one table the log lists the rejections in
    the order of the finite map, not in the insertion order of the [Map]. *)
Definition clearPending (st : State) : State :=
  let ps := map_to_list (promises st) in
  let pas := map_to_list (pendingAll st) in
  {| handlers := handlers st;
     promises := ∅;
     pendingAll := ∅;
     timers :=
       foldr (fun e => clearTimeout (pa_timeout (snd e)))
         (foldr (fun e => clearTimeout (sp_timeout (snd e))) (timers st) ps)
         pas;
     next_timer := next_timer st;
     sent := sent st;
     settled :=
       settled st
       ++ map (fun e => (sp_settles (snd e), Rejected "IPC handler cleared")) ps
       ++ map (fun e => (pa_settles (snd e), Rejected "IPC handler cleared")) pas |}.

(** Everything that can happen to one IPCHandler. *)
Inductive Event : Type :=
  | CallHandle (name : string) (fn : HandlerFn)
  | CallRemoveHandler (name : string)
  | CallRequest (nonce handler : string) (payload : JSValue) (timeout : option Z)
  | CallRequestTo (cluster : Z) (nonce handler : string) (payload : JSValue)
      (timeout : option Z)
  | CallRequestAll (nonce handler : string) (payload : JSValue)
      (timeout : option Z) (totalClusters : option Z)
  | Incoming (message : IPCMessage) (sourceCluster : option Z)
  | TimerFires (tid : nat)
  | CallClearPending.

Definition step (st : State) (ev : Event) : State :=
  match ev with
  | CallHandle name fn => handle name fn st
  | CallRemoveHandler name => snd (removeHandler name st)
  | CallRequest n h d t => snd (request n h d t st)
  | CallRequestTo c n h d t => snd (requestTo c n h d t st)
  | CallRequestAll n h d t total => snd (requestAll n h d t total st)
  | Incoming m src => handleIncoming m src st
  | TimerFires tid => fireTimer tid st
  | CallClearPending => clearPending st
  end.

Definition run (st : State) (evs : list Event) : State :=
  fold_left step evs st.

End WithTransport.

(** The calls that put a pending entry under [nonce]. *)
Definition registers (nonce : string) (ev : Event) : bool :=
  match ev with
  | CallRequest n _ _ _ | CallRequestTo _ n _ _ _ | CallRequestAll n _ _ _ _ =>
      bool_decide (n = nonce)
  | _ => false
  end.

(** The settlements logged for the promise created under [nonce]. *)
Definition outcomes (nonce : string) (st : State) : list Settlement :=
  map snd (filter (fun e => fst e = nonce) (settled st)).

End IPCHandler.

(** ** StoreClient (src/ipc/Store.ts) *)

Module StoreClient.

Inductive Settlement : Type :=
  | Resolved (v : JSValue)
  | Rejected (message : string).

(** A timer of this class always holds the closure of [createPromise],
    which captured [nonce]. *)
Record State : Type := {
  promises : gmap string StoredPromise;
  timers : gmap nat string;
  next_timer : nat;
  sent : list IPCMessage;
  settled : list (string * Settlement);
}.

Definition init : State :=
  {| promises := ∅; timers := ∅; next_timer := 0; sent := []; settled := [] |}.

(** The [value] field of [message.data], as the callers read it from the
    resolved object ([result.value]). *)
Definition value_field (m : IPCMessage) : JSValue :=
  match m with
  | StoreResponse _ v | StoreSet _ _ v _ => v
  | _ => JUndefined
  end.

Section WithTransport.

Variable send : SendFn.

(** [createPromise(nonce, timeout)]: here the timer is always set. *)
Definition createPromise (nonce : string) (st : State) : State :=
  {| promises :=
       <[nonce := {| sp_settles := nonce; sp_timeout := Some (next_timer st) |}]>
         (promises st);
     timers := <[next_timer st := nonce]> (timers st);
     next_timer := S (next_timer st);
     sent := sent st;
     settled := settled st |}.

(** [get], [set], [has] and [delete] differ only in the message sent. *)
Definition call (m : IPCMessage) (st : State) : CallResult JSValue * State :=
  let st1 :=
    {| promises := promises st; timers := timers st;
       next_timer := next_timer st; sent := sent st ++ [m];
       settled := settled st |} in
  match send m with
  | SendFailed e => (Failed e, st1)
  | SendOk => (Pending, createPromise (nonce_of m) st1)
  end.

Definition get (nonce key : string) := call (StoreGet nonce key).
Definition set (nonce key : string) (v : JSValue) (ttl : option Z) :=
  call (StoreSet nonce key v ttl).
Definition has (nonce key : string) := call (StoreHas nonce key).
Definition delete (nonce key : string) := call (StoreDelete nonce key).

(** [handleResponse(message)] *)
Definition handleResponse (message : IPCMessage) (st : State) : State :=
  match promises st !! nonce_of message with
  | None => st
  | Some promise =>
      {| promises := base.delete (nonce_of message) (promises st);
         timers := clearTimeout (sp_timeout promise) (timers st);
         next_timer := next_timer st;
         sent := sent st;
         settled :=
           settled st ++ [(sp_settles promise, Resolved (value_field message))] |}
  end.

Definition fireTimer (tid : nat) (st : State) : State :=
  match timers st !! tid with
  | None => st
  | Some nonce =>
      {| promises := base.delete nonce (promises st);
         timers := base.delete tid (timers st);
         next_timer := next_timer st;
         sent := sent st;
         settled := settled st ++ [(nonce, Rejected "Store request timed out")] |}
  end.

Inductive Event : Type :=
  | Call (m : IPCMessage)
  | Response (m : IPCMessage)
  | TimerFires (tid : nat).

Definition step (st : State) (ev : Event) : State :=
  match ev with
  | Call m => snd (call m st)
  | Response m => handleResponse m st
  | TimerFires tid => fireTimer tid st
  end.

Definition run (st : State) (evs : list Event) : State :=
  fold_left step evs st.

End WithTransport.

Definition registers (nonce : string) (ev : Event) : bool :=
  match ev with
  | Call m => bool_decide (nonce_of m = nonce)
  | _ => false
  end.

Definition outcomes (nonce : string) (st : State) : list Settlement :=
  map snd (filter (fun e => fst e = nonce) (settled st)).

End StoreClient.

(** ** EventBusClient (src/ipc/EventBus.ts) *)

Module EventBusClient.

(** An entry of [ackPromises]; the class keeps no [reject]. *)
Record AckPending : Type := {
  expected : Z;
  received : Z;
  ack_settles : string;
  ack_timeout : option nat;
}.

Record State : Type := {
  clusterId : Z;
  ackPromises : gmap string AckPending;
  timers : gmap nat string;              (* the closure captured [nonce] *)
  next_timer : nat;
  sent : list IPCMessage;
  emitted : list (string * JSValue * Z); (* super.emit(event, data, source) *)
  settled : list (string * Z);           (* calls of resolve *)
}.

Definition init (id : Z) : State :=
  {| clusterId := id; ackPromises := ∅; timers := ∅; next_timer := 0;
     sent := []; emitted := []; settled := [] |}.

Definition record_send (m : IPCMessage) (st : State) : State :=
  {| clusterId := clusterId st; ackPromises := ackPromises st;
     timers := timers st; next_timer := next_timer st;
     sent := sent st ++ [m]; emitted := emitted st; settled := settled st |}.

Definition emit (event : string) (payload : JSValue) (source : Z) (st : State)
  : State :=
  {| clusterId := clusterId st; ackPromises := ackPromises st;
     timers := timers st; next_timer := next_timer st;
     sent := sent st; emitted := emitted st ++ [(event, payload, source)];
     settled := settled st |}.

Section WithTransport.

Variable send : SendFn.

(** [broadcastAndWait(event, data?, timeout = 10000, expectedClusters?)] *)
Definition broadcastAndWait (nonce event : string) (payload : JSValue)
    (timeout : option Z) (expectedClusters : option Z) (st : State)
  : CallResult Z * State :=
  let expected := default 0 expectedClusters in
  let m := EventEmitAndWait nonce event payload (clusterId st) in
  let st1 := record_send m st in
  match send m with
  | SendFailed e => (Failed e, st1)
  | SendOk =>
      if expected <=? 0 then (Returned 0, st1) else
      (Pending,
       {| clusterId := clusterId st1;
          ackPromises :=
            <[nonce := {| expected := expected; received := 0;
                          ack_settles := nonce;
                          ack_timeout := Some (next_timer st1) |}]>
              (ackPromises st1);
          timers := <[next_timer st1 := nonce]> (timers st1);
          next_timer := S (next_timer st1);
          sent := sent st1; emitted := emitted st1; settled := settled st1 |})
  end.

(** [handleIncoming(message)] *)
Definition handleIncoming (message : IPCMessage) (st : State) : State :=
  match message with
  | EventForward _ event payload source => emit event payload source st
  | EventEmitAndWait nonce event payload source =>
      (* the rejection of this send is swallowed by [.catch(() => {})] *)
      record_send (EventAck nonce (clusterId st)) (emit event payload source st)
  | EventAck nonce _ =>
      match ackPromises st !! nonce with
      | None => st
      | Some pending =>
          let received' := received pending + 1 in
          if expected pending <=? received'
          then {| clusterId := clusterId st;
                  ackPromises := delete nonce (ackPromises st);
                  timers := clearTimeout (ack_timeout pending) (timers st);
                  next_timer := next_timer st;
                  sent := sent st; emitted := emitted st;
                  settled := settled st ++ [(ack_settles pending, received')] |}
          else {| clusterId := clusterId st;
                  ackPromises :=
                    <[nonce := {| expected := expected pending;
                                  received := received';
                                  ack_settles := ack_settles pending;
                                  ack_timeout := ack_timeout pending |}]>
                      (ackPromises st);
                  timers := timers st;
                  next_timer := next_timer st;
                  sent := sent st; emitted := emitted st;
                  settled := settled st |}
      end
  | _ => st
  end.

(** The timer of [broadcastAndWait]: [resolve(pending?.received ?? 0)]. *)
Definition fireTimer (tid : nat) (st : State) : State :=
  match timers st !! tid with
  | None => st
  | Some nonce =>
      {| clusterId := clusterId st;
         ackPromises := delete nonce (ackPromises st);
         timers := delete tid (timers st);
         next_timer := next_timer st;
         sent := sent st; emitted := emitted st;
         settled :=
           settled st
           ++ [(nonce, from_option received 0 (ackPromises st !! nonce))] |}
  end.

Inductive Event : Type :=
  | CallBroadcastAndWait (nonce event : string) (payload : JSValue)
      (timeout : option Z) (expectedClusters : option Z)
  | Incoming (m : IPCMessage)
  | TimerFires (tid : nat).

Definition step (st : State) (ev : Event) : State :=
  match ev with
  | CallBroadcastAndWait n e d t x => snd (broadcastAndWait n e d t x st)
  | Incoming m => handleIncoming m st
  | TimerFires tid => fireTimer tid st
  end.

Definition run (st : State) (evs : list Event) : State :=
  fold_left step evs st.

End WithTransport.

Definition registers (nonce : string) (ev : Event) : bool :=
  match ev with
  | CallBroadcastAndWait n _ _ _ _ => bool_decide (n = nonce)
  | _ => false
  end.

(** Is [ev] the delivery of an ack for [nonce]? *)
Definition acks (nonce : string) (ev : Event) : bool :=
  match ev with
  | Incoming (EventAck n _) => bool_decide (n = nonce)
  | _ => false
  end.

(** The values the promise created under [nonce] was resolved with. *)
Definition outcomes (nonce : string) (st : State) : list Z :=
  map snd (filter (fun e => fst e = nonce) (settled st)).

End EventBusClient.

(** ** ClusterClientHandler: how a unit routes the handler messages it
    receives into its IPCHandler (src/handlers/message.ts, core/clusterClient.ts) *)

Module ClusterClient.

Record t : Type := {
  id : Z;                         (* this.info.ClusterId *)
  ClusterCount : Z;               (* this.info.ClusterCount *)
  ipc : IPCHandler.State;
}.

Definition with_ipc (c : t) (st : IPCHandler.State) : t :=
  {| id := id c; ClusterCount := ClusterCount c; ipc := st |}.

(** [(ipcMsg.data as any)?.sourceCluster] *)
Definition data_sourceCluster (m : IPCMessage) : option Z :=
  match m with
  | HandlerResponse _ _ src | HandlerError _ _ src => src
  | EventEmit _ _ _ src _ | EventEmitAndWait _ _ _ src
  | EventForward _ _ _ src | EventAck _ src => Some src
  | _ => None
  end.

(** The Handler* cases of [ClusterClientHandler.handleMessage]. *)
Definition handleMessage (send : SendFn) (m : IPCMessage) (c : t) : t :=
  match m with
  | HandlerRequestAll _ _ _ =>
      with_ipc c (IPCHandler.handleIncoming send m (Some (id c)) (ipc c))
  | HandlerRequest _ _ _ | HandlerResponse _ _ _ | HandlerError _ _ _ =>
      with_ipc c (IPCHandler.handleIncoming send m (data_sourceCluster m) (ipc c))
  | _ => c
  end.

(** [this.ipc.requestAll(handler, data, timeout)] with
    [totalClusters = () => this.info.ClusterCount]. *)
Definition requestAll (send : SendFn) (nonce handler : string) (payload : JSValue)
    (timeout : option Z) (c : t) : CallResult ResultCollection.t * t :=
  let '(r, st) :=
    IPCHandler.requestAll send nonce handler payload timeout
      (Some (ClusterCount c)) (ipc c) in
  (r, with_ipc c st).

End ClusterClient.

(** ** ClusterHandler.handleMessage, case ClientReady (src/handlers/message.ts)

    [ClusterManager] and [Cluster] are declared outside the files at hand;
    the model keeps the fields this case reads and writes.  Cluster objects
    live in a store of references, because the handler's own cluster
    ([this.cluster]) and the registry ([manager.clusters]) may or may not
    share an object. *)

Module ClusterHandler.

Inductive PackageType : Type := discord_js | discordjs_core.

Record Cluster : Type := {
  c_id : Z;
  c_ready : bool;
  c_exited : bool;
  lastHeartbeatReceived : Z;
}.

Record Manager : Type := {
  m_ready : bool;
  packageType : option PackageType;       (* manager.options.packageType *)
  totalClusters : Z;                      (* manager.options.totalClusters *)
  clusters : list (Z * nat);              (* Map<number, Cluster>, by reference *)
  objects : nat -> Cluster;               (* the Cluster objects *)
}.

(** Assignment through a reference. *)
Definition write (ref : nat) (c : Cluster) (objs : nat -> Cluster)
  : nat -> Cluster :=
  fun r => if Nat.eqb r ref then c else objs r.

Inductive Effect : Type :=
  | DebugDuplicateReady (cluster : Z)
  | DebugPackageType (cluster : Z) (p : PackageType)
  | EmitClusterReady (ref : nat)
  | InfoClusterReady (cluster : Z)
  | EmitManagerReady
  | InfoAllReady
  | SendManagerReady (ref : nat).         (* cluster._sendInstance({ManagerReady}) *)

(** [manager.clusters.every(cluster => cluster.ready)] *)
Definition allReady (m : Manager) : bool :=
  forallb (fun e => c_ready (objects m (snd e))) (clusters m).

(** [manager.clusters.size === manager.options.totalClusters] *)
Definition sizeMatches (m : Manager) : bool :=
  Z.of_nat (length (clusters m)) =? totalClusters m.

(** [case MessageTypes.ClientReady] for the handler bound to the cluster
    object [self]; [readyPackage] is [message.data?.packageType]. *)
Definition handleClientReady (self : nat) (readyPackage : option PackageType)
    (now : Z) (m : Manager) : Manager * list Effect :=
  let this := objects m self in
  if c_ready this then (m, [DebugDuplicateReady (c_id this)]) else
  let '(pkg, fx1) :=
    match readyPackage, packageType m with
    | Some p, None => (Some p, [DebugPackageType (c_id this) p])
    | _, _ => (packageType m, [])
    end in
  let this' :=
    {| c_id := c_id this; c_ready := true; c_exited := false;
       lastHeartbeatReceived := now |} in
  let m1 :=
    {| m_ready := m_ready m; packageType := pkg;
       totalClusters := totalClusters m; clusters := clusters m;
       objects := write self this' (objects m) |} in
  let fx2 := fx1 ++ [EmitClusterReady self; InfoClusterReady (c_id this)] in
  if negb (m_ready m1) && allReady m1 && sizeMatches m1
  then ({| m_ready := true; packageType := packageType m1;
           totalClusters := totalClusters m1; clusters := clusters m1;
           objects := objects m1 |},
        fx2 ++ [EmitManagerReady; InfoAllReady]
            ++ map (fun e => SendManagerReady (snd e)) (clusters m1))
  else (m1, fx2).

(** What else happens to the registry between two ready signals: units are
    created, replaced, removed, or lose their ready flag on respawn.  None
    of it is in the files at hand; none of it writes [manager.ready]. *)
Inductive Event : Type :=
  | ClientReady (self : nat) (readyPackage : option PackageType) (now : Z)
  | RegistrySet (cluster : Z) (ref : nat)
  | RegistryDelete (cluster : Z)
  | ObjectWrite (ref : nat) (c : Cluster).

Definition step (s : Manager * list Effect) (ev : Event) : Manager * list Effect :=
  let m := fst s in
  match ev with
  | ClientReady self p now =>
      let '(m', fx) := handleClientReady self p now m in (m', snd s ++ fx)
  | RegistrySet k ref =>
      ({| m_ready := m_ready m; packageType := packageType m;
          totalClusters := totalClusters m;
          clusters := assoc_set k ref (clusters m);
          objects := objects m |}, snd s)
  | RegistryDelete k =>
      ({| m_ready := m_ready m; packageType := packageType m;
          totalClusters := totalClusters m;
          clusters := filter (fun e => fst e ≠ k) (clusters m);
          objects := objects m |}, snd s)
  | ObjectWrite ref c =>
      ({| m_ready := m_ready m; packageType := packageType m;
          totalClusters := totalClusters m; clusters := clusters m;
          objects := write ref c (objects m) |}, snd s)
  end.

Definition run (m : Manager) (evs : list Event) : Manager * list Effect :=
  fold_left step evs (m, []).

Definition is_fanout (e : Effect) : bool :=
  match e with EmitManagerReady => true | _ => false end.

End ClusterHandler.

(** ** ProcessGuard.executeShutdown (src/plugins/processGuard.ts) *)

Module ProcessGuard.

(** What [await Promise.race([task(), timeoutPromise])] observes: the task
    settled first (fulfilled, or rejected with an [Error]), or the timer
    of [timeout] ms did. *)
Inductive TaskBehaviour : Type :=
  | Completes
  | Throws (message : string)
  | ExceedsTimeout.

(** [interface CleanupTask { task; timeout }] *)
Record CleanupTask : Type := {
  task : TaskBehaviour;
  timeout : Z;
}.

(** [cluster.thread?.process]: a child process, a worker thread, or none. *)
Inductive Handle : Type :=
  | ChildProcess (pid : Z)
  | Worker (threadId : Z).

Inductive Effect : Type :=
  | DebugStep (name : string)                       (* "Step: <name>..." *)
  | RunTask (name : string)                         (* task() *)
  | DebugCompleted (name : string)                  (* "<name> completed." *)
  | DebugFailure (name : string) (message : string) (* "<name>: <message>" *)
  | Kill (h : Handle)                               (* kill('SIGTERM') / terminate() *)
  | EmitShutdownComplete
  | InfoCompleted
  | DebugShutdownError (message : string)
  | ClearForceExit
  | ClearOrphanInterval
  | UnlinkPidFile
  | Exit (code : Z).

Record State : Type := {
  cleanupTasks : list (string * CleanupTask);   (* Map, insertion order *)
  children : list (option Handle);              (* manager.clusters.values() *)
  forceExitTimeout : bool;                      (* is the timer set? *)
  orphanCheckInterval : bool;
}.

(** [Map.prototype.set]: an existing name keeps its place. *)
Fixpoint map_set (name : string) (t : CleanupTask)
    (m : list (string * CleanupTask)) : list (string * CleanupTask) :=
  match m with
  | [] => [(name, t)]
  | (n, t') :: rest =>
      if bool_decide (n = name) then (name, t) :: rest
      else (n, t') :: map_set name t rest
  end.

(** [addCleanupTask(name, taskFn, timeout = 30000)] *)
Definition addCleanupTask (name : string) (fn : TaskBehaviour)
    (ms : option Z) (st : State) : State :=
  {| cleanupTasks :=
       map_set name {| task := fn; timeout := default 30000 ms |} (cleanupTasks st);
     children := children st;
     forceExitTimeout := forceExitTimeout st;
     orphanCheckInterval := orphanCheckInterval st |}.

(** [removeCleanupTask(name)] *)
Definition removeCleanupTask (name : string) (st : State) : State :=
  {| cleanupTasks := filter (fun e => fst e ≠ name) (cleanupTasks st);
     children := children st;
     forceExitTimeout := forceExitTimeout st;
     orphanCheckInterval := orphanCheckInterval st |}.

(** One turn of the [for] loop. *)
Definition runTask (entry : string * CleanupTask) : list Effect :=
  let name := fst entry in
  [DebugStep name; RunTask name] ++
  match task (snd entry) with
  | Completes => [DebugCompleted name]
  | Throws m => [DebugFailure name m]
  | ExceedsTimeout => [DebugFailure name (name +:+ " timeout")]
  end.

(** [killAllChildren()] *)
Definition killAllChildren (st : State) : list Effect :=
  omap (fun c => Kill <$> c) (children st).

(** [cleanup()] preceded by [if (forceExitTimeout) clearTimeout(...)] *)
Definition release (st : State) : list Effect :=
  (if forceExitTimeout st then [ClearForceExit] else [])
  ++ (if orphanCheckInterval st then [ClearOrphanInterval] else [])
  ++ [UnlinkPidFile].

(** [executeShutdown(reason)].  [onComplete] is what the listeners of
    ['shutdown:complete'] do: return ([None]) or throw an [Error]. *)
Definition executeShutdown (onComplete : option string) (st : State)
  : list Effect :=
  let tasks := cleanupTasks st in
  flat_map runTask tasks
  ++ killAllChildren st
  ++ [EmitShutdownComplete]
  ++ match onComplete with
     | None => [InfoCompleted] ++ release st ++ [Exit 0]
     | Some m =>
         [DebugShutdownError m] ++ killAllChildren st ++ release st ++ [Exit 1]
     end.

Definition emptyGuard (cs : list (option Handle)) : State :=
  {| cleanupTasks := []; children := cs; forceExitTimeout := false;
     orphanCheckInterval := true |}.

(** Registering a list of tasks, first to last. *)
Definition register (regs : list (string * TaskBehaviour * option Z))
    (st : State) : State :=
  fold_left (fun s r => addCleanupTask (fst (fst r)) (snd (fst r)) (snd r) s)
    regs st.

(** The names of the tasks that were invoked, in the order of invocation. *)
Definition attempts (fx : list Effect) : list string :=
  omap (fun e => match e with RunTask n => Some n | _ => None end) fx.

(** The recorded failures, in order. *)
Definition failures (fx : list Effect) : list (string * string) :=
  omap (fun e => match e with DebugFailure n m => Some (n, m) | _ => None end) fx.

Definition kills (fx : list Effect) : list Handle :=
  omap (fun e => match e with Kill h => Some h | _ => None end) fx.

End ProcessGuard.

(** ** Observations on the logs *)

Definition is_HandlerResponse (m : IPCMessage) : bool :=
  match m with HandlerResponse _ _ _ => true | _ => false end.

Definition is_HandlerError (m : IPCMessage) : bool :=
  match m with HandlerError _ _ _ => true | _ => false end.

(** The two request tags that share one case of [handleIncoming]. *)
Definition handler_request (broadcast : bool) (nonce handler : string)
    (payload : JSValue) : IPCMessage :=
  if broadcast then HandlerRequestAll nonce handler payload
  else HandlerRequest nonce handler payload.

(** What a registration turns into inside [cleanupTasks], and the failure
    the shutdown loop records for it, if any. *)
Definition registered_entry (r : string * ProcessGuard.TaskBehaviour * option Z)
  : string * ProcessGuard.CleanupTask :=
  (fst (fst r),
   {| ProcessGuard.task := snd (fst r);
      ProcessGuard.timeout := default 30000 (snd r) |}).

Definition recorded_failure (r : string * ProcessGuard.TaskBehaviour * option Z)
  : option (string * string) :=
  match snd (fst r) with
  | ProcessGuard.Completes => None
  | ProcessGuard.Throws m => Some (fst (fst r), m)
  | ProcessGuard.ExceedsTimeout => Some (fst (fst r), fst (fst r) +:+ " timeout")
  end.

Definition is_ShutdownComplete (e : ProcessGuard.Effect) : bool :=
  match e with ProcessGuard.EmitShutdownComplete => true | _ => false end.

Definition is_Exit (e : ProcessGuard.Effect) : bool :=
  match e with ProcessGuard.Exit _ => true | _ => false end.

(** The references a list of effects sent ManagerReady to, in order. *)
Definition ready_sends (fx : list ClusterHandler.Effect) : list nat :=
  omap (fun e => match e with
                 | ClusterHandler.SendManagerReady r => Some r
                 | _ => None
                 end) fx.

(** How many times the fleet-ready notification was fired. *)
Definition fanouts (fx : list ClusterHandler.Effect) : nat :=
  length (filter (fun e => ClusterHandler.is_fanout e = true) fx).

(** ** Invariants of the pending tables

    For a nonce [n], the weight of a state counts the settlements logged for
    [n] and the pending entries still stored under [n]. *)

Definition bool_nat (b : bool) : nat := if b then 1%nat else 0%nat.

Definition store_weight (n : string) (st : StoreClient.State) : nat :=
  (length (StoreClient.outcomes n st)
   + bool_nat (bool_decide (is_Some (StoreClient.promises st !! n))))%nat.

(** Every entry holds the closures of the promise created under its own key,
    and an armed timer for [n] is the timer recorded in the entry of [n]. *)
Record store_inv (n : string) (st : StoreClient.State) : Prop := {
  store_inv_keys :
    forall k p, StoreClient.promises st !! k = Some p -> sp_settles p = k;
  store_inv_timer :
    forall tid, StoreClient.timers st !! tid = Some n ->
      exists p, StoreClient.promises st !! n = Some p /\ sp_timeout p = Some tid;
}.

(** The number of calls in a history that register [n]. *)
Definition store_registrations (n : string) (evs : list StoreClient.Event) : nat :=
  length (filter (fun ev => StoreClient.registers n ev = true) evs).

Definition ipc_weight (n : string) (st : IPCHandler.State) : nat :=
  (length (IPCHandler.outcomes n st)
   + bool_nat (bool_decide (is_Some (IPCHandler.promises st !! n)))
   + bool_nat (bool_decide (is_Some (IPCHandler.pendingAll st !! n))))%nat.

(** Every entry of either table holds the closures of the promise created
    under its own key, and an armed time-out of [createPromise] for [n] is
    the timer recorded in the entry of [n]. *)
Record ipc_inv (n : string) (st : IPCHandler.State) : Prop := {
  ipc_inv_keys_p :
    forall k p, IPCHandler.promises st !! k = Some p -> sp_settles p = k;
  ipc_inv_keys_a :
    forall k p, IPCHandler.pendingAll st !! k = Some p -> IPCHandler.pa_settles p = k;
  ipc_inv_timer :
    forall tid, IPCHandler.timers st !! tid = Some (IPCHandler.RejectTimedOut n) ->
      exists p, IPCHandler.promises st !! n = Some p /\ sp_timeout p = Some tid;
}.

Definition ipc_registrations (n : string) (evs : list IPCHandler.Event) : nat :=
  length (filter (fun ev => IPCHandler.registers n ev = true) evs).

(** ** Invariants of the ack table of EventBusClient *)

(** The number of acks for [n] delivered by a history. *)
Definition acks_count (n : string) (evs : list EventBusClient.Event) : Z :=
  Z.of_nat (length (filter (fun ev => EventBusClient.acks n ev = true) evs)).

Definition bus_registrations (n : string) (evs : list EventBusClient.Event) : nat :=
  length (filter (fun ev => EventBusClient.registers n ev = true) evs).

(** Nothing is pending under [n]: no entry, and no armed timer whose closure
    captured [n]. *)
Record bus_idle (n : string) (st : EventBusClient.State) : Prop := {
  bus_idle_keys :
    forall j p, EventBusClient.ackPromises st !! j = Some p ->
      EventBusClient.ack_settles p = j;
  bus_idle_handles :
    forall j p t, EventBusClient.ackPromises st !! j = Some p ->
      EventBusClient.ack_timeout p = Some t ->
      (t < EventBusClient.next_timer st)%nat;
  bus_idle_entry : EventBusClient.ackPromises st !! n = None;
  bus_idle_timer : forall t, EventBusClient.timers st !! t <> Some n;
}.

(** A call of [broadcastAndWait] under [n] is waiting: [k] of the [e] acks
    have arrived, its timer [tid] is armed, nothing was resolved yet. *)
Record bus_waiting (n : string) (tid : nat) (e k : Z)
    (st : EventBusClient.State) : Prop := {
  bus_waiting_keys :
    forall j p, EventBusClient.ackPromises st !! j = Some p ->
      EventBusClient.ack_settles p = j;
  bus_waiting_handles :
    forall j p t, EventBusClient.ackPromises st !! j = Some p ->
      EventBusClient.ack_timeout p = Some t ->
      (t < EventBusClient.next_timer st)%nat;
  bus_waiting_entry :
    EventBusClient.ackPromises st !! n
    = Some {| EventBusClient.expected := e; EventBusClient.received := k;
              EventBusClient.ack_settles := n;
              EventBusClient.ack_timeout := Some tid |};
  bus_waiting_timer : EventBusClient.timers st !! tid = Some n;
  bus_waiting_only :
    forall t, EventBusClient.timers st !! t = Some n -> t = tid;
  bus_waiting_others :
    forall j p, j <> n -> EventBusClient.ackPromises st !! j = Some p ->
      EventBusClient.ack_timeout p <> Some tid;
  bus_waiting_count : k < e;
  bus_waiting_log : EventBusClient.outcomes n st = [];
}.

(** ** Invariants of a broadcast in flight (IPCHandler.requestAll) *)

(** The nonce captured by a timer closure. *)
Definition timer_nonce (cb : IPCHandler.TimerCallback) : string :=
  match cb with
  | IPCHandler.RejectTimedOut n | IPCHandler.ResolvePartial n => n
  end.

(** What an event adds to the result set of the broadcast [n]: a
    HandlerResponse or HandlerError carrying the nonce and a source. *)
Definition reply_entry (n : string) (ev : IPCHandler.Event) : option (Z * JSValue) :=
  match ev with
  | IPCHandler.Incoming (HandlerResponse k v (Some s)) _ =>
      if bool_decide (k = n) then Some (s, v) else None
  | IPCHandler.Incoming (HandlerError k e (Some s)) _ =>
      if bool_decide (k = n) then Some (s, JError e) else None
  | _ => None
  end.

Definition add_reply (n : string) (rs : list (Z * JSValue)) (ev : IPCHandler.Event)
  : list (Z * JSValue) :=
  match reply_entry n ev with
  | Some e => assoc_set (fst e) (snd e) rs
  | None => rs
  end.

(** The entries received so far: the seeded ones, then one per source that
    replied, the latest reply of a source replacing its earlier ones. *)
Definition received (n : string) (initial : list (Z * JSValue))
    (evs : list IPCHandler.Event) : list (Z * JSValue) :=
  fold_left (add_reply n) evs initial.

Definition is_clearPending (ev : IPCHandler.Event) : bool :=
  match ev with IPCHandler.CallClearPending => true | _ => false end.

Definition ipc_clears (evs : list IPCHandler.Event) : nat :=
  length (filter (fun ev => is_clearPending ev = true) evs).

(** Nothing is pending under [n]. *)
Record ipc_idle (n : string) (st : IPCHandler.State) : Prop := {
  ipc_idle_keys_p :
    forall j p, IPCHandler.promises st !! j = Some p -> sp_settles p = j;
  ipc_idle_keys_a :
    forall j p, IPCHandler.pendingAll st !! j = Some p -> IPCHandler.pa_settles p = j;
  ipc_idle_handles_p :
    forall j p t, IPCHandler.promises st !! j = Some p -> sp_timeout p = Some t ->
      (t < IPCHandler.next_timer st)%nat;
  ipc_idle_handles_a :
    forall j p t, IPCHandler.pendingAll st !! j = Some p ->
      IPCHandler.pa_timeout p = Some t -> (t < IPCHandler.next_timer st)%nat;
  ipc_idle_entry_p : IPCHandler.promises st !! n = None;
  ipc_idle_entry_a : IPCHandler.pendingAll st !! n = None;
  ipc_idle_timer :
    forall t cb, IPCHandler.timers st !! t = Some cb -> timer_nonce cb <> n;
}.

(** The broadcast [n] is collecting: its entry holds [rs], fewer than the
    [exp] entries it waits for, its timer [h] (if it has one) is armed, and
    nothing was settled yet. *)
Record ipc_collecting (n : string) (h : option nat) (rs : list (Z * JSValue))
    (exp : Z) (st : IPCHandler.State) : Prop := {
  ipc_coll_keys_p :
    forall j p, IPCHandler.promises st !! j = Some p -> sp_settles p = j;
  ipc_coll_keys_a :
    forall j p, IPCHandler.pendingAll st !! j = Some p -> IPCHandler.pa_settles p = j;
  ipc_coll_handles_p :
    forall j p t, IPCHandler.promises st !! j = Some p -> sp_timeout p = Some t ->
      (t < IPCHandler.next_timer st)%nat;
  ipc_coll_handles_a :
    forall j p t, IPCHandler.pendingAll st !! j = Some p ->
      IPCHandler.pa_timeout p = Some t -> (t < IPCHandler.next_timer st)%nat;
  ipc_coll_entry_p : IPCHandler.promises st !! n = None;
  ipc_coll_entry_a :
    IPCHandler.pendingAll st !! n
    = Some {| IPCHandler.results := rs; IPCHandler.expected := exp;
              IPCHandler.pa_settles := n; IPCHandler.pa_timeout := h |};
  ipc_coll_timer :
    forall t, h = Some t ->
      IPCHandler.timers st !! t = Some (IPCHandler.ResolvePartial n);
  ipc_coll_only :
    forall t cb, IPCHandler.timers st !! t = Some cb -> timer_nonce cb = n ->
      h = Some t;
  ipc_coll_others_p :
    forall j p t, IPCHandler.promises st !! j = Some p -> h = Some t ->
      sp_timeout p <> Some t;
  ipc_coll_others_a :
    forall j p t, j <> n -> IPCHandler.pendingAll st !! j = Some p -> h = Some t ->
      IPCHandler.pa_timeout p <> Some t;
  ipc_coll_size : Z.of_nat (length rs) < exp;
  ipc_coll_log : IPCHandler.outcomes n st = [];
}.

(** ** StoreManager.handleMessage (src/ipc/Store.ts) *)

Module StoreManagerIPC.

(** [handleMessage(message)]: the reply for the four store requests, each
    carrying the nonce of the request; [null] for any other message. *)
Definition handleMessage (data : gmap string StoreEntry) (message : IPCMessage)
    (now : Z) : option IPCMessage * gmap string StoreEntry :=
  match message with
  | StoreGet nonce key =>
      let '(v, data') := StoreManager.get data key now in
      (Some (StoreResponse nonce v), data')
  | StoreSet nonce key v ttl =>
      (Some (StoreResponse nonce (JBool true)),
       StoreManager.set data key v ttl now)
  | StoreHas nonce key =>
      let '(b, data') := StoreManager.has data key now in
      (Some (StoreResponse nonce (JBool b)), data')
  | StoreDelete nonce key =>
      let '(b, data') := StoreManager.delete data key in
      (Some (StoreResponse nonce (JBool b)), data')
  | _ => (None, data)
  end.

End StoreManagerIPC.

(** The reading of the clock a call on the store makes, if it makes one. *)
Definition clock (op : StoreManager.Op) : option Z :=
  match op with
  | StoreManager.OpGet _ now | StoreManager.OpHas _ now
  | StoreManager.OpSet _ _ _ now | StoreManager.OpCleanup now => Some now
  | StoreManager.OpDelete _ | StoreManager.OpDestroy => None
  end.

(** Is [message] one of the four requests the store answers? *)
Definition is_store_request (message : IPCMessage) : bool :=
  match message with
  | StoreGet _ _ | StoreSet _ _ _ _ | StoreHas _ _ | StoreDelete _ _ => true
  | _ => false
  end.

(** ** Invariants of a store request in flight (StoreClient) *)

(** Nothing is pending under [n]: no entry, and no armed timer whose closure
    captured [n]. *)
Record store_idle (n : string) (st : StoreClient.State) : Prop := {
  store_idle_keys :
    forall j p, StoreClient.promises st !! j = Some p -> sp_settles p = j;
  store_idle_handles :
    forall j p t, StoreClient.promises st !! j = Some p ->
      sp_timeout p = Some t -> (t < StoreClient.next_timer st)%nat;
  store_idle_entry : StoreClient.promises st !! n = None;
  store_idle_timer : forall t, StoreClient.timers st !! t <> Some n;
}.

(** The request sent under [n] is waiting: its entry is stored, its timer
    [tid] is armed, nothing was settled yet. *)
Record store_waiting (n : string) (tid : nat) (st : StoreClient.State) : Prop := {
  store_waiting_keys :
    forall j p, StoreClient.promises st !! j = Some p -> sp_settles p = j;
  store_waiting_handles :
    forall j p t, StoreClient.promises st !! j = Some p ->
      sp_timeout p = Some t -> (t < StoreClient.next_timer st)%nat;
  store_waiting_entry :
    StoreClient.promises st !! n
    = Some {| sp_settles := n; sp_timeout := Some tid |};
  store_waiting_timer : StoreClient.timers st !! tid = Some n;
  store_waiting_only :
    forall t, StoreClient.timers st !! t = Some n -> t = tid;
  store_waiting_others :
    forall j p, j <> n -> StoreClient.promises st !! j = Some p ->
      sp_timeout p <> Some tid;
  store_waiting_log : StoreClient.outcomes n st = [];
}.

(** The events that settle the request sent under [n] with timer [tid]: a
    response carrying the nonce, or the timer. *)
Definition store_decides (n : string) (tid : nat) (ev : StoreClient.Event) : bool :=
  match ev with
  | StoreClient.Response m => bool_decide (nonce_of m = n)
  | StoreClient.TimerFires t => bool_decide (t = tid)
  | StoreClient.Call _ => false
  end.

(** What such an event settles the request with. *)
Definition store_decision (ev : StoreClient.Event) : StoreClient.Settlement :=
  match ev with
  | StoreClient.Response m => StoreClient.Resolved (StoreClient.value_field m)
  | _ => StoreClient.Rejected "Store request timed out"
  end.

(** ** Invariants of a request in flight (IPCHandler.request, requestTo) *)

(** The request sent under [n] is waiting: its entry is stored in
    [promises], its timer [h] (if it has one) is armed, nothing was settled
    yet. *)
Record ipc_requesting (n : string) (h : option nat) (st : IPCHandler.State)
    : Prop := {
  ipc_req_keys_p :
    forall j p, IPCHandler.promises st !! j = Some p -> sp_settles p = j;
  ipc_req_keys_a :
    forall j p, IPCHandler.pendingAll st !! j = Some p -> IPCHandler.pa_settles p = j;
  ipc_req_handles_p :
    forall j p t, IPCHandler.promises st !! j = Some p -> sp_timeout p = Some t ->
      (t < IPCHandler.next_timer st)%nat;
  ipc_req_handles_a :
    forall j p t, IPCHandler.pendingAll st !! j = Some p ->
      IPCHandler.pa_timeout p = Some t -> (t < IPCHandler.next_timer st)%nat;
  ipc_req_entry_p :
    IPCHandler.promises st !! n = Some {| sp_settles := n; sp_timeout := h |};
  ipc_req_entry_a : IPCHandler.pendingAll st !! n = None;
  ipc_req_timer :
    forall t, h = Some t ->
      IPCHandler.timers st !! t = Some (IPCHandler.RejectTimedOut n);
  ipc_req_only :
    forall t cb, IPCHandler.timers st !! t = Some cb -> timer_nonce cb = n ->
      h = Some t;
  ipc_req_others_p :
    forall j p t, j <> n -> IPCHandler.promises st !! j = Some p -> h = Some t ->
      sp_timeout p <> Some t;
  ipc_req_others_a :
    forall j p t, IPCHandler.pendingAll st !! j = Some p -> h = Some t ->
      IPCHandler.pa_timeout p <> Some t;
  ipc_req_log : IPCHandler.outcomes n st = [];
}.




(** Every entry of either table holds the closures of the promise created
    under its own key. *)
Definition ipc_keys (st : IPCHandler.State) : Prop :=
  (forall k p, IPCHandler.promises st !! k = Some p -> sp_settles p = k)
  /\ (forall k p, IPCHandler.pendingAll st !! k = Some p ->
        IPCHandler.pa_settles p = k).

(** The rejection [clearPending()] logs for a table that holds an entry
    under the nonce. *)
Definition cleared {A : Type} (entry : option A) : list IPCHandler.Settlement :=
  match entry with
  | Some _ => [IPCHandler.Rejected "IPC handler cleared"]
  | None => []
  end.

(** The replies [handleIncoming] sends for a request that reaches a
    handler [fn]: its result, or the message of what it threw; when the
    transport rejects the result, an error reply follows. *)
Definition replies_of (send : SendFn) (fn : HandlerFn) (nonce : string)
    (payload : JSValue) (src : option Z) : list IPCMessage :=
  match fn payload with
  | Returns v =>
      HandlerResponse nonce v src
      :: match send (HandlerResponse nonce v src) with
         | SendOk => []
         | SendFailed e => [HandlerError nonce e src]
         end
  | Throws e => [HandlerError nonce e src]
  end.

(** ** EventBusClient.broadcast, emitTo and EventBusManager (src/ipc/EventBus.ts) *)

Module EventBus.

Section WithTransport.

Variable send : SendFn.

(** [broadcast(event, data?)]: one EventEmit without target. *)
Definition broadcast (nonce event : string) (payload : JSValue)
    (st : EventBusClient.State) : CallResult unit * EventBusClient.State :=
  let m := EventEmit nonce event payload (EventBusClient.clusterId st) None in
  let st1 := EventBusClient.record_send m st in
  match send m with
  | SendFailed e => (Failed e, st1)
  | SendOk => (Returned tt, st1)
  end.

(** [emitTo(clusterId, event, data?)]: one EventEmit with a target. *)
Definition emitTo (target : Z) (nonce event : string) (payload : JSValue)
    (st : EventBusClient.State) : CallResult unit * EventBusClient.State :=
  let m :=
    EventEmit nonce event payload (EventBusClient.clusterId st) (Some target) in
  let st1 := EventBusClient.record_send m st in
  match send m with
  | SendFailed e => (Failed e, st1)
  | SendOk => (Returned tt, st1)
  end.

End WithTransport.

End EventBus.

Module EventBusManager.

(** [for (const id of allClusterIds) { if (id === sourceCluster) continue; ... }] *)
Definition others (sourceCluster : Z) (allClusterIds : list Z) : list Z :=
  filter (fun id => id <> sourceCluster) allClusterIds.

(** [handleMessage(message, sourceCluster, sendToCluster, allClusterIds)]:
    the calls of [sendToCluster], in order, each with the cluster id and the
    message passed.  [sourceCluster] is the cluster the message came from. *)
Definition handleMessage (message : IPCMessage) (sourceCluster : Z)
    (allClusterIds : list Z) : list (Z * IPCMessage) :=
  match message with
  | EventEmit nonce event payload src target =>
      match target with
      | Some t => [(t, EventForward nonce event payload src)]
      | None =>
          map (fun id => (id, EventForward nonce event payload src))
            (others sourceCluster allClusterIds)
      end
  | EventEmitAndWait nonce event payload src =>
      map (fun id => (id, EventEmitAndWait nonce event payload src))
        (others sourceCluster allClusterIds)
  | EventAck nonce ackSource =>
      (* [eventData.sourceCluster ?? sourceCluster] *)
      [(default sourceCluster (ClusterClient.data_sourceCluster message),
        EventAck nonce ackSource)]
  | _ => []
  end.

End EventBusManager.

(** ** ClusterHandler.handleMessage, the cases that route IPC messages
    (src/handlers/message.ts)

    The handler is bound to the cluster object [self]; the registry is
    [manager.clusters], read in insertion order. *)

Module ClusterHandlerIPC.

Inductive Effect : Type :=
  | SendInstance (ref : nat) (m : IPCMessage)   (* cl._sendInstance(message) *)
  | IpcSend (m : IPCMessage).                   (* this.ipc.send(response) *)

(** The cases HandlerRequest, HandlerRequestAll, HandlerResponse and
    HandlerError share one body:
    [for (const [id, cl] of clusters) { if (id === this.cluster.id) continue;
    cl._sendInstance(message) }]. *)
Definition forward (self : nat) (message : IPCMessage) (m : ClusterHandler.Manager)
  : list Effect :=
  map (fun e => SendInstance (snd e) message)
    (filter (fun e => fst e <> ClusterHandler.c_id (ClusterHandler.objects m self))
       (ClusterHandler.clusters m)).

(** [manager.clusters.get(clusterId)] *)
Definition registry_get (clusters : list (Z * nat)) (id : Z) : option nat :=
  snd <$> List.find (fun e => fst e =? id) clusters.

(** The cases StoreGet, StoreSet, StoreDelete and StoreHas:
    [response = manager.store.handleMessage(ipcMsg); if (response)
    this.ipc.send(response)]. *)
Definition handleStore (message : IPCMessage) (store : gmap string StoreEntry)
    (now : Z) : list Effect * gmap string StoreEntry :=
  let '(response, store') := StoreManagerIPC.handleMessage store message now in
  (match response with Some r => [IpcSend r] | None => [] end, store').

(** The cases EventEmit, EventEmitAndWait and EventAck: the event bus
    decides the deliveries, [sendToCluster] drops those for an id that is
    not registered. *)
Definition handleEvent (self : nat) (message : IPCMessage)
    (m : ClusterHandler.Manager) : list Effect :=
  omap (fun d =>
          (fun ref => SendInstance ref (snd d))
            <$> registry_get (ClusterHandler.clusters m) (fst d))
    (EventBusManager.handleMessage message
       (ClusterHandler.c_id (ClusterHandler.objects m self))
       (map fst (ClusterHandler.clusters m))).

End ClusterHandlerIPC.

(** ** Observations on the event bus *)

(** What an incoming message makes the client emit to its listeners. *)
Definition local_emit (ev : EventBusClient.Event) : option (string * JSValue * Z) :=
  match ev with
  | EventBusClient.Incoming (EventForward _ event payload source)
  | EventBusClient.Incoming (EventEmitAndWait _ event payload source) =>
      Some (event, payload, source)
  | _ => None
  end.

(** The ack an incoming message makes the client [id] send. *)
Definition ack_due (id : Z) (ev : EventBusClient.Event) : option IPCMessage :=
  match ev with
  | EventBusClient.Incoming (EventEmitAndWait nonce _ _ _) => Some (EventAck nonce id)
  | _ => None
  end.

Definition is_EventAck (m : IPCMessage) : bool :=
  match m with EventAck _ _ => true | _ => false end.

(** ** Observations on the cleanup tasks of ProcessGuard *)

(** The elements of a list in the order of their first occurrence. *)
Definition first_occurrences (l : list string) : list string :=
  fold_left (fun acc x => if decide (x ∈ acc) then acc else acc ++ [x]) l [].

(** The last registration made under [name]. *)
Definition last_registration (name : string)
    (regs : list (string * ProcessGuard.TaskBehaviour * option Z))
  : option (string * ProcessGuard.TaskBehaviour * option Z) :=
  last (filter (fun r => fst (fst r) = name) regs).

(** The failure the shutdown loop records for an entry of [cleanupTasks]. *)
Definition entry_failure (e : string * ProcessGuard.CleanupTask)
  : option (string * string) :=
  match ProcessGuard.task (snd e) with
  | ProcessGuard.Completes => None
  | ProcessGuard.Throws m => Some (fst e, m)
  | ProcessGuard.ExceedsTimeout => Some (fst e, fst e +:+ " timeout")
  end.

(** ** ProcessGuard: [initiate] and the process handlers
    (src/plugins/processGuard.ts) *)

Module ProcessGuardSignals.

(** The closure handed to the force-exit [setTimeout]. *)
Inductive ForceExit : Type :=
  | KillAndExit     (* signal handler: log, killAllChildren(), process.exit(1) *)
  | ExitOnly.       (* uncaughtException handler: process.exit(1) *)

Record State : Type := {
  isShuttingDown : bool;
  shutdownStartTime : option Z;
  shutdownPromise : option string;      (* the call of executeShutdown it holds *)
  forceExitTimeout : option ForceExit;
}.

Inductive Effect : Type :=
  | InfoReceived (reason : string)      (* "Received <reason>. Initiating ..." *)
  | EmitShutdownStart (reason : string)
  | CallExecuteShutdown (reason : string)
  | DebugInProgress (signal : string)   (* "... shutdown already in progress." *)
  | SetForceExit (f : ForceExit) (ms : Z)
  | LogUncaught (err : string)
  | LogUnhandled (reason : string).

Definition init : State :=
  {| isShuttingDown := false; shutdownStartTime := None;
     shutdownPromise := None; forceExitTimeout := None |}.

(** [isInShutdown()] *)
Definition isInShutdown (st : State) : bool := isShuttingDown st.

(** [initiate(reason)].  [onStart] is what the listeners of
    ['shutdown:start'] do: return ([None]) or throw an [Error]. *)
Definition initiate (reason : string) (now : Z) (onStart : option string)
    (st : State) : State * list Effect :=
  if isShuttingDown st then (st, []) else
  match onStart with
  | Some _ =>
      ({| isShuttingDown := true; shutdownStartTime := Some now;
          shutdownPromise := shutdownPromise st;
          forceExitTimeout := forceExitTimeout st |},
       [InfoReceived reason; EmitShutdownStart reason])
  | None =>
      ({| isShuttingDown := true; shutdownStartTime := Some now;
          shutdownPromise := Some reason;
          forceExitTimeout := forceExitTimeout st |},
       [InfoReceived reason; EmitShutdownStart reason; CallExecuteShutdown reason])
  end.

Definition arm (f : ForceExit) (st : State) : State :=
  {| isShuttingDown := isShuttingDown st;
     shutdownStartTime := shutdownStartTime st;
     shutdownPromise := shutdownPromise st;
     forceExitTimeout := Some f |}.

Section WithOptions.

Variable forceExitMs : Z.               (* options?.forceExitMs ?? 90000 *)

(** [this.signalHandler(signal)], run on SIGTERM and SIGINT. *)
Definition signalHandler (signal : string) (now : Z) (onStart : option string)
    (st : State) : State * list Effect :=
  if isShuttingDown st then (st, [DebugInProgress signal]) else
  let '(st', fx) := initiate signal now onStart (arm KillAndExit st) in
  (st', SetForceExit KillAndExit forceExitMs :: fx).

(** The handler of ['uncaughtException']. *)
Definition uncaughtException (err : string) (now : Z) (onStart : option string)
    (st : State) : State * list Effect :=
  if isShuttingDown st then (st, [LogUncaught err]) else
  let '(st', fx) := initiate "uncaughtException" now onStart (arm ExitOnly st) in
  (st', LogUncaught err :: SetForceExit ExitOnly forceExitMs :: fx).

(** The handler of ['unhandledRejection']. *)
Definition unhandledRejection (reason : string) (st : State)
  : State * list Effect :=
  (st, [LogUnhandled reason]).

Inductive Event : Type :=
  | Initiate (reason : string) (now : Z) (onStart : option string)
  | Signal (signal : string) (now : Z) (onStart : option string)
  | UncaughtException (err : string) (now : Z) (onStart : option string)
  | UnhandledRejection (reason : string).

Definition step (s : State * list Effect) (ev : Event) : State * list Effect :=
  let '(st', fx) :=
    match ev with
    | Initiate reason now onStart => initiate reason now onStart (fst s)
    | Signal signal now onStart => signalHandler signal now onStart (fst s)
    | UncaughtException err now onStart =>
        uncaughtException err now onStart (fst s)
    | UnhandledRejection reason => unhandledRejection reason (fst s)
    end in
  (st', snd s ++ fx).

Definition run (st : State) (evs : list Event) : State * list Effect :=
  fold_left step evs (st, []).

End WithOptions.

End ProcessGuardSignals.

(** The events that can start the shutdown, with the reason, the time and
    the force-exit closure they bring. *)
Definition starts_shutdown (ev : ProcessGuardSignals.Event) : bool :=
  match ev with
  | ProcessGuardSignals.UnhandledRejection _ => false
  | _ => true
  end.

Definition start_reason (ev : ProcessGuardSignals.Event) : string :=
  match ev with
  | ProcessGuardSignals.Initiate reason _ _ => reason
  | ProcessGuardSignals.Signal signal _ _ => signal
  | _ => "uncaughtException"
  end.

Definition start_time (ev : ProcessGuardSignals.Event) : option Z :=
  match ev with
  | ProcessGuardSignals.Initiate _ now _
  | ProcessGuardSignals.Signal _ now _
  | ProcessGuardSignals.UncaughtException _ now _ => Some now
  | ProcessGuardSignals.UnhandledRejection _ => None
  end.

Definition start_listener (ev : ProcessGuardSignals.Event) : option string :=
  match ev with
  | ProcessGuardSignals.Initiate _ _ onStart
  | ProcessGuardSignals.Signal _ _ onStart
  | ProcessGuardSignals.UncaughtException _ _ onStart => onStart
  | ProcessGuardSignals.UnhandledRejection _ => None
  end.

Definition start_force_exit (ev : ProcessGuardSignals.Event)
  : option ProcessGuardSignals.ForceExit :=
  match ev with
  | ProcessGuardSignals.Signal _ _ _ => Some ProcessGuardSignals.KillAndExit
  | ProcessGuardSignals.UncaughtException _ _ _ => Some ProcessGuardSignals.ExitOnly
  | _ => None
  end.

(** The calls of [executeShutdown], the force-exit timers armed and the
    ['shutdown:start'] events in a list of effects. *)
Definition shutdown_calls (fx : list ProcessGuardSignals.Effect) : list string :=
  omap (fun e => match e with
                 | ProcessGuardSignals.CallExecuteShutdown r => Some r
                 | _ => None
                 end) fx.

Definition force_exits (fx : list ProcessGuardSignals.Effect)
  : list (ProcessGuardSignals.ForceExit * Z) :=
  omap (fun e => match e with
                 | ProcessGuardSignals.SetForceExit f ms => Some (f, ms)
                 | _ => None
                 end) fx.

Definition shutdown_starts (fx : list ProcessGuardSignals.Effect) : list string :=
  omap (fun e => match e with
                 | ProcessGuardSignals.EmitShutdownStart r => Some r
                 | _ => None
                 end) fx.

(** ** ClusterProcessGuard (src/plugins/processGuard.ts) *)

Module ClusterProcessGuard.

Record State : Type := {
  managerPid : Z;
  missedChecks : Z;
  maxMissed : Z;
  exited : bool;          (* destroy() and process.exit(1) were called *)
}.

Inductive Effect : Type :=
  | ConsoleError (pid missed : Z)     (* "Manager (PID ..) is dead. ..." *)
  | ClearInterval
  | Exit (code : Z).

(** The constructor: it throws without a parent process ([!ppid], or a
    parent that is init); [maxMissed] is [options?.maxMissed ?? 3]. *)
Definition create (ppid : Z) (maxMissedOption : option Z) : string + State :=
  if (ppid =? 0) || (ppid =? 1)
  then inl "ClusterProcessGuard: No parent process detected."%string
  else inr {| managerPid := ppid; missedChecks := 0;
              maxMissed := default 3 maxMissedOption; exited := false |}.

(** One run of the interval callback; [alive] is [isManagerAlive()].  Once
    the process has exited nothing runs any more. *)
Definition check (alive : bool) (st : State) : State * list Effect :=
  if exited st then (st, []) else
  if alive
  then ({| managerPid := managerPid st; missedChecks := 0;
           maxMissed := maxMissed st; exited := false |}, [])
  else
    let missed := missedChecks st + 1 in
    if maxMissed st <=? missed
    then ({| managerPid := managerPid st; missedChecks := missed;
             maxMissed := maxMissed st; exited := true |},
          [ConsoleError (managerPid st) missed; ClearInterval; Exit 1])
    else ({| managerPid := managerPid st; missedChecks := missed;
             maxMissed := maxMissed st; exited := false |}, []).

Definition step (s : State * list Effect) (alive : bool) : State * list Effect :=
  let '(st', fx) := check alive (fst s) in (st', snd s ++ fx).

Definition run (st : State) (checks : list bool) : State * list Effect :=
  fold_left step checks (st, []).

End ClusterProcessGuard.

(** The number of failed checks at the head of a list, and the number of
    checks that failed in a row at the end of a history. *)
Fixpoint leading_failures (checks : list bool) : nat :=
  match checks with
  | false :: rest => S (leading_failures rest)
  | _ => 0%nat
  end.

Definition failed_in_a_row (checks : list bool) : Z :=
  Z.of_nat (leading_failures (rev checks)).

(** The history holds [k] failed checks in a row. *)
Definition fails_in_a_row (k : nat) (checks : list bool) : Prop :=
  exists before after, checks = before ++ replicate k false ++ after.

(** ** Logger (src/utils/Logger.ts)

    Strings are sequences of ASCII characters; the white space of the
    regular expression class [\s] is then the space and the characters
    [\t], [\n], [\v], [\f], [\r].  The colour functions of picocolors are
    kept symbolic: a piece of output is a text, or a text wrapped by one of
    them.  [console.*] calls are returned, not performed. *)

Module Logger.

Inductive LogLevel : Type := Debug | Info | Warn | Error.

Definition LEVEL_PRIORITY (level : LogLevel) : Z :=
  match level with Debug => 0 | Info => 1 | Warn => 2 | Error => 3 end.

Inductive Color : Type := gray | cyan | yellow | red | green | blue | magenta.

Definition LEVEL_COLORS (level : LogLevel) : Color :=
  match level with Debug => gray | Info => cyan | Warn => yellow | Error => red end.

Definition LEVEL_LABELS (level : LogLevel) : string :=
  match level with
  | Debug => "DEBUG" | Info => "INFO" | Warn => "WARN" | Error => "ERROR"
  end.

Definition TAG_COLORS : list Color := [green; blue; magenta; cyan; yellow].

(** [interface LoggingOptions { enabled?; level?; colors?; timestamps? }] *)
Record LoggingOptions : Type := {
  enabled : option bool;
  level : option LogLevel;
  colors : option bool;
  timestamps : option bool;
}.

Record State : Type := {
  is_enabled : bool;                     (* this.enabled *)
  useColors : bool;
  useTimestamps : bool;
  minLevel : Z;
  tagColorMap : gmap string Color;
  tagColorIndex : nat;
}.

(** The constructor: [options?.enabled ?? false] and so on. *)
Definition create (options : option LoggingOptions) : State :=
  {| is_enabled := default false (options ≫= enabled);
     useColors := default true (options ≫= colors);
     useTimestamps := default true (options ≫= timestamps);
     minLevel := LEVEL_PRIORITY (default Info (options ≫= level));
     tagColorMap := ∅;
     tagColorIndex := 0 |}.

(** The characters ['['] and [']']. *)
Definition bracket_open : Ascii.ascii := Ascii.ascii_of_nat 91.
Definition bracket_close : Ascii.ascii := Ascii.ascii_of_nat 93.

(** [\s] *)
Definition is_space (c : Ascii.ascii) : bool :=
  let n := Ascii.nat_of_ascii c in
  Nat.eqb n 32 || (Nat.leb 9 n && Nat.leb n 13).

(** The end of the regular expression, any white space and then a group
    that takes everything (the [s] flag lets the dot match line breaks): the
    rest once the leading white space is dropped. *)
Fixpoint skip_spaces (s : string) : string :=
  match s with
  | String c rest => if is_space c then skip_spaces rest else s
  | EmptyString => EmptyString
  end.

(** The characters before the first closing bracket and those after it;
    nothing when there is no closing bracket. *)
Fixpoint until_bracket (s : string) : option (string * string) :=
  match s with
  | EmptyString => None
  | String c rest =>
      if Ascii.eqb c bracket_close then Some (EmptyString, rest)
      else match until_bracket rest with
           | Some (tag, after) => Some (String c tag, after)
           | None => None
           end
  end.

(** [parseTag(message)].  The regular expression asks for an opening
    bracket at the start, one or more characters other than a closing
    bracket (the tag), a closing bracket, any white space, and the body. *)
Definition parseTag (message : string) : option string * string :=
  match message with
  | String c0 rest =>
      if Ascii.eqb c0 bracket_open
      then match until_bracket rest with
           | Some (String c tag, after) =>
               (Some (String c tag), skip_spaces after)
           | _ => (None, message)
           end
      else (None, message)
  | EmptyString => (None, message)
  end.

(** [colorForTag(tag)] *)
Definition colorForTag (tag : string) (st : State) : Color * State :=
  match tagColorMap st !! tag with
  | Some fn => (fn, st)
  | None =>
      let fn := nth (tagColorIndex st mod length TAG_COLORS) TAG_COLORS green in
      (fn,
       {| is_enabled := is_enabled st; useColors := useColors st;
          useTimestamps := useTimestamps st; minLevel := minLevel st;
          tagColorMap := <[tag := fn]> (tagColorMap st);
          tagColorIndex := S (tagColorIndex st) |})
  end.

Inductive Console : Type := console_error | console_warn | console_log.

Inductive Part : Type :=
  | Plain (text : string)
  | Colored (c : Color) (text : string).     (* pc.<c>(text) *)

(** [this.useColors ? f(text) : text] *)
Definition paint (st : State) (c : Color) (text : string) : Part :=
  if useColors st then Colored c text else Plain text.

Definition console_of (level : LogLevel) : Console :=
  match level with
  | Error => console_error
  | Warn => console_warn
  | _ => console_log
  end.

(** [log(level, message)]; [ts] is what [this.timestamp()] returns.  The
    result is the console function called with the parts that
    [parts.join(' ')] puts together, or nothing. *)
Definition log (level : LogLevel) (message : string) (ts : string) (st : State)
  : State * option (Console * list Part) :=
  if negb (is_enabled st) || (LEVEL_PRIORITY level <? minLevel st)
  then (st, None) else
  let '(tag, body) := parseTag message in
  let stamp := if useTimestamps st then [paint st gray ts] else [] in
  let label := paint st (LEVEL_COLORS level) ("[" +:+ LEVEL_LABELS level +:+ "]") in
  let '(tagged, st') :=
    match tag with
    | Some t =>
        if useColors st
        then let '(fn, st') := colorForTag t st in
             ([Colored fn ("[" +:+ t +:+ "]")], st')
        else ([Plain ("[" +:+ t +:+ "]")], st)
    | None => ([], st)
    end in
  (st',
   Some (console_of level,
         stamp ++ [label] ++ tagged ++ [paint st (LEVEL_COLORS level) body])).

Definition debug := log Debug.
Definition info := log Info.
Definition warn := log Warn.
Definition error := log Error.

(** The text of a part, and [parts.join(' ')] for uncoloured parts. *)
Definition text_of (p : Part) : string :=
  match p with Plain t | Colored _ t => t end.

Fixpoint join (parts : list string) : string :=
  match parts with
  | [] => ""
  | [p] => p
  | p :: rest => p +:+ " " +:+ join rest
  end.

End Logger.

(** A string of white space, and a string that does not start with it. *)
Fixpoint all_spaces (s : string) : bool :=
  match s with
  | String c rest => Logger.is_space c && all_spaces rest
  | EmptyString => true
  end.

Definition starts_with_space (s : string) : bool :=
  match s with
  | String c _ => Logger.is_space c
  | EmptyString => false
  end.

(** No closing bracket in the string. *)
Fixpoint bracket_free (s : string) : bool :=
  match s with
  | String c rest => negb (Ascii.eqb c Logger.bracket_close) && bracket_free rest
  | EmptyString => true
  end.

(** Colouring the tags of a list of messages, one after the other. *)
Definition colour_tags (tags : list string) (st : Logger.State) : Logger.State :=
  fold_left (fun s t => snd (Logger.colorForTag t s)) tags st.

(** * Properties *)

(** ** ResultCollection *)

Lemma values_app (l1 l2 : ResultCollection.t) :
  ResultCollection.values (l1 ++ l2)
  = ResultCollection.values l1 ++ ResultCollection.values l2.
Proof.
  unfold ResultCollection.values. by rewrite filter_app, map_app.
Qed.

Lemma values_cons_skip (r : ClusterResult) (l : ResultCollection.t) :
  data r = JUndefined ->
  ResultCollection.values (r :: l) = ResultCollection.values l.
Proof.
  intros Hd. unfold ResultCollection.values.
  rewrite filter_cons_False; [done|].
  rewrite Hd. simpl. rewrite andb_false_r. discriminate.
Qed.

Lemma successCount_app (l1 l2 : ResultCollection.t) :
  ResultCollection.successCount (l1 ++ l2)
  = (ResultCollection.successCount l1 + ResultCollection.successCount l2)%nat.
Proof.
  unfold ResultCollection.successCount. by rewrite filter_app, length_app.
Qed.

Lemma values_le_successCount (l : ResultCollection.t) :
  (length (ResultCollection.values l) <= ResultCollection.successCount l)%nat.
Proof.
  unfold ResultCollection.values, ResultCollection.successCount.
  rewrite length_map.
  induction l as [|r l IH]; [done|].
  destruct (status r) eqn:Hs, (data r) eqn:Hd;
    repeat (first [ rewrite filter_cons_True by (rewrite ?Hs, ?Hd; done)
                  | rewrite filter_cons_False by (rewrite ?Hs, ?Hd; simpl; discriminate) ]);
    simpl; lia.
Qed.

Lemma values_defined (l : ResultCollection.t) (v : JSValue) :
  In v (ResultCollection.values l) -> v <> JUndefined.
Proof.
  unfold ResultCollection.values. rewrite in_map_iff.
  intros (r & <- & Hin) Hu.
  apply list_elem_of_In, list_elem_of_filter in Hin as [Hp _].
  rewrite Hu in Hp. simpl in Hp. rewrite andb_false_r in Hp. discriminate.
Qed.

(** C9.  An entry with status 'ok' whose data is undefined never shows up in
    [values()], hence neither in [first()], [find()] nor in the total of
    [sum()]: all four are what they would be without the entry.  The entry
    still counts in [successCount] and leaves [allOk()] as it is.  So
    [successCount] exceeds [values().length], and when the other entries
    yield no value [first()] is undefined although [successCount] is
    positive. *)
Theorem ok_undefined_entry_counted_not_valued :
  forall (before after : ResultCollection.t) (r : ClusterResult),
    status r = ok -> data r = JUndefined ->
    let rc := before ++ r :: after in
    let rest := before ++ after in
    ResultCollection.values rc = ResultCollection.values rest
    /\ (forall v, In v (ResultCollection.values rc) -> v <> JUndefined)
    /\ ResultCollection.first rc = ResultCollection.first rest
    /\ (forall p, ResultCollection.find p rc = ResultCollection.find p rest)
    /\ ResultCollection.sum rc = ResultCollection.sum rest
    /\ ResultCollection.successCount rc = S (ResultCollection.successCount rest)
    /\ ResultCollection.allOk rc = ResultCollection.allOk rest
    /\ (length (ResultCollection.values rc) < ResultCollection.successCount rc)%nat
    /\ (ResultCollection.values rest = [] ->
        ResultCollection.first rc = None
        /\ (0 < ResultCollection.successCount rc)%nat).
Proof.
  intros before after r Hs Hd rc rest.
  assert (Hv : ResultCollection.values rc = ResultCollection.values rest).
  { unfold rc, rest. rewrite !values_app. by rewrite values_cons_skip. }
  assert (Hc : ResultCollection.successCount rc
               = S (ResultCollection.successCount rest)).
  { unfold rc, rest. rewrite !successCount_app.
    unfold ResultCollection.successCount at 2.
    rewrite filter_cons_True by (by rewrite Hs). simpl.
    fold (ResultCollection.successCount after). lia. }
  split; [exact Hv|].
  split; [apply values_defined|].
  split; [unfold ResultCollection.first; by rewrite Hv|].
  split; [intros p; unfold ResultCollection.find; by rewrite Hv|].
  split; [unfold ResultCollection.sum; by rewrite Hv|].
  split; [exact Hc|].
  split.
  { unfold rc, rest, ResultCollection.allOk.
    rewrite !forallb_app. simpl. by rewrite Hs. }
  split.
  { rewrite Hv, Hc. pose proof (values_le_successCount rest). lia. }
  intros Hnil. split; [|lia].
  unfold ResultCollection.first. by rewrite Hv, Hnil.
Qed.

Lemma ok_undefined_entry_counted_not_valued_witness :
  let rc := [] ++ mkResult 0 ok JUndefined None :: [mkResult 1 error JUndefined (Some "x"%string)] in
  ResultCollection.values rc = []
  /\ ResultCollection.first rc = None
  /\ ResultCollection.successCount rc = 1%nat.
Proof.
  pose proof (ok_undefined_entry_counted_not_valued
                [] [mkResult 1 error JUndefined (Some "x"%string)]
                (mkResult 0 ok JUndefined None) eq_refl eq_refl) as H.
  simpl in H.
  destruct H as (Hv & _ & _ & _ & _ & Hc & _ & _ & Hf).
  destruct (Hf eq_refl) as [Hfirst _].
  split; [exact Hv|]. split; [exact Hfirst|exact Hc].
Defined.

(** ** StoreManager *)

Lemma expired_after_set (ttl t0 now : Z) (v : JSValue) :
  0 < ttl -> 0 <= t0 ->
  StoreManager.expired
    {| value := v; expiresAt := StoreManager.expiry_of (Some ttl) t0 |} now
  = (t0 + ttl <? now).
Proof.
  intros Httl Ht0. unfold StoreManager.expired, StoreManager.expiry_of. simpl.
  destruct (Z.eqb_spec ttl 0); [lia|]. simpl.
  destruct (Z.eqb_spec (t0 + ttl) 0); [lia|]. done.
Qed.

Lemma cleanup_lookup (m : gmap string StoreEntry) (now : Z) (k : string) :
  StoreManager.cleanup m now !! k
  = match m !! k with
    | Some e => if StoreManager.expired e now then None else Some e
    | None => None
    end.
Proof.
  unfold StoreManager.cleanup.
  destruct (m !! k) as [e|] eqn:Hk.
  - destruct (StoreManager.expired e now) eqn:He.
    + apply map_lookup_filter_None. right. intros x Hx. simpl.
      rewrite Hk in Hx. injection Hx as <-. rewrite He. discriminate.
    + apply map_lookup_filter_Some. split; [done|]. simpl. done.
  - apply map_lookup_filter_None. by left.
Qed.

(** C6.  After [set(k, v, ttl)] with a positive ttl at time [t0]: a read at
    [t0], and at any time up to the expiry instant [t0 + ttl], returns [v]
    ([get]) and [true] ([has]) and leaves the map alone; a read strictly
    after the expiry instant returns undefined ([get]) and [false] ([has])
    and that read deletes the entry; the sweep run after the expiry instant
    removes the entry too, and in any map the sweep removes exactly the
    entries the expiry guard holds for. *)
Theorem set_with_ttl_expires :
  forall (m : gmap string StoreEntry) (k : string) (v : JSValue) (ttl t0 : Z),
    0 < ttl -> 0 <= t0 ->
    let m1 := StoreManager.set m k v (Some ttl) t0 in
    StoreManager.get m1 k t0 = (v, m1)
    /\ StoreManager.has m1 k t0 = (true, m1)
    /\ (forall t, t <= t0 + ttl ->
          StoreManager.get m1 k t = (v, m1) /\ StoreManager.has m1 k t = (true, m1))
    /\ (forall t, t0 + ttl < t ->
          StoreManager.get m1 k t = (JUndefined, delete k m1)
          /\ StoreManager.has m1 k t = (false, delete k m1)
          /\ snd (StoreManager.get m1 k t) !! k = None
          /\ snd (StoreManager.has m1 k t) !! k = None
          /\ StoreManager.cleanup m1 t !! k = None)
    /\ (forall (m' : gmap string StoreEntry) (now : Z) (j : string) (e : StoreEntry),
          m' !! j = Some e ->
          StoreManager.cleanup m' now !! j
          = if StoreManager.expired e now then None else Some e).
Proof.
  intros m k v ttl t0 Httl Ht0 m1.
  assert (Hk : m1 !! k
               = Some {| value := v;
                         expiresAt := StoreManager.expiry_of (Some ttl) t0 |}).
  { unfold m1, StoreManager.set. apply lookup_insert_eq. }
  assert (Hlive : forall t, t <= t0 + ttl ->
            StoreManager.get m1 k t = (v, m1)
            /\ StoreManager.has m1 k t = (true, m1)).
  { intros t Ht. unfold StoreManager.get, StoreManager.has. rewrite Hk.
    rewrite expired_after_set by done.
    destruct (Z.ltb_spec (t0 + ttl) t); [lia|]. done. }
  split; [apply Hlive; lia|].
  split; [apply Hlive; lia|].
  split; [exact Hlive|].
  split.
  - intros t Ht.
    assert (Hg : StoreManager.get m1 k t = (JUndefined, delete k m1)).
    { unfold StoreManager.get. rewrite Hk, expired_after_set by done.
      destruct (Z.ltb_spec (t0 + ttl) t); [done|lia]. }
    assert (Hh : StoreManager.has m1 k t = (false, delete k m1)).
    { unfold StoreManager.has. rewrite Hk, expired_after_set by done.
      destruct (Z.ltb_spec (t0 + ttl) t); [done|lia]. }
    rewrite Hg, Hh. simpl. rewrite lookup_delete_eq.
    repeat split; try done.
    rewrite cleanup_lookup, Hk, expired_after_set by done.
    destruct (Z.ltb_spec (t0 + ttl) t); [done|lia].
  - intros m' now j e Hj. by rewrite cleanup_lookup, Hj.
Qed.

Lemma set_with_ttl_expires_witness :
  let m1 := StoreManager.set ∅ "k" (JNum 7) (Some 50) 1000 in
  StoreManager.get m1 "k" 1000 = (JNum 7, m1)
  /\ StoreManager.get m1 "k" 1060 = (JUndefined, delete "k"%string m1)
  /\ StoreManager.has m1 "k" 1060 = (false, delete "k"%string m1).
Proof.
  destruct (set_with_ttl_expires ∅ "k" (JNum 7) 50 1000 ltac:(lia) ltac:(lia))
    as (Hg & _ & _ & Hlate & _).
  destruct (Hlate 1060 ltac:(lia)) as (Hg' & Hh' & _).
  split; [exact Hg|]. split; [exact Hg'|exact Hh'].
Defined.

Lemma run_keeps_unexpiring (ops : list StoreManager.Op) :
  forall (m : gmap string StoreEntry) (k : string) (v : JSValue),
    m !! k = Some {| value := v; expiresAt := None |} ->
    Forall (fun op => StoreManager.writes k op = false) ops ->
    StoreManager.run m ops !! k = Some {| value := v; expiresAt := None |}.
Proof.
  induction ops as [|op ops IH]; intros m k v Hk Hops; [done|].
  inversion Hops as [|? ? Hop Hrest]; subst.
  simpl. apply IH; [|done].
  destruct op as [j now|j now|j w ttl now|j|now|]; simpl in *.
  - unfold StoreManager.get. destruct (m !! j) as [e|] eqn:Hj; [|done].
    destruct (StoreManager.expired e now) eqn:He; [|done]. simpl.
    destruct (decide (j = k)) as [->|Hne].
    + rewrite Hk in Hj. injection Hj as <-. discriminate He.
    + by rewrite lookup_delete_ne.
  - unfold StoreManager.has. destruct (m !! j) as [e|] eqn:Hj; [|done].
    destruct (StoreManager.expired e now) eqn:He; [|done]. simpl.
    destruct (decide (j = k)) as [->|Hne].
    + rewrite Hk in Hj. injection Hj as <-. discriminate He.
    + by rewrite lookup_delete_ne.
  - apply bool_decide_eq_false in Hop.
    unfold StoreManager.set. by rewrite lookup_insert_ne.
  - apply bool_decide_eq_false in Hop. by rewrite lookup_delete_ne.
  - by rewrite cleanup_lookup, Hk.
  - discriminate.
Qed.

(** C10.  [set(k, v, 0)] stores an entry without expiry.  Whatever calls
    follow that neither write nor delete [k] (reads of any key at any time,
    sweeps at any time, writes and deletes of other keys), every later
    [get(k)] returns [v] and every later [has(k)] returns [true], at any
    time, without changing the map; the sweep keeps the entry; an explicit
    [delete(k)] ends it.  In particular a read at the very time of the write
    already returns [v]: 0 does not mean "expires immediately". *)
Theorem set_with_zero_ttl_never_expires :
  forall (m : gmap string StoreEntry) (k : string) (v : JSValue) (t0 : Z)
         (ops : list StoreManager.Op) (t : Z),
    Forall (fun op => StoreManager.writes k op = false) ops ->
    let m1 := StoreManager.set m k v (Some 0) t0 in
    let m2 := StoreManager.run m1 ops in
    StoreManager.get m1 k t0 = (v, m1)
    /\ StoreManager.get m2 k t = (v, m2)
    /\ StoreManager.has m2 k t = (true, m2)
    /\ StoreManager.cleanup m2 t !! k = m2 !! k
    /\ is_Some (m2 !! k)
    /\ StoreManager.delete m2 k = (true, delete k m2)
    /\ StoreManager.get (snd (StoreManager.delete m2 k)) k t
       = (JUndefined, delete k m2)
    /\ StoreManager.has (snd (StoreManager.delete m2 k)) k t
       = (false, delete k m2).
Proof.
  intros m k v t0 ops t Hops m1 m2.
  assert (Hk1 : m1 !! k = Some {| value := v; expiresAt := None |}).
  { unfold m1, StoreManager.set. simpl. apply lookup_insert_eq. }
  assert (Hk2 : m2 !! k = Some {| value := v; expiresAt := None |}).
  { unfold m2. by apply run_keeps_unexpiring. }
  split; [unfold StoreManager.get; by rewrite Hk1|].
  split; [unfold StoreManager.get; by rewrite Hk2|].
  split; [unfold StoreManager.has; by rewrite Hk2|].
  split; [by rewrite cleanup_lookup, Hk2|].
  split; [by rewrite Hk2|].
  split.
  { unfold StoreManager.delete. rewrite Hk2.
    by rewrite bool_decide_eq_true_2 by eauto. }
  unfold StoreManager.delete, StoreManager.get, StoreManager.has. simpl.
  by rewrite lookup_delete_eq.
Qed.

Lemma set_with_zero_ttl_never_expires_witness :
  let m1 := StoreManager.set ∅ "k" (JStr "v") (Some 0) 1000 in
  let m2 :=
    StoreManager.run m1
      [StoreManager.OpCleanup 999999; StoreManager.OpGet "k" 5000000;
       StoreManager.OpSet "other" JNull (Some 5) 2000;
       StoreManager.OpDelete "other"] in
  StoreManager.get m2 "k" 9000000 = (JStr "v", m2)
  /\ StoreManager.has m2 "k" 9000000 = (true, m2).
Proof.
  assert (Hops : Forall (fun op => StoreManager.writes "k" op = false)
            [StoreManager.OpCleanup 999999; StoreManager.OpGet "k" 5000000;
             StoreManager.OpSet "other" JNull (Some 5) 2000;
             StoreManager.OpDelete "other"]).
  { repeat constructor. }
  destruct (set_with_zero_ttl_never_expires ∅ "k" (JStr "v") 1000 _ 9000000 Hops)
    as (_ & Hg & Hh & _).
  split; [exact Hg|exact Hh].
Defined.

(** ** IPCHandler: answering a request *)

(** C4.  On a HandlerRequest or HandlerRequestAll, [handleIncoming] touches
    nothing but the transport, and what it sends is:
    - handler not registered: one HandlerError, same nonce, text
      "No handler registered for '<name>'", and no HandlerResponse;
    - handler registered and returning [v]: exactly one HandlerResponse,
      same nonce, carrying [v] (it is the only message when the transport
      accepts it; when the transport rejects it, the catch block adds a
      HandlerError with the transport's message);
    - handler registered and throwing: one HandlerError, same nonce,
      carrying the thrown error's message, and no HandlerResponse. *)
Theorem handleIncoming_request_replies_once :
  forall (send : SendFn) (st : IPCHandler.State) (broadcast : bool)
         (nonce handler : string) (payload : JSValue) (src : option Z),
    let st' :=
      IPCHandler.handleIncoming send
        (handler_request broadcast nonce handler payload) src st in
    exists new : list IPCMessage,
      IPCHandler.sent st' = IPCHandler.sent st ++ new
      /\ IPCHandler.promises st' = IPCHandler.promises st
      /\ IPCHandler.pendingAll st' = IPCHandler.pendingAll st
      /\ IPCHandler.settled st' = IPCHandler.settled st
      /\ match IPCHandler.handlers st !! handler with
         | None =>
             new = [HandlerError nonce
                      ("No handler registered for '" +:+ handler +:+ "'") src]
         | Some fn =>
             match fn payload with
             | Returns v =>
                 filter (fun m => is_HandlerResponse m = true) new
                 = [HandlerResponse nonce v src]
                 /\ match send (HandlerResponse nonce v src) with
                    | SendOk => new = [HandlerResponse nonce v src]
                    | SendFailed e =>
                        new = [HandlerResponse nonce v src;
                               HandlerError nonce e src]
                    end
             | Throws e => new = [HandlerError nonce e src]
             end
         end.
Proof.
  intros send st broadcast nonce handler payload src st'.
  assert (Hst : st' = IPCHandler.handleIncoming send
                        (HandlerRequest nonce handler payload) src st).
  { unfold st'. by destruct broadcast. }
  rewrite Hst. clear Hst st'. simpl.
  destruct (IPCHandler.handlers st !! handler) as [fn|]; simpl.
  - destruct (fn payload) as [v|e]; simpl.
    + destruct (send (HandlerResponse nonce v src)) as [|e]; simpl.
      * by exists [HandlerResponse nonce v src].
      * exists [HandlerResponse nonce v src; HandlerError nonce e src].
        rewrite <- app_assoc. done.
    + by exists [HandlerError nonce e src].
  - by eexists.
Qed.

Example handleIncoming_unknown_handler :
  IPCHandler.sent
    (IPCHandler.handleIncoming (fun _ => SendOk)
       (HandlerRequest "n1" "stats" JNull) (Some 2) (IPCHandler.init ∅))
  = [HandlerError "n1" "No handler registered for 'stats'" (Some 2)].
Proof. reflexivity. Qed.

(** ** ProcessGuard *)

Lemma map_set_fresh (name : string) (t : ProcessGuard.CleanupTask)
    (m : list (string * ProcessGuard.CleanupTask)) :
  name ∉ m.*1 -> ProcessGuard.map_set name t m = m ++ [(name, t)].
Proof.
  induction m as [|[n t'] m IH]; intros Hn; [done|].
  simpl in *. apply not_elem_of_cons in Hn as [Hne Hn].
  rewrite bool_decide_eq_false_2 by congruence.
  by rewrite IH.
Qed.

Lemma register_appends (regs : list (string * ProcessGuard.TaskBehaviour * option Z)) :
  forall st : ProcessGuard.State,
    NoDup (regs.*1.*1) ->
    (forall n, n ∈ regs.*1.*1 -> n ∉ (ProcessGuard.cleanupTasks st).*1) ->
    ProcessGuard.cleanupTasks (ProcessGuard.register regs st)
    = ProcessGuard.cleanupTasks st ++ map registered_entry regs
    /\ ProcessGuard.children (ProcessGuard.register regs st)
       = ProcessGuard.children st
    /\ ProcessGuard.forceExitTimeout (ProcessGuard.register regs st)
       = ProcessGuard.forceExitTimeout st
    /\ ProcessGuard.orphanCheckInterval (ProcessGuard.register regs st)
       = ProcessGuard.orphanCheckInterval st.
Proof.
  induction regs as [|[[n b] ms] regs IH]; intros st Hnd Hfresh.
  { simpl. by rewrite app_nil_r. }
  simpl in Hnd. apply NoDup_cons in Hnd as [Hn Hnd].
  unfold ProcessGuard.register in *. simpl.
  set (st1 := ProcessGuard.addCleanupTask n b ms st).
  assert (Hst1 : ProcessGuard.cleanupTasks st1
                 = ProcessGuard.cleanupTasks st ++ [registered_entry (n, b, ms)]).
  { unfold st1, ProcessGuard.addCleanupTask. simpl.
    apply map_set_fresh. apply Hfresh. simpl. left. }
  destruct (IH st1 Hnd) as (Ht & Hc & Hf & Ho).
  { intros n' Hn'. rewrite Hst1, fmap_app. simpl.
    intros [Hin|Hin]%elem_of_app.
    - eapply Hfresh; [|exact Hin]. simpl. by right.
    - apply list_elem_of_singleton in Hin. simpl in Hin. subst n'. done. }
  rewrite Ht, Hc, Hf, Ho, Hst1, <- app_assoc. done.
Qed.

Lemma attempts_app (a b : list ProcessGuard.Effect) :
  ProcessGuard.attempts (a ++ b) = ProcessGuard.attempts a ++ ProcessGuard.attempts b.
Proof. unfold ProcessGuard.attempts. apply omap_app. Qed.

Lemma failures_app (a b : list ProcessGuard.Effect) :
  ProcessGuard.failures (a ++ b) = ProcessGuard.failures a ++ ProcessGuard.failures b.
Proof. unfold ProcessGuard.failures. apply omap_app. Qed.

Lemma kills_app (a b : list ProcessGuard.Effect) :
  ProcessGuard.kills (a ++ b) = ProcessGuard.kills a ++ ProcessGuard.kills b.
Proof. unfold ProcessGuard.kills. apply omap_app. Qed.

Lemma loop_attempts (regs : list (string * ProcessGuard.TaskBehaviour * option Z)) :
  ProcessGuard.attempts (flat_map ProcessGuard.runTask (map registered_entry regs))
  = regs.*1.*1
  /\ ProcessGuard.failures (flat_map ProcessGuard.runTask (map registered_entry regs))
     = omap recorded_failure regs
  /\ ProcessGuard.kills (flat_map ProcessGuard.runTask (map registered_entry regs)) = []
  /\ filter (fun e => is_ShutdownComplete e = true)
       (flat_map ProcessGuard.runTask (map registered_entry regs)) = []
  /\ filter (fun e => is_Exit e = true)
       (flat_map ProcessGuard.runTask (map registered_entry regs)) = [].
Proof.
  induction regs as [|[[n b] ms] regs (IHa & IHf & IHk & IHc & IHe)]; [done|].
  cbn [map flat_map].
  rewrite attempts_app, failures_app, kills_app, !filter_app.
  rewrite IHa, IHf, IHk, IHc, IHe.
  unfold ProcessGuard.runTask, registered_entry, recorded_failure. simpl.
  by destruct b.
Qed.

Lemma killAll_effects (st : ProcessGuard.State) :
  ProcessGuard.attempts (ProcessGuard.killAllChildren st) = []
  /\ ProcessGuard.failures (ProcessGuard.killAllChildren st) = []
  /\ ProcessGuard.kills (ProcessGuard.killAllChildren st)
     = omap id (ProcessGuard.children st)
  /\ filter (fun e => is_ShutdownComplete e = true)
       (ProcessGuard.killAllChildren st) = []
  /\ filter (fun e => is_Exit e = true) (ProcessGuard.killAllChildren st) = [].
Proof.
  unfold ProcessGuard.killAllChildren.
  induction (ProcessGuard.children st) as [|[h|] cs (IHa & IHf & IHk & IHc & IHe)];
    [done| |done].
  unfold ProcessGuard.attempts, ProcessGuard.failures, ProcessGuard.kills in *.
  cbn [omap list_omap fmap option_fmap option_map id].
  rewrite filter_cons_False by (simpl; discriminate).
  rewrite filter_cons_False by (simpl; discriminate).
  rewrite IHa, IHf, IHk, IHc, IHe. done.
Qed.

Lemma release_effects (st : ProcessGuard.State) :
  ProcessGuard.attempts (ProcessGuard.release st) = []
  /\ ProcessGuard.kills (ProcessGuard.release st) = []
  /\ filter (fun e => is_Exit e = true) (ProcessGuard.release st) = [].
Proof.
  unfold ProcessGuard.release.
  by destruct (ProcessGuard.forceExitTimeout st),
              (ProcessGuard.orphanCheckInterval st).
Qed.

(** C8, as the claim states it, fails on the order of the last steps: the
    child handles are terminated before ['shutdown:complete'] is emitted,
    not after it.  With two tasks and one child process, everything that is
    terminated is terminated before the event, and nothing after it. *)
Lemma shutdown_kills_children_before_complete_event :
  let st :=
    ProcessGuard.register
      [("A"%string, ProcessGuard.ExceedsTimeout, Some 10);
       ("B"%string, ProcessGuard.Completes, None)]
      (ProcessGuard.emptyGuard [Some (ProcessGuard.ChildProcess 41)]) in
  let before :=
    [ProcessGuard.DebugStep "A"; ProcessGuard.RunTask "A";
     ProcessGuard.DebugFailure "A" "A timeout";
     ProcessGuard.DebugStep "B"; ProcessGuard.RunTask "B";
     ProcessGuard.DebugCompleted "B";
     ProcessGuard.Kill (ProcessGuard.ChildProcess 41)] in
  let after :=
    [ProcessGuard.InfoCompleted; ProcessGuard.ClearOrphanInterval;
     ProcessGuard.UnlinkPidFile; ProcessGuard.Exit 0] in
  ProcessGuard.executeShutdown None st
  = before ++ ProcessGuard.EmitShutdownComplete :: after
  /\ ProcessGuard.kills before = [ProcessGuard.ChildProcess 41]
  /\ ProcessGuard.kills after = [].
Proof. repeat split. Qed.

(** C8, amended.  With tasks registered under distinct names,
    [executeShutdown] invokes every registered task exactly once, in
    registration order, whatever each of them does: a task that throws, or
    that is beaten by its own timeout, has its failure recorded and the loop
    goes on.  Once every task was invoked each tracked child handle is
    terminated, once; then the ['shutdown:complete'] event is emitted; and
    when no listener of the event throws, nothing more is terminated and the
    run ends with [process.exit(0)], the only exit. *)
Theorem shutdown_attempts_every_task_in_order :
  forall (st0 : ProcessGuard.State)
         (regs : list (string * ProcessGuard.TaskBehaviour * option Z))
         (onComplete : option string),
    ProcessGuard.cleanupTasks st0 = [] ->
    NoDup (regs.*1.*1) ->
    let st := ProcessGuard.register regs st0 in
    let fx := ProcessGuard.executeShutdown onComplete st in
    ProcessGuard.attempts fx = regs.*1.*1
    /\ ProcessGuard.failures fx = omap recorded_failure regs
    /\ (exists loop killing after,
          fx = loop ++ killing ++ ProcessGuard.EmitShutdownComplete :: after
          /\ ProcessGuard.attempts loop = regs.*1.*1
          /\ ProcessGuard.kills loop = []
          /\ ProcessGuard.attempts killing = []
          /\ ProcessGuard.kills killing = omap id (ProcessGuard.children st0)
          /\ filter (fun e => is_ShutdownComplete e = true) (loop ++ killing) = []
          /\ filter (fun e => is_Exit e = true) (loop ++ killing) = []
          /\ ProcessGuard.attempts after = []
          /\ (onComplete = None ->
              ProcessGuard.kills after = []
              /\ filter (fun e => is_ShutdownComplete e = true) after = []
              /\ filter (fun e => is_Exit e = true) after = [ProcessGuard.Exit 0]
              /\ last after = Some (ProcessGuard.Exit 0))).
Proof.
  intros st0 regs onComplete Hempty Hnd st fx.
  destruct (register_appends regs st0 Hnd) as (Ht & Hc & Hf & Ho).
  { intros n _. rewrite Hempty. apply not_elem_of_nil. }
  rewrite Hempty in Ht. simpl in Ht. fold st in Ht, Hc, Hf, Ho.
  destruct (loop_attempts regs) as (La & Lf & Lk & Lc & Le).
  destruct (killAll_effects st) as (Ka & Kf & Kk & Kc & Ke).
  destruct (release_effects st) as (Ra & Rk & Re).
  rewrite Hc in Kk.
  set (after := match onComplete with
                | None => [ProcessGuard.InfoCompleted]
                          ++ ProcessGuard.release st
                          ++ [ProcessGuard.Exit 0]
                | Some m => [ProcessGuard.DebugShutdownError m]
                            ++ ProcessGuard.killAllChildren st
                            ++ ProcessGuard.release st
                            ++ [ProcessGuard.Exit 1]
                end).
  assert (Hfx : fx = flat_map ProcessGuard.runTask (map registered_entry regs)
                     ++ ProcessGuard.killAllChildren st
                     ++ ProcessGuard.EmitShutdownComplete :: after).
  { unfold fx, ProcessGuard.executeShutdown. by rewrite Ht. }
  assert (Hafter : ProcessGuard.attempts after = []).
  { unfold after. destruct onComplete; rewrite !attempts_app, ?Ka, Ra; done. }
  assert (Hfail : ProcessGuard.failures after = []).
  { unfold after. destruct onComplete; rewrite !failures_app, ?Kf;
      unfold ProcessGuard.release;
      destruct (ProcessGuard.forceExitTimeout st),
               (ProcessGuard.orphanCheckInterval st); done. }
  split.
  { rewrite Hfx, !attempts_app, La, Ka.
    change (ProcessGuard.attempts (ProcessGuard.EmitShutdownComplete :: after))
      with (ProcessGuard.attempts after).
    by rewrite Hafter, app_nil_r. }
  split.
  { rewrite Hfx, !failures_app, Lf, Kf.
    change (ProcessGuard.failures (ProcessGuard.EmitShutdownComplete :: after))
      with (ProcessGuard.failures after).
    by rewrite Hfail, app_nil_r. }
  eexists _, _, after. split; [exact Hfx|].
  rewrite !filter_app, Lc, Kc, Le, Ke.
  repeat (split; [done|]).
  intros ->. unfold after.
  rewrite kills_app, kills_app, Rk, !filter_app, Re.
  unfold ProcessGuard.release.
  destruct (ProcessGuard.forceExitTimeout st),
           (ProcessGuard.orphanCheckInterval st); done.
Qed.

Lemma shutdown_attempts_every_task_in_order_witness :
  let regs := [("A"%string, ProcessGuard.ExceedsTimeout, Some 10);
               ("B"%string, ProcessGuard.Completes, None)] in
  let fx :=
    ProcessGuard.executeShutdown None
      (ProcessGuard.register regs
         (ProcessGuard.emptyGuard [Some (ProcessGuard.ChildProcess 41); None])) in
  ProcessGuard.attempts fx = ["A"%string; "B"%string]
  /\ ProcessGuard.failures fx = [("A"%string, "A timeout"%string)].
Proof.
  assert (Hnd : NoDup ([("A"%string, ProcessGuard.ExceedsTimeout, Some 10);
                        ("B"%string, ProcessGuard.Completes, None)].*1.*1)).
  { apply NoDup_cons. split; [|apply NoDup_singleton].
    intros H%list_elem_of_singleton. discriminate H. }
  destruct (shutdown_attempts_every_task_in_order
              (ProcessGuard.emptyGuard [Some (ProcessGuard.ChildProcess 41); None])
              _ None eq_refl Hnd) as (Ha & Hf & _).
  split; [exact Ha|exact Hf].
Defined.

(** ** ClusterHandler: fleet readiness *)

Lemma ready_sends_app (a b : list ClusterHandler.Effect) :
  ready_sends (a ++ b) = ready_sends a ++ ready_sends b.
Proof. unfold ready_sends. apply omap_app. Qed.

Lemma fanouts_app (a b : list ClusterHandler.Effect) :
  fanouts (a ++ b) = (fanouts a + fanouts b)%nat.
Proof. unfold fanouts. by rewrite filter_app, length_app. Qed.

Lemma ready_sends_fanout (l : list (Z * nat)) :
  ready_sends (map (fun e => ClusterHandler.SendManagerReady (snd e)) l) = l.*2
  /\ fanouts (map (fun e => ClusterHandler.SendManagerReady (snd e)) l) = 0%nat.
Proof.
  induction l as [|e l [IH1 IH2]]; [done|].
  split; [simpl; f_equal; exact IH1|exact IH2].
Qed.

(** One ClientReady, in full: the new manager, and the effects. *)
Lemma handleClientReady_cases (self : nat)
    (pkg : option ClusterHandler.PackageType) (now : Z)
    (m : ClusterHandler.Manager) :
  let r := ClusterHandler.handleClientReady self pkg now m in
  (ClusterHandler.c_ready (ClusterHandler.objects m self) = true
   /\ fst r = m /\ ready_sends (snd r) = [] /\ fanouts (snd r) = 0%nat)
  \/ (ClusterHandler.c_ready (ClusterHandler.objects m self) = false
      /\ ClusterHandler.clusters (fst r) = ClusterHandler.clusters m
      /\ ClusterHandler.totalClusters (fst r) = ClusterHandler.totalClusters m
      /\ ClusterHandler.objects (fst r)
         = ClusterHandler.write self
             {| ClusterHandler.c_id :=
                  ClusterHandler.c_id (ClusterHandler.objects m self);
                ClusterHandler.c_ready := true;
                ClusterHandler.c_exited := false;
                ClusterHandler.lastHeartbeatReceived := now |}
             (ClusterHandler.objects m)
      /\ ((negb (ClusterHandler.m_ready m) && ClusterHandler.allReady (fst r)
           && ClusterHandler.sizeMatches (fst r) = true
           /\ ClusterHandler.m_ready (fst r) = true
           /\ ready_sends (snd r) = (ClusterHandler.clusters m).*2
           /\ fanouts (snd r) = 1%nat)
          \/ (negb (ClusterHandler.m_ready m) && ClusterHandler.allReady (fst r)
              && ClusterHandler.sizeMatches (fst r) = false
              /\ ClusterHandler.m_ready (fst r) = ClusterHandler.m_ready m
              /\ ready_sends (snd r) = []
              /\ fanouts (snd r) = 0%nat))).
Proof.
  intros r. unfold r, ClusterHandler.handleClientReady.
  destruct (ClusterHandler.c_ready (ClusterHandler.objects m self)) eqn:Hr.
  { left. done. }
  right. split; [done|].
  set (pf := match pkg, ClusterHandler.packageType m with
             | Some p, None =>
                 (Some p,
                  [ClusterHandler.DebugPackageType
                     (ClusterHandler.c_id (ClusterHandler.objects m self)) p])
             | _, _ => (ClusterHandler.packageType m, [])
             end).
  assert (Hpf : ready_sends (snd pf) = [] /\ fanouts (snd pf) = 0%nat).
  { unfold pf. destruct pkg, (ClusterHandler.packageType m); done. }
  destruct pf as [p fx1]. simpl in Hpf. destruct Hpf as [Hs1 Hf1].
  unfold ClusterHandler.allReady, ClusterHandler.sizeMatches. simpl.
  match goal with |- context [if ?c then _ else _] => destruct c eqn:Hc end; simpl.
  - repeat split; try done. left.
    rewrite !ready_sends_app, !fanouts_app, Hs1, Hf1.
    destruct (ready_sends_fanout (ClusterHandler.clusters m)) as [Hs Hf].
    change (ready_sends (ClusterHandler.EmitManagerReady
                         :: ClusterHandler.InfoAllReady :: ?l))
      with (ready_sends l).
    change (fanouts (ClusterHandler.EmitManagerReady
                     :: ClusterHandler.InfoAllReady :: ?l))
      with (S (fanouts l)).
    rewrite Hs, Hf. done.
  - repeat split; try done. right.
    rewrite !ready_sends_app, !fanouts_app, Hs1, Hf1. done.
Qed.

Lemma step_fanouts (s : ClusterHandler.Manager * list ClusterHandler.Effect)
    (ev : ClusterHandler.Event) :
  let s' := ClusterHandler.step s ev in
  (fanouts (snd s') = fanouts (snd s)
   /\ ready_sends (snd s') = ready_sends (snd s)
   /\ ClusterHandler.m_ready (fst s') = ClusterHandler.m_ready (fst s))
  \/ (fanouts (snd s') = S (fanouts (snd s))
      /\ ClusterHandler.m_ready (fst s) = false
      /\ ClusterHandler.m_ready (fst s') = true).
Proof.
  destruct s as [m fx]. destruct ev as [self p now|k ref|k|ref c]; simpl;
    try (left; done).
  pose proof (handleClientReady_cases self p now m) as H. simpl in H.
  destruct (ClusterHandler.handleClientReady self p now m) as [m' fx'].
  simpl in *. rewrite fanouts_app, ready_sends_app.
  destruct H as [(_ & -> & Hs & Hf)|(_ & _ & _ & _ & [(Hc & Hr & _ & Hf)|(_ & Hr & Hs & Hf)])].
  - left. rewrite Hs, Hf, app_nil_r. split; [lia|done].
  - right. rewrite Hf. split; [lia|]. split; [|done].
    destruct (ClusterHandler.m_ready m); [discriminate Hc|done].
  - left. rewrite Hs, Hf, app_nil_r. split; [lia|done].
Qed.

Lemma run_fanouts (evs : list ClusterHandler.Event) :
  forall s : ClusterHandler.Manager * list ClusterHandler.Effect,
    let s' := fold_left ClusterHandler.step evs s in
    (fanouts (snd s') <= S (fanouts (snd s)))%nat
    /\ (ClusterHandler.m_ready (fst s) = true ->
        fanouts (snd s') = fanouts (snd s)
        /\ ready_sends (snd s') = ready_sends (snd s)
        /\ ClusterHandler.m_ready (fst s') = true).
Proof.
  induction evs as [|ev evs IH]; intros s; simpl.
  { split; [lia|done]. }
  destruct (IH (ClusterHandler.step s ev)) as [Hle Hready].
  destruct (step_fanouts s ev) as [(Hf & Hs & Hr)|(Hf & Hr & Hr')].
  - rewrite Hf, Hs, Hr in *. done.
  - split.
    + destruct (Hready Hr') as (-> & _). lia.
    + rewrite Hr. discriminate.
Qed.

(** C5.  Processing one ClientReady for the handler's cluster:
    - the manager's ready flag goes from false to true exactly when the
      flag was false, the signal is not a duplicate, and with the cluster
      now marked ready every cluster of the registry is ready and the
      registry has [totalClusters] entries;
    - at that transition the fleet-ready notification is fired once and
      ManagerReady is sent once to each entry of the registry, in registry
      order; when the flag does not change nothing is fanned out;
    - a ClientReady for a cluster that is already ready returns the manager
      unchanged and sends nothing;
    and over any history of ready signals and registry changes starting from
    any manager, the fleet-ready notification is fired at most once, and not
    at all once the flag is true. *)
Theorem manager_ready_fans_out_once :
  forall (m : ClusterHandler.Manager) (self : nat)
         (pkg : option ClusterHandler.PackageType) (now : Z),
    let r := ClusterHandler.handleClientReady self pkg now m in
    ((ClusterHandler.m_ready m = false /\ ClusterHandler.m_ready (fst r) = true)
     <-> (ClusterHandler.m_ready m = false
          /\ ClusterHandler.c_ready (ClusterHandler.objects m self) = false
          /\ ClusterHandler.allReady (fst r) = true
          /\ ClusterHandler.sizeMatches (fst r) = true))
    /\ (ClusterHandler.m_ready m = false /\ ClusterHandler.m_ready (fst r) = true ->
        ready_sends (snd r) = (ClusterHandler.clusters (fst r)).*2
        /\ fanouts (snd r) = 1%nat)
    /\ (ClusterHandler.m_ready (fst r) = ClusterHandler.m_ready m ->
        ready_sends (snd r) = [] /\ fanouts (snd r) = 0%nat)
    /\ (ClusterHandler.c_ready (ClusterHandler.objects m self) = true ->
        r = (m, [ClusterHandler.DebugDuplicateReady
                   (ClusterHandler.c_id (ClusterHandler.objects m self))]))
    /\ (forall evs : list ClusterHandler.Event,
          (fanouts (snd (ClusterHandler.run m evs)) <= 1)%nat
          /\ (ClusterHandler.m_ready m = true ->
              fanouts (snd (ClusterHandler.run m evs)) = 0%nat
              /\ ready_sends (snd (ClusterHandler.run m evs)) = []
              /\ ClusterHandler.m_ready (fst (ClusterHandler.run m evs)) = true)).
Proof.
  intros m self pkg now r.
  pose proof (handleClientReady_cases self pkg now m) as H. fold r in H.
  split; [|split; [|split; [|split]]].
  - destruct H as [(Hd & Hm & _)|(Hd & _ & _ & _ & [(Hc & Hr & _)|(Hc & Hr & _)])].
    + rewrite Hm, Hd. split; intros (? & ?); [congruence|].
      destruct H0 as (? & _); discriminate.
    + apply andb_prop in Hc as [Hc Hsz]. apply andb_prop in Hc as [Hnr Hall].
      apply negb_true_iff in Hnr. done.
    + rewrite Hr. split; [intros [? ?]; congruence|].
      intros (Hnr & _ & Hall & Hsz). rewrite Hnr, Hall, Hsz in Hc. discriminate.
  - intros [Hf Ht].
    destruct H as [(_ & Hm & _)|(_ & Hcl & _ & _ & [(_ & _ & Hs & Hn)|(_ & Hr & _)])].
    + rewrite Hm in Ht. congruence.
    + by rewrite Hcl.
    + congruence.
  - intros Hsame.
    destruct H as [(_ & _ & Hs & Hn)|(_ & _ & _ & _ & [(Hc & Hr & _)|(_ & _ & Hs & Hn)])];
      [done| |done].
    apply andb_prop in Hc as [Hc _]. apply andb_prop in Hc as [Hnr _].
    apply negb_true_iff in Hnr. congruence.
  - intros Hd. unfold r, ClusterHandler.handleClientReady. by rewrite Hd.
  - intros evs. unfold ClusterHandler.run.
    destruct (run_fanouts evs (m, [])) as [Hle Hready]. simpl in *.
    split; [exact Hle|]. exact Hready.
Qed.

Lemma manager_ready_fans_out_once_witness :
  let obj := fun (_ : nat) =>
    {| ClusterHandler.c_id := 0; ClusterHandler.c_ready := false;
       ClusterHandler.c_exited := false;
       ClusterHandler.lastHeartbeatReceived := 0 |} in
  let m :=
    {| ClusterHandler.m_ready := false; ClusterHandler.packageType := None;
       ClusterHandler.totalClusters := 2;
       ClusterHandler.clusters := [(0, 0%nat); (1, 1%nat)];
       ClusterHandler.objects := obj |} in
  let history :=
    [ClusterHandler.ClientReady 0 None 10; ClusterHandler.ClientReady 1 None 20;
     ClusterHandler.ClientReady 1 None 30; ClusterHandler.ClientReady 0 None 40] in
  ready_sends (snd (ClusterHandler.run m history)) = [0%nat; 1%nat]
  /\ (fanouts (snd (ClusterHandler.run m history)) <= 1)%nat.
Proof.
  intros obj m history.
  destruct (manager_ready_fans_out_once m 0 None 10) as (_ & _ & _ & _ & Hrun).
  split; [reflexivity|]. apply (Hrun history).
Defined.

(** ** StoreClient: one settlement per nonce *)

Lemma bool_nat_is_Some {A : Type} (o : option A) :
  bool_nat (bool_decide (is_Some o)) = match o with Some _ => 1%nat | None => 0%nat end.
Proof.
  unfold bool_nat. destruct o; case_bool_decide as H; try done.
  exfalso. apply H. eauto.
Qed.

Lemma filter_snoc_key {A : Type} (n k : string) (x : A) (l : list (string * A)) :
  map snd (filter (fun e => fst e = n) (l ++ [(k, x)]))
  = map snd (filter (fun e => fst e = n) l) ++ (if decide (k = n) then [x] else []).
Proof.
  rewrite filter_app, map_app. f_equal.
  destruct (decide (k = n)) as [->|Hne].
  - by rewrite filter_cons_True.
  - by rewrite filter_cons_False.
Qed.

Lemma store_step_other (send : SendFn) (n : string) (st : StoreClient.State)
    (ev : StoreClient.Event) :
  store_inv n st -> StoreClient.registers n ev = false ->
  store_inv n (StoreClient.step send st ev)
  /\ store_weight n (StoreClient.step send st ev) = store_weight n st.
Proof.
  intros [Hkeys Htimer] Hreg.
  destruct ev as [m|m|tid]; simpl in *.
  - (* a call under another nonce *)
    apply bool_decide_eq_false in Hreg.
    unfold StoreClient.call. destruct (send m); simpl.
    + split; [split|]; simpl.
      * intros k p. rewrite lookup_insert. case_decide; [|apply Hkeys].
        intros [= <-]. done.
      * intros tid. rewrite lookup_insert. case_decide; [congruence|].
        intros Ht. rewrite lookup_insert_ne by done. by apply Htimer.
      * unfold store_weight, StoreClient.outcomes. simpl.
        by rewrite lookup_insert_ne.
    + split; [split|]; done.
  - (* a response *)
    unfold StoreClient.handleResponse.
    destruct (StoreClient.promises st !! nonce_of m) as [p|] eqn:Hp; [|done].
    pose proof (Hkeys _ _ Hp) as Hs.
    split; [split|]; simpl.
    + intros k q Hk. apply lookup_delete_Some in Hk as [_ Hk]. by apply Hkeys.
    + intros tid Ht.
      assert (Ht0 : StoreClient.timers st !! tid = Some n).
      { destruct (sp_timeout p); simpl in Ht; [|done].
        by apply lookup_delete_Some in Ht as [_ Ht]. }
      destruct (Htimer tid Ht0) as (q & Hq & Hqt).
      destruct (decide (nonce_of m = n)) as [Heq|Hne].
      * rewrite Heq in Hp. rewrite Hp in Hq. injection Hq as <-.
        rewrite Hqt in Ht. simpl in Ht. by rewrite lookup_delete_eq in Ht.
      * exists q. by rewrite lookup_delete_ne.
    + unfold store_weight, StoreClient.outcomes. simpl.
      rewrite filter_snoc_key, length_app, Hs, !bool_nat_is_Some.
      destruct (decide (nonce_of m = n)) as [Heq|Hne].
      * rewrite <- Heq, Hp, lookup_delete_eq. simpl. lia.
      * rewrite lookup_delete_ne by done. simpl. lia.
  - (* a timer *)
    unfold StoreClient.fireTimer.
    destruct (StoreClient.timers st !! tid) as [k|] eqn:Ht; [|done].
    split; [split|]; simpl.
    + intros j q Hj. apply lookup_delete_Some in Hj as [_ Hj]. by apply Hkeys.
    + intros tid' Ht'. apply lookup_delete_Some in Ht' as [Hne Ht'].
      destruct (Htimer tid' Ht') as (q & Hq & Hqt).
      destruct (decide (k = n)) as [->|Hkn].
      * destruct (Htimer tid Ht) as (q' & Hq' & Hqt'). congruence.
      * exists q. by rewrite lookup_delete_ne.
    + unfold store_weight, StoreClient.outcomes. simpl.
      rewrite filter_snoc_key, length_app, !bool_nat_is_Some.
      destruct (decide (k = n)) as [->|Hkn].
      * destruct (Htimer tid Ht) as (q & Hq & _).
        rewrite Hq, lookup_delete_eq. simpl. lia.
      * rewrite lookup_delete_ne by done. simpl. lia.
Qed.

Lemma store_step_register (send : SendFn) (n : string) (st : StoreClient.State)
    (ev : StoreClient.Event) :
  store_inv n st -> store_weight n st = 0%nat ->
  StoreClient.registers n ev = true ->
  store_inv n (StoreClient.step send st ev)
  /\ (store_weight n (StoreClient.step send st ev) <= 1)%nat.
Proof.
  intros [Hkeys Htimer] Hw Hreg.
  destruct ev as [m|m|tid]; simpl in *; try discriminate.
  apply bool_decide_eq_true in Hreg.
  unfold store_weight in Hw. rewrite bool_nat_is_Some in Hw.
  destruct (StoreClient.promises st !! n) as [p|] eqn:Hp; [lia|].
  assert (Hout : StoreClient.outcomes n st = [])
    by (apply length_zero_iff_nil; lia).
  unfold StoreClient.call. destruct (send m); simpl.
  - split; [split|]; simpl.
    + intros k q. rewrite lookup_insert. case_decide; [|apply Hkeys].
      intros [= <-]. done.
    + intros tid. rewrite lookup_insert. case_decide as Hd.
      * intros _. rewrite Hreg, lookup_insert_eq. subst tid. eauto.
      * intros Ht. destruct (Htimer tid Ht) as (q & Hq & _). congruence.
    + unfold store_weight, StoreClient.outcomes in *. simpl.
      rewrite Hout, bool_nat_is_Some, Hreg, lookup_insert_eq. simpl. lia.
  - split; [split|]; simpl; [exact Hkeys| |].
    + intros tid Ht. destruct (Htimer tid Ht) as (q & Hq & _). congruence.
    + unfold store_weight, StoreClient.outcomes in *. simpl.
      rewrite Hout, bool_nat_is_Some, Hp. simpl. lia.
Qed.

Lemma store_run_weight (send : SendFn) (n : string)
    (evs : list StoreClient.Event) :
  forall st : StoreClient.State,
    store_inv n st ->
    (store_weight n st + store_registrations n evs <= 1)%nat ->
    store_inv n (StoreClient.run send st evs)
    /\ (store_weight n (StoreClient.run send st evs) <= 1)%nat.
Proof.
  induction evs as [|ev evs IH]; intros st Hinv Hw; simpl.
  { unfold store_registrations in Hw. simpl in Hw. split; [done|lia]. }
  unfold store_registrations in Hw.
  destruct (StoreClient.registers n ev) eqn:Hreg.
  - rewrite filter_cons_True in Hw by done. simpl in Hw.
    destruct (store_step_register send n st ev Hinv ltac:(lia) Hreg) as [Hinv' Hw'].
    apply IH; [done|]. unfold store_registrations. lia.
  - rewrite filter_cons_False in Hw by (rewrite Hreg; discriminate).
    destruct (store_step_other send n st ev Hinv Hreg) as [Hinv' Hw'].
    apply IH; [done|]. unfold store_registrations. lia.
Qed.

Lemma store_init_inv (n : string) :
  store_inv n StoreClient.init /\ store_weight n StoreClient.init = 0%nat.
Proof. split; [split|]; done. Qed.

(** A response whose nonce has no pending entry changes nothing. *)
Lemma store_late_response (m : IPCMessage) (st : StoreClient.State) :
  StoreClient.promises st !! nonce_of m = None ->
  StoreClient.handleResponse m st = st.
Proof. intros H. unfold StoreClient.handleResponse. by rewrite H. Qed.

(** ** IPCHandler: one settlement per nonce *)

Lemma outcomes_settle (n k : string) (s : IPCHandler.Settlement)
    (st : IPCHandler.State) :
  IPCHandler.outcomes n (IPCHandler.settle k s st)
  = IPCHandler.outcomes n st ++ (if decide (k = n) then [s] else []).
Proof. unfold IPCHandler.outcomes. simpl. apply filter_snoc_key. Qed.

Lemma lookup_clearTimeout {C : Type} (h : option nat) (ts : gmap nat C)
    (tid : nat) (cb : C) :
  clearTimeout h ts !! tid = Some cb <-> ts !! tid = Some cb /\ h <> Some tid.
Proof.
  destruct h as [t|]; simpl.
  - rewrite lookup_delete_Some. split; intros [? ?]; split; congruence.
  - split; [intros ?; split; done|by intros [? _]].
Qed.

Lemma ipc_settlePromise (n k : string) (s : IPCHandler.Settlement)
    (st : IPCHandler.State) :
  ipc_inv n st ->
  ipc_inv n (IPCHandler.settlePromise k s st)
  /\ ipc_weight n (IPCHandler.settlePromise k s st) = ipc_weight n st.
Proof.
  intros [Hkp Hka Ht]. unfold IPCHandler.settlePromise.
  destruct (IPCHandler.promises st !! k) as [p|] eqn:Hp; [|done].
  pose proof (Hkp _ _ Hp) as Hs.
  split; [split|]; simpl.
  - intros j q Hj. apply lookup_delete_Some in Hj as [_ Hj]. by apply Hkp.
  - exact Hka.
  - intros tid Htid. apply lookup_clearTimeout in Htid as [Htid Hne].
    destruct (Ht tid Htid) as (q & Hq & Hqt).
    destruct (decide (k = n)) as [->|Hkn].
    + congruence.
    + exists q. by rewrite lookup_delete_ne.
  - unfold ipc_weight. rewrite outcomes_settle, length_app, Hs. simpl.
    rewrite !bool_nat_is_Some.
    destruct (decide (k = n)) as [->|Hkn].
    + rewrite Hp, lookup_delete_eq. unfold IPCHandler.outcomes; simpl; lia.
    + rewrite lookup_delete_ne by done. unfold IPCHandler.outcomes; simpl; lia.
Qed.

Lemma ipc_collectReply (n k : string) (pending : IPCHandler.PendingAll)
    (src : Z) (v : JSValue) (st : IPCHandler.State) :
  ipc_inv n st -> IPCHandler.pendingAll st !! k = Some pending ->
  ipc_inv n (IPCHandler.collectReply k pending src v st)
  /\ ipc_weight n (IPCHandler.collectReply k pending src v st) = ipc_weight n st.
Proof.
  intros [Hkp Hka Ht] Hpa. unfold IPCHandler.collectReply.
  pose proof (Hka _ _ Hpa) as Hs.
  destruct (IPCHandler.expected pending <=? _).
  - split; [split|]; simpl.
    + exact Hkp.
    + intros j q Hj. apply lookup_delete_Some in Hj as [_ Hj]. by apply Hka.
    + intros tid Htid. apply lookup_clearTimeout in Htid as [Htid _].
      by apply Ht.
    + unfold ipc_weight. rewrite outcomes_settle, length_app, Hs. simpl.
      rewrite !bool_nat_is_Some.
      destruct (decide (k = n)) as [->|Hkn].
      * rewrite Hpa, lookup_delete_eq. unfold IPCHandler.outcomes; simpl; lia.
      * rewrite lookup_delete_ne by done. unfold IPCHandler.outcomes; simpl; lia.
  - split; [split|]; simpl.
    + exact Hkp.
    + intros j q. rewrite lookup_insert. case_decide; [|apply Hka].
      intros [= <-]. simpl. congruence.
    + exact Ht.
    + unfold ipc_weight, IPCHandler.outcomes. simpl.
      rewrite !bool_nat_is_Some.
      destruct (decide (k = n)) as [->|Hkn].
      * rewrite Hpa, lookup_insert_eq. done.
      * rewrite lookup_insert_ne by done. done.
Qed.

Lemma ipc_record_send (n : string) (m : IPCMessage) (st : IPCHandler.State) :
  ipc_inv n st ->
  ipc_inv n (IPCHandler.record_send m st)
  /\ ipc_weight n (IPCHandler.record_send m st) = ipc_weight n st.
Proof. intros [Hkp Hka Ht]. split; [split|]; done. Qed.

Lemma ipc_handleIncoming (send : SendFn) (n : string) (m : IPCMessage)
    (src : option Z) (st : IPCHandler.State) :
  ipc_inv n st ->
  ipc_inv n (IPCHandler.handleIncoming send m src st)
  /\ ipc_weight n (IPCHandler.handleIncoming send m src st) = ipc_weight n st.
Proof.
  intros Hinv.
  destruct m; simpl; try done.
  - destruct (IPCHandler.handlers st !! handler) as [fn|];
      [|by apply ipc_record_send].
    destruct (fn payload); [|by apply ipc_record_send].
    destruct (send _); [by apply ipc_record_send|].
    destruct (ipc_record_send n (HandlerResponse nonce v src) st Hinv) as [H1 H2].
    destruct (ipc_record_send n (HandlerError nonce message src) _ H1) as [H3 H4].
    split; [done|congruence].
  - destruct (IPCHandler.handlers st !! handler) as [fn|];
      [|by apply ipc_record_send].
    destruct (fn payload); [|by apply ipc_record_send].
    destruct (send _); [by apply ipc_record_send|].
    destruct (ipc_record_send n (HandlerResponse nonce v src) st Hinv) as [H1 H2].
    destruct (ipc_record_send n (HandlerError nonce message src) _ H1) as [H3 H4].
    split; [done|congruence].
  - destruct (IPCHandler.pendingAll st !! nonce) as [pending|] eqn:Hpa;
      [destruct sourceCluster as [s|]|].
    + by apply ipc_collectReply.
    + by apply ipc_settlePromise.
    + by apply ipc_settlePromise.
  - destruct (IPCHandler.pendingAll st !! nonce) as [pending|] eqn:Hpa;
      [destruct sourceCluster as [s|]|].
    + by apply ipc_collectReply.
    + by apply ipc_settlePromise.
    + by apply ipc_settlePromise.
Qed.

Lemma ipc_fireTimer (n : string) (tid : nat) (st : IPCHandler.State) :
  ipc_inv n st ->
  ipc_inv n (IPCHandler.fireTimer tid st)
  /\ ipc_weight n (IPCHandler.fireTimer tid st) = ipc_weight n st.
Proof.
  intros [Hkp Hka Ht]. unfold IPCHandler.fireTimer.
  destruct (IPCHandler.timers st !! tid) as [[k|k]|] eqn:Htid; [| |done]; simpl.
  - split; [split|]; simpl.
    + intros j q Hj. apply lookup_delete_Some in Hj as [_ Hj]. by apply Hkp.
    + exact Hka.
    + intros tid' Ht'. apply lookup_delete_Some in Ht' as [Hne Ht'].
      destruct (Ht tid' Ht') as (q & Hq & Hqt).
      destruct (decide (k = n)) as [->|Hkn].
      * destruct (Ht tid Htid) as (q' & Hq' & Hqt'). congruence.
      * exists q. by rewrite lookup_delete_ne.
    + unfold ipc_weight. rewrite outcomes_settle, length_app. simpl.
      rewrite !bool_nat_is_Some.
      destruct (decide (k = n)) as [->|Hkn].
      * destruct (Ht tid Htid) as (q & Hq & _).
        rewrite Hq, lookup_delete_eq. unfold IPCHandler.outcomes; simpl; lia.
      * rewrite lookup_delete_ne by done. unfold IPCHandler.outcomes; simpl; lia.
  - destruct (IPCHandler.pendingAll st !! k) as [pending|] eqn:Hpa.
    + split; [split|]; simpl.
      * exact Hkp.
      * intros j q Hj. apply lookup_delete_Some in Hj as [_ Hj]. by apply Hka.
      * intros tid' Ht'. apply lookup_delete_Some in Ht' as [_ Ht']. by apply Ht.
      * unfold ipc_weight. rewrite outcomes_settle, length_app. simpl.
        rewrite !bool_nat_is_Some.
        destruct (decide (k = n)) as [->|Hkn].
        -- rewrite Hpa, lookup_delete_eq. unfold IPCHandler.outcomes; simpl; lia.
        -- rewrite lookup_delete_ne by done. unfold IPCHandler.outcomes; simpl; lia.
    + split; [split|]; simpl; [exact Hkp|exact Hka| |done].
      intros tid' Ht'. apply lookup_delete_Some in Ht' as [_ Ht']. by apply Ht.
Qed.

Lemma ipc_createPromise (n k : string) (timeout : option Z)
    (st : IPCHandler.State) :
  ipc_inv n st -> k <> n \/ ipc_weight n st = 0%nat ->
  ipc_inv n (IPCHandler.createPromise k timeout st)
  /\ ipc_weight n (IPCHandler.createPromise k timeout st)
     = (ipc_weight n st + bool_nat (bool_decide (k = n)))%nat.
Proof.
  intros [Hkp Hka Ht] Hfresh.
  assert (Hnone : k = n -> IPCHandler.promises st !! n = None).
  { intros ->. destruct Hfresh as [?|Hw]; [done|].
    unfold ipc_weight in Hw. rewrite !bool_nat_is_Some in Hw.
    destruct (IPCHandler.promises st !! n); [lia|done]. }
  unfold IPCHandler.createPromise.
  set (armed := match timeout with
                | Some ms => if 0 <? ms then true else false
                | None => false
                end).
  assert (Hcase :
    (let '(timer, st1) :=
       match timeout with
       | Some ms =>
           if 0 <? ms
           then let '(tid, st1) :=
                  IPCHandler.setTimeout (IPCHandler.RejectTimedOut k) st in
                (Some tid, st1)
           else (None, st)
       | None => (None, st)
       end in
     IPCHandler.with_promises
       (insert k {| sp_settles := k; sp_timeout := timer |}) st1)
    = if armed
      then IPCHandler.with_promises
             (insert k {| sp_settles := k;
                          sp_timeout := Some (IPCHandler.next_timer st) |})
             (snd (IPCHandler.setTimeout (IPCHandler.RejectTimedOut k) st))
      else IPCHandler.with_promises
             (insert k {| sp_settles := k; sp_timeout := None |}) st).
  { unfold armed. destruct timeout as [ms|]; [|done]. by destruct (0 <? ms). }
  rewrite Hcase. clear Hcase.
  destruct armed; (split; [split|]); simpl.
  - intros j q. rewrite lookup_insert. case_decide; [|apply Hkp].
    intros [= <-]. done.
  - exact Hka.
  - intros tid. rewrite lookup_insert. case_decide as Hd.
    + intros [= ->]. subst tid. rewrite lookup_insert_eq. eauto.
    + intros Htid. destruct (Ht tid Htid) as (q & Hq & Hqt).
      destruct (decide (k = n)) as [Hkn|Hkn].
      * rewrite (Hnone Hkn) in Hq. done.
      * exists q. by rewrite lookup_insert_ne.
  - unfold ipc_weight, IPCHandler.outcomes. simpl. rewrite !bool_nat_is_Some.
    case_bool_decide as Hkn.
    + subst k. rewrite (Hnone eq_refl), lookup_insert_eq. simpl. lia.
    + rewrite lookup_insert_ne by done. simpl. lia.
  - intros j q. rewrite lookup_insert. case_decide; [|apply Hkp].
    intros [= <-]. done.
  - exact Hka.
  - intros tid Htid. destruct (Ht tid Htid) as (q & Hq & Hqt).
    destruct (decide (k = n)) as [Hkn|Hkn].
    + rewrite (Hnone Hkn) in Hq. done.
    + exists q. by rewrite lookup_insert_ne.
  - unfold ipc_weight, IPCHandler.outcomes. simpl. rewrite !bool_nat_is_Some.
    case_bool_decide as Hkn.
    + subst k. rewrite (Hnone eq_refl), lookup_insert_eq. simpl. lia.
    + rewrite lookup_insert_ne by done. simpl. lia.
Qed.

Lemma ipc_request (send : SendFn) (n k handler : string) (payload : JSValue)
    (timeout : option Z) (st : IPCHandler.State) :
  ipc_inv n st -> k <> n \/ ipc_weight n st = 0%nat ->
  ipc_inv n (snd (IPCHandler.request send k handler payload timeout st))
  /\ (ipc_weight n (snd (IPCHandler.request send k handler payload timeout st))
      <= ipc_weight n st + bool_nat (bool_decide (k = n)))%nat
  /\ (k <> n ->
      ipc_weight n (snd (IPCHandler.request send k handler payload timeout st))
      = ipc_weight n st).
Proof.
  intros Hinv Hfresh. unfold IPCHandler.request.
  destruct (ipc_record_send n (HandlerRequest k handler payload) st Hinv)
    as [H1 H2].
  destruct (send _); simpl.
  - destruct (ipc_createPromise n k timeout _ H1) as [H3 H4].
    { rewrite H2. done. }
    rewrite H4, H2. split; [done|]. split; [lia|].
    intros Hne. rewrite bool_decide_eq_false_2 by done. simpl. lia.
  - split; [done|]. rewrite H2. split; [lia|done].
Qed.

Lemma ipc_requestTo (send : SendFn) (n k handler : string) (c : Z)
    (payload : JSValue) (timeout : option Z) (st : IPCHandler.State) :
  ipc_inv n st -> k <> n \/ ipc_weight n st = 0%nat ->
  ipc_inv n (snd (IPCHandler.requestTo send c k handler payload timeout st))
  /\ (ipc_weight n (snd (IPCHandler.requestTo send c k handler payload timeout st))
      <= ipc_weight n st + bool_nat (bool_decide (k = n)))%nat
  /\ (k <> n ->
      ipc_weight n (snd (IPCHandler.requestTo send c k handler payload timeout st))
      = ipc_weight n st).
Proof.
  intros Hinv Hfresh. unfold IPCHandler.requestTo.
  destruct (ipc_record_send n (HandlerRequestTo c k handler payload) st Hinv)
    as [H1 H2].
  destruct (send _); simpl.
  - destruct (ipc_createPromise n k timeout _ H1) as [H3 H4].
    { rewrite H2. done. }
    rewrite H4, H2. split; [done|]. split; [lia|].
    intros Hne. rewrite bool_decide_eq_false_2 by done. simpl. lia.
  - split; [done|]. rewrite H2. split; [lia|done].
Qed.

Lemma ipc_requestAll (send : SendFn) (n k handler : string) (payload : JSValue)
    (timeout total : option Z) (st : IPCHandler.State) :
  ipc_inv n st -> k <> n \/ ipc_weight n st = 0%nat ->
  ipc_inv n (snd (IPCHandler.requestAll send k handler payload timeout total st))
  /\ (ipc_weight n (snd (IPCHandler.requestAll send k handler payload timeout total st))
      <= ipc_weight n st + bool_nat (bool_decide (k = n)))%nat
  /\ (k <> n ->
      ipc_weight n (snd (IPCHandler.requestAll send k handler payload timeout total st))
      = ipc_weight n st).
Proof.
  intros Hinv Hfresh. unfold IPCHandler.requestAll.
  destruct (default 0 total =? 0); [simpl; split; [done|split; [lia|done]]|].
  destruct (default 0 total - 1 <=? 0); [simpl; split; [done|split; [lia|done]]|].
  destruct (ipc_record_send n (HandlerRequestAll k handler payload) st Hinv)
    as [H1 H2].
  destruct (send _); simpl; [|split; [done|rewrite H2; split; [lia|done]]].
  assert (Hnone : k = n ->
            IPCHandler.pendingAll st !! n = None).
  { intros ->. destruct Hfresh as [?|Hw]; [done|].
    unfold ipc_weight in Hw. rewrite !bool_nat_is_Some in Hw.
    destruct (IPCHandler.pendingAll st !! n); [lia|done]. }
  destruct H1 as [Hkp Hka Ht].
  destruct (0 <? default 30000 timeout); simpl.
  - split; [split|]; simpl.
    + exact Hkp.
    + intros j q. rewrite lookup_insert. case_decide; [|apply Hka].
      intros [= <-]. done.
    + intros tid. rewrite lookup_insert. case_decide; [done|]. apply Ht.
    + unfold ipc_weight, IPCHandler.outcomes in *. simpl in *.
      rewrite !bool_nat_is_Some in *.
      case_bool_decide as Hkn.
      * subst k. rewrite (Hnone eq_refl), lookup_insert_eq. simpl.
        split; [lia|done].
      * rewrite lookup_insert_ne by done. simpl. split; [lia|done].
  - split; [split|]; simpl.
    + exact Hkp.
    + intros j q. rewrite lookup_insert. case_decide; [|apply Hka].
      intros [= <-]. done.
    + exact Ht.
    + unfold ipc_weight, IPCHandler.outcomes in *. simpl in *.
      rewrite !bool_nat_is_Some in *.
      case_bool_decide as Hkn.
      * subst k. rewrite (Hnone eq_refl), lookup_insert_eq. simpl.
        split; [lia|done].
      * rewrite lookup_insert_ne by done. simpl. split; [lia|done].
Qed.

Lemma count_rejected_keys {A : Type} (f : A -> string) (n : string)
    (x : IPCHandler.Settlement) (L : list (string * A)) :
  NoDup L.*1 -> (forall k p, (k, p) ∈ L -> f p = k) ->
  length (filter (fun e => fst e = n) (map (fun e => (f (snd e), x)) L))
  = bool_nat (bool_decide (n ∈ L.*1)).
Proof.
  induction L as [|[k p] L IH]; intros Hnd Hkeys.
  { rewrite bool_decide_eq_false_2; [done|]. apply not_elem_of_nil. }
  simpl in Hnd. apply NoDup_cons in Hnd as [Hk Hnd].
  assert (Hf : f p = k) by (apply Hkeys; left).
  specialize (IH Hnd (fun j q Hj => Hkeys j q (list_elem_of_further _ _ _ Hj))).
  cbn [map fmap list_fmap fst snd]. rewrite Hf.
  destruct (decide (k = n)) as [->|Hne].
  - rewrite filter_cons_True by done. simpl. rewrite IH.
    rewrite (bool_decide_eq_false_2 (n ∈ L.*1)) by done.
    rewrite bool_decide_eq_true_2 by left. done.
  - rewrite filter_cons_False by done. rewrite IH.
    apply f_equal, bool_decide_ext. rewrite elem_of_cons.
    split; [by right|]. intros [?|?]; [congruence|done].
Qed.

Lemma keys_of_map_to_list {A : Type} (m : gmap string A) (n : string) :
  n ∈ (map_to_list m).*1 <-> is_Some (m !! n).
Proof.
  rewrite list_elem_of_fmap. split.
  - intros ([k p] & -> & Hin). apply elem_of_map_to_list in Hin. eauto.
  - intros [p Hp]. exists (n, p). split; [done|]. by apply elem_of_map_to_list.
Qed.

Lemma lookup_foldr_clear {A C : Type} (f : A -> option nat) (L : list A)
    (ts : gmap nat C) (tid : nat) (cb : C) :
  foldr (fun e => clearTimeout (f e)) ts L !! tid = Some cb ->
  ts !! tid = Some cb /\ forall e, e ∈ L -> f e <> Some tid.
Proof.
  induction L as [|e L IH]; simpl.
  - intros H. split; [done|]. intros e He. by apply not_elem_of_nil in He.
  - intros H. apply lookup_clearTimeout in H as [H Hne].
    destruct (IH H) as [H1 H2]. split; [done|].
    intros e' [->|He']%elem_of_cons; [done|by apply H2].
Qed.

Lemma ipc_clearPending (n : string) (st : IPCHandler.State) :
  ipc_inv n st ->
  ipc_inv n (IPCHandler.clearPending st)
  /\ ipc_weight n (IPCHandler.clearPending st) = ipc_weight n st.
Proof.
  intros [Hkp Hka Ht]. split; [split|]; simpl.
  - intros k p Hk. by rewrite lookup_empty in Hk.
  - intros k p Hk. by rewrite lookup_empty in Hk.
  - intros tid Htid.
    apply lookup_foldr_clear in Htid as [Htid _].
    apply lookup_foldr_clear in Htid as [Htid Hps].
    destruct (Ht tid Htid) as (q & Hq & Hqt).
    exfalso. apply (Hps (n, q)); [|done]. by apply elem_of_map_to_list.
  - unfold ipc_weight, IPCHandler.outcomes. simpl.
    rewrite !lookup_empty.
    rewrite !filter_app, !map_app, !length_app, !length_map.
    rewrite (count_rejected_keys sp_settles n _ (map_to_list (IPCHandler.promises st))).
    2: apply NoDup_fst_map_to_list.
    2: { intros k p Hin. apply elem_of_map_to_list in Hin. by apply Hkp. }
    rewrite (count_rejected_keys IPCHandler.pa_settles n _
               (map_to_list (IPCHandler.pendingAll st))).
    2: apply NoDup_fst_map_to_list.
    2: { intros k p Hin. apply elem_of_map_to_list in Hin. by apply Hka. }
    rewrite (bool_decide_ext _ _ (keys_of_map_to_list (IPCHandler.promises st) n)).
    rewrite (bool_decide_ext _ _ (keys_of_map_to_list (IPCHandler.pendingAll st) n)).
    rewrite !bool_nat_is_Some. simpl. lia.
Qed.

Lemma ipc_step_other (send : SendFn) (n : string) (st : IPCHandler.State)
    (ev : IPCHandler.Event) :
  ipc_inv n st -> IPCHandler.registers n ev = false ->
  ipc_inv n (IPCHandler.step send st ev)
  /\ ipc_weight n (IPCHandler.step send st ev) = ipc_weight n st.
Proof.
  intros Hinv Hreg.
  destruct ev as [name fn|name|k h d t|c k h d t|k h d t total|m src|tid|];
    simpl in *.
  - destruct Hinv. split; [split|]; done.
  - destruct Hinv. split; [split|]; done.
  - apply bool_decide_eq_false in Hreg.
    destruct (ipc_request send n k h d t st Hinv (or_introl Hreg)) as (H1 & _ & H2).
    split; [done|by apply H2].
  - apply bool_decide_eq_false in Hreg.
    destruct (ipc_requestTo send n k h c d t st Hinv (or_introl Hreg)) as (H1 & _ & H2).
    split; [done|by apply H2].
  - apply bool_decide_eq_false in Hreg.
    destruct (ipc_requestAll send n k h d t total st Hinv (or_introl Hreg))
      as (H1 & _ & H2).
    split; [done|by apply H2].
  - by apply ipc_handleIncoming.
  - by apply ipc_fireTimer.
  - by apply ipc_clearPending.
Qed.

Lemma ipc_step_register (send : SendFn) (n : string) (st : IPCHandler.State)
    (ev : IPCHandler.Event) :
  ipc_inv n st -> ipc_weight n st = 0%nat ->
  ipc_inv n (IPCHandler.step send st ev)
  /\ (ipc_weight n (IPCHandler.step send st ev) <= 1)%nat.
Proof.
  intros Hinv Hw.
  assert (Hb : forall k, (bool_nat (bool_decide (k = n)) <= 1)%nat).
  { intros k. unfold bool_nat. case_bool_decide; lia. }
  destruct ev as [name fn|name|k h d t|c k h d t|k h d t total|m src|tid|];
    simpl in *.
  - destruct Hinv. split; [split|]; try done. unfold ipc_weight in *.
    simpl in *. unfold IPCHandler.outcomes in *. simpl. lia.
  - destruct Hinv. split; [split|]; try done. unfold ipc_weight in *.
    simpl in *. unfold IPCHandler.outcomes in *. simpl. lia.
  - destruct (ipc_request send n k h d t st Hinv (or_intror Hw)) as (H1 & H2 & _).
    split; [done|]. specialize (Hb k). lia.
  - destruct (ipc_requestTo send n k h c d t st Hinv (or_intror Hw)) as (H1 & H2 & _).
    split; [done|]. specialize (Hb k). lia.
  - destruct (ipc_requestAll send n k h d t total st Hinv (or_intror Hw))
      as (H1 & H2 & _).
    split; [done|]. specialize (Hb k). lia.
  - destruct (ipc_handleIncoming send n m src st Hinv) as [H1 H2].
    split; [done|lia].
  - destruct (ipc_fireTimer n tid st Hinv) as [H1 H2]. split; [done|lia].
  - destruct (ipc_clearPending n st Hinv) as [H1 H2]. split; [done|lia].
Qed.

Lemma ipc_run_weight (send : SendFn) (n : string)
    (evs : list IPCHandler.Event) :
  forall st : IPCHandler.State,
    ipc_inv n st ->
    (ipc_weight n st + ipc_registrations n evs <= 1)%nat ->
    ipc_inv n (IPCHandler.run send st evs)
    /\ (ipc_weight n (IPCHandler.run send st evs) <= 1)%nat.
Proof.
  induction evs as [|ev evs IH]; intros st Hinv Hw; simpl.
  { unfold ipc_registrations in Hw. simpl in Hw. split; [done|lia]. }
  unfold ipc_registrations in Hw.
  destruct (IPCHandler.registers n ev) eqn:Hreg.
  - rewrite filter_cons_True in Hw by done. simpl in Hw.
    destruct (ipc_step_register send n st ev Hinv ltac:(lia)) as [Hinv' Hw'].
    apply IH; [done|]. unfold ipc_registrations. lia.
  - rewrite filter_cons_False in Hw by (rewrite Hreg; discriminate).
    destruct (ipc_step_other send n st ev Hinv Hreg) as [Hinv' Hw'].
    apply IH; [done|]. unfold ipc_registrations. lia.
Qed.

Lemma ipc_init_inv (n : string) (hs : gmap string HandlerFn) :
  ipc_inv n (IPCHandler.init hs) /\ ipc_weight n (IPCHandler.init hs) = 0%nat.
Proof. split; [split|]; done. Qed.

(** A reply whose nonce has no pending entry in either table changes
    nothing. *)
Lemma ipc_late_reply (send : SendFn) (m : IPCMessage) (src : option Z)
    (st : IPCHandler.State) :
  is_HandlerResponse m || is_HandlerError m = true ->
  IPCHandler.promises st !! nonce_of m = None ->
  IPCHandler.pendingAll st !! nonce_of m = None ->
  IPCHandler.handleIncoming send m src st = st.
Proof.
  intros Hm Hp Ha. destruct m; try discriminate; simpl in *;
    rewrite Ha; unfold IPCHandler.settlePromise; by rewrite Hp.
Qed.

(** C1.  Take any history of an IPCHandler (calls, incoming messages of any
    kind, timers firing, [clearPending]) and any history of a StoreClient
    (calls, responses, timers firing), both starting from the freshly
    constructed object, and a nonce that at most one call of the history
    used (nonces are unique).  Then the promise created under that nonce is
    resolved or rejected at most once; once it has been settled, by a reply
    or by its time-out, no entry is left under the nonce, and a later
    HandlerResponse/HandlerError (or StoreResponse) carrying the nonce
    returns the state as it was, log of delivered results included.  More
    generally a reply whose nonce has no pending entry changes nothing, in
    any state. *)
Theorem pending_entry_settles_at_most_once :
  forall (send : SendFn) (hs : gmap string HandlerFn)
         (evs : list IPCHandler.Event) (sevs : list StoreClient.Event)
         (n : string),
    (ipc_registrations n evs <= 1)%nat ->
    (store_registrations n sevs <= 1)%nat ->
    let st := IPCHandler.run send (IPCHandler.init hs) evs in
    let ss := StoreClient.run send StoreClient.init sevs in
    (length (IPCHandler.outcomes n st) <= 1)%nat
    /\ (IPCHandler.outcomes n st <> [] ->
        IPCHandler.promises st !! n = None
        /\ IPCHandler.pendingAll st !! n = None
        /\ forall m src,
             is_HandlerResponse m || is_HandlerError m = true ->
             nonce_of m = n ->
             IPCHandler.handleIncoming send m src st = st)
    /\ (forall (st' : IPCHandler.State) m src,
          is_HandlerResponse m || is_HandlerError m = true ->
          IPCHandler.promises st' !! nonce_of m = None ->
          IPCHandler.pendingAll st' !! nonce_of m = None ->
          IPCHandler.handleIncoming send m src st' = st')
    /\ (length (StoreClient.outcomes n ss) <= 1)%nat
    /\ (StoreClient.outcomes n ss <> [] ->
        StoreClient.promises ss !! n = None
        /\ forall m, nonce_of m = n -> StoreClient.handleResponse m ss = ss)
    /\ (forall (ss' : StoreClient.State) m,
          StoreClient.promises ss' !! nonce_of m = None ->
          StoreClient.handleResponse m ss' = ss').
Proof.
  intros send hs evs sevs n Hreg Hsreg st ss.
  destruct (ipc_init_inv n hs) as [Hi0 Hw0].
  destruct (ipc_run_weight send n evs (IPCHandler.init hs) Hi0 ltac:(lia))
    as [_ Hw]. fold st in Hw.
  destruct (store_init_inv n) as [Hs0 Hsw0].
  destruct (store_run_weight send n sevs StoreClient.init Hs0 ltac:(lia))
    as [_ Hsw]. fold ss in Hsw.
  unfold ipc_weight in Hw. unfold store_weight in Hsw.
  rewrite !bool_nat_is_Some in Hw. rewrite bool_nat_is_Some in Hsw.
  split; [lia|]. split.
  { intros Hne.
    assert (Hlen : (0 < length (IPCHandler.outcomes n st))%nat).
    { destruct (IPCHandler.outcomes n st); [done|simpl; lia]. }
    assert (Hp : IPCHandler.promises st !! n = None).
    { destruct (IPCHandler.promises st !! n); [lia|done]. }
    assert (Ha : IPCHandler.pendingAll st !! n = None).
    { destruct (IPCHandler.pendingAll st !! n); [|done].
      destruct (IPCHandler.promises st !! n); lia. }
    split; [done|]. split; [done|].
    intros m src Hm Hn. apply ipc_late_reply; [done| |]; by rewrite Hn. }
  split; [intros st' m src; apply ipc_late_reply|].
  split; [lia|]. split.
  { intros Hne.
    assert (Hlen : (0 < length (StoreClient.outcomes n ss))%nat).
    { destruct (StoreClient.outcomes n ss); [done|simpl; lia]. }
    assert (Hp : StoreClient.promises ss !! n = None).
    { destruct (StoreClient.promises ss !! n); [lia|done]. }
    split; [done|].
    intros m Hn. apply store_late_response. by rewrite Hn. }
  intros ss' m. apply store_late_response.
Qed.

Lemma pending_entry_settles_at_most_once_witness :
  let evs :=
    [IPCHandler.CallRequest "n1" "stats" JNull (Some 100);
     IPCHandler.Incoming (HandlerResponse "n1" (JNum 1) None) None;
     IPCHandler.Incoming (HandlerError "n1" "late" None) None;
     IPCHandler.TimerFires 0] in
  let sevs :=
    [StoreClient.Call (StoreGet "n1" "k");
     StoreClient.TimerFires 0;
     StoreClient.Response (StoreResponse "n1" (JNum 6))] in
  let st := IPCHandler.run (fun _ => SendOk) (IPCHandler.init ∅) evs in
  let ss := StoreClient.run (fun _ => SendOk) StoreClient.init sevs in
  (length (IPCHandler.outcomes "n1" st) <= 1)%nat
  /\ IPCHandler.outcomes "n1" st = [IPCHandler.Resolved (JNum 1)]
  /\ (length (StoreClient.outcomes "n1" ss) <= 1)%nat
  /\ StoreClient.outcomes "n1" ss
     = [StoreClient.Rejected "Store request timed out"].
Proof.
  intros evs sevs st ss.
  assert (H1 : (ipc_registrations "n1" evs <= 1)%nat) by (vm_compute; lia).
  assert (H2 : (store_registrations "n1" sevs <= 1)%nat) by (vm_compute; lia).
  destruct (pending_entry_settles_at_most_once
              (fun _ => SendOk) ∅ evs sevs "n1" H1 H2)
    as (Ha & _ & _ & Hb & _).
  split; [exact Ha|]. split; [vm_compute; reflexivity|].
  split; [exact Hb|]. vm_compute; reflexivity.
Defined.

(** ** EventBusClient: acknowledged broadcasts *)

Lemma bus_idle_step (send : SendFn) (n : string) (st : EventBusClient.State)
    (ev : EventBusClient.Event) :
  bus_idle n st -> EventBusClient.registers n ev = false ->
  bus_idle n (EventBusClient.step send st ev)
  /\ EventBusClient.outcomes n (EventBusClient.step send st ev)
     = EventBusClient.outcomes n st.
Proof.
  intros [Hkeys Hh He Ht] Hreg.
  destruct ev as [j event d t x|m|tid]; simpl in *.
  - apply bool_decide_eq_false in Hreg.
    unfold EventBusClient.broadcastAndWait.
    destruct (send _); [|split; [split|]; done].
    destruct (default 0 x <=? 0); [split; [split|]; done|].
    split; [split|]; simpl; try done.
    + intros i p. rewrite lookup_insert. case_decide; [|apply Hkeys].
      intros [= <-]. done.
    + intros i p t'. rewrite lookup_insert. case_decide.
      * intros [= <-] [= <-]. lia.
      * intros Hi Hp. specialize (Hh _ _ _ Hi Hp). lia.
    + by rewrite lookup_insert_ne.
    + intros t'. rewrite lookup_insert. case_decide; [congruence|apply Ht].
  - destruct m; simpl; try (split; [split|]; done).
    destruct (EventBusClient.ackPromises st !! nonce) as [p|] eqn:Hp;
      [|split; [split|]; done].
    assert (Hne : nonce <> n) by congruence.
    pose proof (Hkeys _ _ Hp) as Hs.
    destruct (EventBusClient.expected p <=? _); (split; [split|]); simpl.
    + intros i q Hi. apply lookup_delete_Some in Hi as [_ Hi]. by apply Hkeys.
    + intros i q t' Hi. apply lookup_delete_Some in Hi as [_ Hi]. by apply (Hh i).
    + by rewrite lookup_delete_ne.
    + intros t' Ht'. apply lookup_clearTimeout in Ht' as [Ht' _]. by apply Ht in Ht'.
    + unfold EventBusClient.outcomes. simpl.
      rewrite filter_snoc_key, Hs. rewrite decide_False by done.
      by rewrite app_nil_r.
    + intros i q. rewrite lookup_insert. case_decide; [|apply Hkeys].
      intros [= <-]. simpl. congruence.
    + intros i q t'. rewrite lookup_insert. case_decide; [|apply Hh].
      intros [= <-]. simpl. by apply (Hh nonce).
    + by rewrite lookup_insert_ne.
    + exact Ht.
    + done.
  - unfold EventBusClient.fireTimer.
    destruct (EventBusClient.timers st !! tid) as [j|] eqn:Hj;
      [|split; [split|]; done].
    assert (Hne : j <> n). { intros ->. by apply Ht in Hj. }
    split; [split|]; simpl.
    + intros i q Hi. apply lookup_delete_Some in Hi as [_ Hi]. by apply Hkeys.
    + intros i q t' Hi. apply lookup_delete_Some in Hi as [_ Hi]. by apply (Hh i).
    + by rewrite lookup_delete_ne.
    + intros t' Ht'. apply lookup_delete_Some in Ht' as [_ Ht']. by apply Ht in Ht'.
    + unfold EventBusClient.outcomes. simpl.
      rewrite filter_snoc_key. rewrite decide_False by done.
      by rewrite app_nil_r.
Qed.

Lemma bus_idle_run (send : SendFn) (n : string) (evs : list EventBusClient.Event) :
  forall st : EventBusClient.State,
    bus_idle n st -> bus_registrations n evs = 0%nat ->
    bus_idle n (EventBusClient.run send st evs)
    /\ EventBusClient.outcomes n (EventBusClient.run send st evs)
       = EventBusClient.outcomes n st.
Proof.
  induction evs as [|ev evs IH]; intros st Hidle Hreg; [done|].
  unfold bus_registrations in Hreg.
  destruct (EventBusClient.registers n ev) eqn:Hev.
  { rewrite filter_cons_True in Hreg by done. discriminate. }
  rewrite filter_cons_False in Hreg by (rewrite Hev; discriminate).
  destruct (bus_idle_step send n st ev Hidle Hev) as [H1 H2].
  destruct (IH _ H1 Hreg) as [H3 H4].
  simpl. split; [done|congruence].
Qed.

Lemma bus_init_idle (n : string) (id : Z) : bus_idle n (EventBusClient.init id).
Proof. split; try done. Qed.

Lemma acks_count_cons (n : string) (ev : EventBusClient.Event)
    (evs : list EventBusClient.Event) :
  acks_count n (ev :: evs)
  = (if EventBusClient.acks n ev then 1 else 0) + acks_count n evs.
Proof.
  unfold acks_count. destruct (EventBusClient.acks n ev) eqn:Ha.
  - rewrite filter_cons_True by done. simpl length. lia.
  - rewrite filter_cons_False by (rewrite Ha; discriminate). lia.
Qed.

Lemma bus_waiting_step (send : SendFn) (n : string) (tid : nat) (e k : Z)
    (st : EventBusClient.State) (ev : EventBusClient.Event) :
  bus_waiting n tid e k st -> EventBusClient.registers n ev = false ->
  let st' := EventBusClient.step send st ev in
  (EventBusClient.acks n ev = true /\ k + 1 < e /\ bus_waiting n tid e (k + 1) st')
  \/ (EventBusClient.acks n ev = true /\ k + 1 = e /\ bus_idle n st'
      /\ EventBusClient.outcomes n st' = [e])
  \/ (ev = EventBusClient.TimerFires tid /\ bus_idle n st'
      /\ EventBusClient.outcomes n st' = [k])
  \/ (EventBusClient.acks n ev = false /\ ev <> EventBusClient.TimerFires tid
      /\ bus_waiting n tid e k st').
Proof.
  intros [Hkeys Hh He Ht Honly Hothers Hk Hlog] Hreg.
  assert (Htid : (tid < EventBusClient.next_timer st)%nat) by (by eapply Hh).
  destruct ev as [j event d t x|m|t]; simpl in *.
  - (* another call *)
    apply bool_decide_eq_false in Hreg.
    right; right; right. split; [done|]. split; [done|].
    unfold EventBusClient.broadcastAndWait.
    destruct (send _); [|split; done].
    destruct (default 0 x <=? 0); [split; done|].
    split; simpl; try done.
    + intros i p. rewrite lookup_insert. case_decide; [|apply Hkeys].
      intros [= <-]. done.
    + intros i p t'. rewrite lookup_insert. case_decide.
      * intros [= <-] [= <-]. lia.
      * intros Hi Hp. specialize (Hh _ _ _ Hi Hp). lia.
    + by rewrite lookup_insert_ne.
    + rewrite lookup_insert_ne by lia. done.
    + intros t'. rewrite lookup_insert. case_decide; [congruence|apply Honly].
    + intros i p Hi. rewrite lookup_insert. case_decide.
      * intros [= <-]. simpl. intros [= ?]. lia.
      * by apply (Hothers i).
  - (* an incoming message *)
    destruct m;
      try (right; right; right; split; [done|]; split; [done|]; split; done).
    simpl. case_bool_decide as Hn.
    + (* an ack for the call *)
      subst nonce. rewrite He. simpl.
      destruct (Z.leb_spec e (k + 1)) as [Hle|Hlt].
      * right; left. split; [done|]. split; [lia|]. split; [split|]; simpl.
        -- intros i q Hi. apply lookup_delete_Some in Hi as [_ Hi]. by apply Hkeys.
        -- intros i q t' Hi. apply lookup_delete_Some in Hi as [_ Hi].
           by apply (Hh i).
        -- apply lookup_delete_eq.
        -- intros t' Ht'. apply lookup_delete_Some in Ht' as [Hne Ht'].
           apply Honly in Ht'. congruence.
        -- unfold EventBusClient.outcomes in *. simpl.
           rewrite filter_snoc_key, Hlog. rewrite decide_True by done.
           simpl. f_equal. lia.
      * left. split; [done|]. split; [lia|]. split; simpl; try done.
        -- intros i q. rewrite lookup_insert. case_decide; [|apply Hkeys].
           intros [= <-]. done.
        -- intros i q t'. rewrite lookup_insert. case_decide; [|apply Hh].
           intros [= <-]. simpl. intros [= <-]. done.
        -- apply lookup_insert_eq.
        -- intros i q Hi. rewrite lookup_insert_ne by done. by apply (Hothers i).
    + (* an ack for another call *)
      right; right; right. split; [done|]. split; [done|].
      destruct (EventBusClient.ackPromises st !! nonce) as [p|] eqn:Hp;
        [|split; done].
      pose proof (Hkeys _ _ Hp) as Hs.
      pose proof (Hothers _ _ Hn Hp) as Hpt.
      destruct (EventBusClient.expected p <=? _); split; simpl; try done.
      * intros i q Hi. apply lookup_delete_Some in Hi as [_ Hi]. by apply Hkeys.
      * intros i q t' Hi. apply lookup_delete_Some in Hi as [_ Hi].
        by apply (Hh i).
      * by rewrite lookup_delete_ne.
      * by apply lookup_clearTimeout.
      * intros t' Ht'. apply lookup_clearTimeout in Ht' as [Ht' _].
        by apply Honly.
      * intros i q Hi Hq. apply lookup_delete_Some in Hq as [_ Hq].
        by apply (Hothers i).
      * unfold EventBusClient.outcomes in *. simpl.
        rewrite filter_snoc_key, Hlog, Hs. by rewrite decide_False.
      * intros i q. rewrite lookup_insert. case_decide; [|apply Hkeys].
        intros [= <-]. simpl. congruence.
      * intros i q t'. rewrite lookup_insert. case_decide; [|apply Hh].
        intros [= <-]. simpl. by apply (Hh nonce).
      * by rewrite lookup_insert_ne.
      * intros i q Hi. rewrite lookup_insert. case_decide; [|by apply (Hothers i)].
        intros [= <-]. simpl. done.
  - (* a timer *)
    unfold EventBusClient.fireTimer.
    destruct (decide (t = tid)) as [->|Hne].
    + right; right; left. split; [done|]. rewrite Ht.
      split; [split|]; simpl.
      * intros i q Hi. apply lookup_delete_Some in Hi as [_ Hi]. by apply Hkeys.
      * intros i q t' Hi. apply lookup_delete_Some in Hi as [_ Hi].
        by apply (Hh i).
      * apply lookup_delete_eq.
      * intros t' Ht'. apply lookup_delete_Some in Ht' as [Hne Ht'].
        apply Honly in Ht'. congruence.
      * unfold EventBusClient.outcomes in *. simpl.
        rewrite filter_snoc_key, Hlog, He. by rewrite decide_True.
    + right; right; right. split; [done|]. split; [congruence|].
      destruct (EventBusClient.timers st !! t) as [j|] eqn:Hj; [|split; done].
      assert (Hjn : j <> n). { intros ->. apply Honly in Hj. done. }
      split; simpl; try done.
      * intros i q Hi. apply lookup_delete_Some in Hi as [_ Hi]. by apply Hkeys.
      * intros i q t' Hi. apply lookup_delete_Some in Hi as [_ Hi].
        by apply (Hh i).
      * by rewrite lookup_delete_ne.
      * by rewrite lookup_delete_ne.
      * intros t' Ht'. apply lookup_delete_Some in Ht' as [_ Ht'].
        by apply Honly.
      * intros i q Hi Hq. apply lookup_delete_Some in Hq as [_ Hq].
        by apply (Hothers i).
      * unfold EventBusClient.outcomes in *. simpl.
        rewrite filter_snoc_key, Hlog. by rewrite decide_False.
Qed.

Lemma bus_waiting_run (send : SendFn) (n : string) (tid : nat) (e : Z)
    (evs : list EventBusClient.Event) :
  forall (st : EventBusClient.State) (k : Z),
    bus_waiting n tid e k st -> bus_registrations n evs = 0%nat ->
    let st' := EventBusClient.run send st evs in
    bus_waiting n tid e (k + acks_count n evs) st'
    \/ exists prefix ev suffix,
         evs = prefix ++ ev :: suffix
         /\ k + acks_count n prefix < e
         /\ bus_idle n st'
         /\ ((EventBusClient.acks n ev = true
              /\ k + acks_count n prefix + 1 = e
              /\ EventBusClient.outcomes n st' = [e])
             \/ (ev = EventBusClient.TimerFires tid
                 /\ EventBusClient.outcomes n st' = [k + acks_count n prefix])).
Proof.
  induction evs as [|ev evs IH]; intros st k Hw Hreg; simpl.
  { left. unfold acks_count. simpl. by rewrite Z.add_0_r. }
  unfold bus_registrations in Hreg.
  destruct (EventBusClient.registers n ev) eqn:Hev.
  { rewrite filter_cons_True in Hreg by done. discriminate. }
  rewrite filter_cons_False in Hreg by (rewrite Hev; discriminate).
  pose proof (bus_waiting_count _ _ _ _ _ Hw) as Hk.
  destruct (bus_waiting_step send n tid e k st ev Hw Hev)
    as [(Ha & Hlt & Hw')|[(Ha & Heq & Hidle & Hout)|[(Ht & Hidle & Hout)|(Ha & Hne & Hw')]]].
  - destruct (IH _ _ Hw' Hreg) as [Hp|(prefix & ev' & suffix & -> & Hlt' & Hi & Hcase)].
    + left. rewrite acks_count_cons, Ha.
      replace (k + (1 + acks_count n evs)) with (k + 1 + acks_count n evs) by lia.
      done.
    + right. exists (ev :: prefix), ev', suffix.
      rewrite acks_count_cons, Ha.
      split; [done|]. split; [lia|]. split; [done|].
      destruct Hcase as [(? & ? & ?)|(? & ?)]; [left|right]; repeat split;
        try done; try lia.
      rewrite H0. f_equal. lia.
  - right. exists [], ev, evs.
    destruct (bus_idle_run send n evs _ Hidle Hreg) as [Hi Ho].
    unfold acks_count. simpl.
    split; [done|]. split; [lia|]. split; [done|]. left.
    split; [done|]. split; [lia|]. by rewrite Ho.
  - right. exists [], ev, evs.
    destruct (bus_idle_run send n evs _ Hidle Hreg) as [Hi Ho].
    unfold acks_count. simpl.
    split; [done|]. split; [lia|]. split; [done|]. right.
    split; [done|]. rewrite Ho, Hout. f_equal. lia.
  - destruct (IH _ _ Hw' Hreg) as [Hp|(prefix & ev' & suffix & -> & Hlt' & Hi & Hcase)].
    + left. rewrite acks_count_cons, Ha. by rewrite Z.add_0_l.
    + right. exists (ev :: prefix), ev', suffix.
      rewrite acks_count_cons, Ha, Z.add_0_l. done.
Qed.

Lemma bus_registrations_app (n : string) (a b : list EventBusClient.Event) :
  bus_registrations n (a ++ b) = 0%nat ->
  bus_registrations n a = 0%nat /\ bus_registrations n b = 0%nat.
Proof.
  unfold bus_registrations. rewrite filter_app, length_app. lia.
Qed.

(** C7, as the claim states it, fails: the call awaits the transport, and a
    rejected send rejects the call. *)
Lemma broadcastAndWait_rejects_when_send_fails :
  let send := fun _ : IPCMessage => SendFailed "channel closed" in
  let r := EventBusClient.broadcastAndWait send "n1" "reload" JNull (Some 1000)
             (Some 2) (EventBusClient.init 0) in
  fst r = Failed "channel closed"
  /\ EventBusClient.ackPromises (snd r) = ∅
  /\ EventBusClient.timers (snd r) = ∅.
Proof. repeat split. Qed.

(** C7, amended.  [broadcastAndWait] in any state a freshly built
    EventBusClient can reach, under a nonce no other call uses:
    - if the transport rejects the event message, the call rejects with the
      transport's error and registers nothing;
    - if the transport accepts it and [expectedClusters] is unset, zero (or
      negative), the call returns 0 at once; the event was sent and nothing
      else changed, so no pending ack entry and no timer exist;
    - if the transport accepts it and [expectedClusters = e > 0], the call
      is left pending, and after any further history either fewer than [e]
      acks for the nonce have arrived, nothing was resolved, the timer of
      the call is still armed and its firing resolves the call with the
      number of acks received so far; or the call was resolved once, by the
      first of: the [e]-th ack (value [e]), the timer (value: the acks
      received before it fired).
    The class holds no [reject] for the pending promise: its log of
    settlements only has resolutions. *)
Theorem broadcastAndWait_resolves_with_ack_count :
  forall (send : SendFn) (id : Z) (pre evs : list EventBusClient.Event)
         (n event : string) (payload : JSValue) (timeout x : option Z),
    bus_registrations n (pre ++ evs) = 0%nat ->
    let st0 := EventBusClient.run send (EventBusClient.init id) pre in
    let msg := EventEmitAndWait n event payload (EventBusClient.clusterId st0) in
    let r := EventBusClient.broadcastAndWait send n event payload timeout x st0 in
    let st2 := EventBusClient.run send (snd r) evs in
    let tid := EventBusClient.next_timer st0 in
    (forall e, send msg = SendFailed e ->
       r = (Failed e, EventBusClient.record_send msg st0))
    /\ (send msg = SendOk -> default 0 x <= 0 ->
        r = (Returned 0, EventBusClient.record_send msg st0)
        /\ EventBusClient.ackPromises (snd r) = EventBusClient.ackPromises st0
        /\ EventBusClient.timers (snd r) = EventBusClient.timers st0
        /\ EventBusClient.sent (snd r) = EventBusClient.sent st0 ++ [msg])
    /\ (send msg = SendOk -> forall e, x = Some e -> 0 < e ->
        fst r = Pending
        /\ ((EventBusClient.outcomes n st2 = []
             /\ acks_count n evs < e
             /\ EventBusClient.timers st2 !! tid = Some n
             /\ EventBusClient.outcomes n (EventBusClient.fireTimer tid st2)
                = [acks_count n evs])
            \/ exists prefix ev suffix,
                 evs = prefix ++ ev :: suffix
                 /\ acks_count n prefix < e
                 /\ ((EventBusClient.acks n ev = true
                      /\ acks_count n prefix + 1 = e
                      /\ EventBusClient.outcomes n st2 = [e])
                     \/ (ev = EventBusClient.TimerFires tid
                         /\ EventBusClient.outcomes n st2
                            = [acks_count n prefix])))).
Proof.
  intros send id pre evs n event payload timeout x Hreg st0 msg r st2 tid.
  apply bus_registrations_app in Hreg as [Hpre Hevs].
  destruct (bus_idle_run send n pre _ (bus_init_idle n id) Hpre) as [Hidle Hout0].
  fold st0 in Hidle, Hout0.
  split.
  { intros e He. unfold r, EventBusClient.broadcastAndWait. fold msg.
    by rewrite He. }
  split.
  { intros Hsend Hx. unfold r, EventBusClient.broadcastAndWait. fold msg.
    rewrite Hsend. destruct (Z.leb_spec (default 0 x) 0); [done|lia]. }
  intros Hsend e -> He.
  assert (Hr : r = (Pending,
                    {| EventBusClient.clusterId := EventBusClient.clusterId st0;
                       EventBusClient.ackPromises :=
                         <[n := {| EventBusClient.expected := e;
                                   EventBusClient.received := 0;
                                   EventBusClient.ack_settles := n;
                                   EventBusClient.ack_timeout := Some tid |}]>
                           (EventBusClient.ackPromises st0);
                       EventBusClient.timers :=
                         <[tid := n]> (EventBusClient.timers st0);
                       EventBusClient.next_timer := S tid;
                       EventBusClient.sent := EventBusClient.sent st0 ++ [msg];
                       EventBusClient.emitted := EventBusClient.emitted st0;
                       EventBusClient.settled := EventBusClient.settled st0 |})).
  { unfold r, EventBusClient.broadcastAndWait. fold msg. rewrite Hsend. simpl.
    destruct (Z.leb_spec e 0); [lia|done]. }
  destruct Hidle as [Hkeys Hh He0 Ht0].
  assert (Hw : bus_waiting n tid e 0 (snd r)).
  { rewrite Hr. split; simpl.
    - intros i p. rewrite lookup_insert. case_decide; [|apply Hkeys].
      intros [= <-]. done.
    - intros i p t'. rewrite lookup_insert. case_decide.
      + intros [= <-] [= <-]. lia.
      + intros Hi Hp. specialize (Hh _ _ _ Hi Hp). unfold tid. lia.
    - apply lookup_insert_eq.
    - apply lookup_insert_eq.
    - intros t'. rewrite lookup_insert. case_decide; [done|].
      intros Ht'. by apply Ht0 in Ht'.
    - intros i p Hi. rewrite lookup_insert_ne by done. intros Hp Hpt.
      specialize (Hh _ _ _ Hp Hpt). unfold tid in Hh. lia.
    - lia.
    - unfold EventBusClient.outcomes in *. simpl. by rewrite Hout0. }
  split; [by rewrite Hr|].
  destruct (bus_waiting_run send n tid e evs _ 0 Hw Hevs)
    as [Hp|(prefix & ev & suffix & Heq & Hlt & _ & Hcase)].
  - left. fold st2 in Hp. rewrite Z.add_0_l in Hp.
    split; [by destruct Hp|]. split; [by destruct Hp|].
    split; [by destruct Hp|].
    destruct (bus_waiting_step send n tid e _ st2
                (EventBusClient.TimerFires tid) Hp eq_refl)
      as [(Ha & _)|[(Ha & _)|[(_ & _ & Hout)|(_ & Hne & _)]]];
      try discriminate; done.
  - right. exists prefix, ev, suffix. rewrite !Z.add_0_l in *.
    split; [done|]. split; [done|]. exact Hcase.
Qed.

Lemma broadcastAndWait_resolves_with_ack_count_witness :
  let send := fun _ : IPCMessage => SendOk in
  let evs := [EventBusClient.Incoming (EventAck "n1" 1);
              EventBusClient.TimerFires 0;
              EventBusClient.Incoming (EventAck "n1" 2)] in
  let r := EventBusClient.broadcastAndWait send "n1" "reload" JNull (Some 1000)
             (Some 2) (EventBusClient.init 0) in
  fst r = Pending
  /\ EventBusClient.outcomes "n1" (EventBusClient.run send (snd r) evs) = [1]
  /\ fst (EventBusClient.broadcastAndWait send "n1" "reload" JNull None None
            (EventBusClient.init 0)) = Returned 0.
Proof.
  intros send evs r.
  destruct (broadcastAndWait_resolves_with_ack_count
              send 0 [] evs "n1" "reload" JNull (Some 1000) (Some 2) eq_refl)
    as (_ & _ & H).
  destruct (H eq_refl 2 eq_refl ltac:(lia)) as [Hp _].
  split; [exact Hp|]. split; [reflexivity|].
  destruct (broadcastAndWait_resolves_with_ack_count
              send 0 [] [] "n1" "reload" JNull None None eq_refl)
    as (_ & H0 & _).
  destruct (H0 eq_refl ltac:(simpl; lia)) as [Hr _].
  exact (f_equal fst Hr).
Defined.

(** ** IPCHandler: a broadcast in flight *)

Lemma outcomes_settle_other (n k : string) (s : IPCHandler.Settlement)
    (st : IPCHandler.State) :
  k <> n ->
  IPCHandler.outcomes n (IPCHandler.settle k s st) = IPCHandler.outcomes n st.
Proof.
  intros Hne. rewrite outcomes_settle, decide_False by done. apply app_nil_r.
Qed.

Lemma idle_record_send (n : string) (m : IPCMessage) (st : IPCHandler.State) :
  ipc_idle n st ->
  ipc_idle n (IPCHandler.record_send m st)
  /\ IPCHandler.outcomes n (IPCHandler.record_send m st) = IPCHandler.outcomes n st.
Proof. intros []. split; [split|]; done. Qed.

Lemma idle_settlePromise (n k : string) (s : IPCHandler.Settlement)
    (st : IPCHandler.State) :
  ipc_idle n st ->
  ipc_idle n (IPCHandler.settlePromise k s st)
  /\ IPCHandler.outcomes n (IPCHandler.settlePromise k s st)
     = IPCHandler.outcomes n st.
Proof.
  intros [Hkp Hka Hhp Hha Hep Hea Ht]. unfold IPCHandler.settlePromise.
  destruct (IPCHandler.promises st !! k) as [p|] eqn:Hp; [|done].
  assert (Hne : k <> n) by congruence.
  pose proof (Hkp _ _ Hp) as Hs.
  split; [split|]; simpl; try done.
  - intros j q Hj. apply lookup_delete_Some in Hj as [_ Hj]. by apply Hkp.
  - intros j q t Hj. apply lookup_delete_Some in Hj as [_ Hj]. by apply (Hhp j).
  - by rewrite lookup_delete_ne.
  - intros t cb Htc. apply lookup_clearTimeout in Htc as [Htc _]. by eapply Ht.
  - rewrite Hs, outcomes_settle_other by done. done.
Qed.

Lemma idle_collectReply (n k : string) (pending : IPCHandler.PendingAll)
    (src : Z) (v : JSValue) (st : IPCHandler.State) :
  ipc_idle n st -> IPCHandler.pendingAll st !! k = Some pending ->
  ipc_idle n (IPCHandler.collectReply k pending src v st)
  /\ IPCHandler.outcomes n (IPCHandler.collectReply k pending src v st)
     = IPCHandler.outcomes n st.
Proof.
  intros [Hkp Hka Hhp Hha Hep Hea Ht] Hpa. unfold IPCHandler.collectReply.
  assert (Hne : k <> n) by congruence.
  pose proof (Hka _ _ Hpa) as Hs.
  destruct (IPCHandler.expected pending <=? _); (split; [split|]); simpl; try done.
  - intros j q Hj. apply lookup_delete_Some in Hj as [_ Hj]. by apply Hka.
  - intros j q t Hj. apply lookup_delete_Some in Hj as [_ Hj]. by apply (Hha j).
  - by rewrite lookup_delete_ne.
  - intros t cb Htc. apply lookup_clearTimeout in Htc as [Htc _]. by eapply Ht.
  - rewrite Hs, outcomes_settle_other by done. done.
  - intros j q. rewrite lookup_insert. case_decide; [|apply Hka].
    intros [= <-]. simpl. congruence.
  - intros j q t. rewrite lookup_insert. case_decide; [|apply Hha].
    intros [= <-]. simpl. by apply (Hha k).
  - by rewrite lookup_insert_ne.
Qed.

Lemma idle_handleIncoming (send : SendFn) (n : string) (m : IPCMessage)
    (src : option Z) (st : IPCHandler.State) :
  ipc_idle n st ->
  ipc_idle n (IPCHandler.handleIncoming send m src st)
  /\ IPCHandler.outcomes n (IPCHandler.handleIncoming send m src st)
     = IPCHandler.outcomes n st.
Proof.
  intros Hidle.
  destruct m; simpl; try done.
  - destruct (IPCHandler.handlers st !! handler) as [fn|];
      [|by apply idle_record_send].
    destruct (fn payload); [|by apply idle_record_send].
    destruct (send _); [by apply idle_record_send|].
    destruct (idle_record_send n (HandlerResponse nonce v src) st Hidle) as [H1 H2].
    destruct (idle_record_send n (HandlerError nonce message src) _ H1) as [H3 H4].
    split; [done|congruence].
  - destruct (IPCHandler.handlers st !! handler) as [fn|];
      [|by apply idle_record_send].
    destruct (fn payload); [|by apply idle_record_send].
    destruct (send _); [by apply idle_record_send|].
    destruct (idle_record_send n (HandlerResponse nonce v src) st Hidle) as [H1 H2].
    destruct (idle_record_send n (HandlerError nonce message src) _ H1) as [H3 H4].
    split; [done|congruence].
  - destruct (IPCHandler.pendingAll st !! nonce) as [pending|] eqn:Hpa;
      [destruct sourceCluster as [s|]|].
    + by apply idle_collectReply.
    + by apply idle_settlePromise.
    + by apply idle_settlePromise.
  - destruct (IPCHandler.pendingAll st !! nonce) as [pending|] eqn:Hpa;
      [destruct sourceCluster as [s|]|].
    + by apply idle_collectReply.
    + by apply idle_settlePromise.
    + by apply idle_settlePromise.
Qed.

Lemma idle_fireTimer (n : string) (tid : nat) (st : IPCHandler.State) :
  ipc_idle n st ->
  ipc_idle n (IPCHandler.fireTimer tid st)
  /\ IPCHandler.outcomes n (IPCHandler.fireTimer tid st) = IPCHandler.outcomes n st.
Proof.
  intros [Hkp Hka Hhp Hha Hep Hea Ht]. unfold IPCHandler.fireTimer.
  destruct (IPCHandler.timers st !! tid) as [cb|] eqn:Htid; [|done].
  pose proof (Ht _ _ Htid) as Hne.
  destruct cb as [k|k]; simpl in *.
  - split; [split|]; simpl; try done.
    + intros j q Hj. apply lookup_delete_Some in Hj as [_ Hj]. by apply Hkp.
    + intros j q t Hj. apply lookup_delete_Some in Hj as [_ Hj]. by apply (Hhp j).
    + by rewrite lookup_delete_ne.
    + intros t cb Htc. apply lookup_delete_Some in Htc as [_ Htc]. by eapply Ht.
    + rewrite outcomes_settle_other by done. done.
  - destruct (IPCHandler.pendingAll st !! k) as [pending|] eqn:Hpa.
    + split; [split|]; simpl; try done.
      * intros j q Hj. apply lookup_delete_Some in Hj as [_ Hj]. by apply Hka.
      * intros j q t Hj. apply lookup_delete_Some in Hj as [_ Hj]. by apply (Hha j).
      * by rewrite lookup_delete_ne.
      * intros t cb Htc. apply lookup_delete_Some in Htc as [_ Htc]. by eapply Ht.
      * rewrite outcomes_settle_other by done. done.
    + split; [split|]; simpl; try done.
      intros t cb Htc. apply lookup_delete_Some in Htc as [_ Htc]. by eapply Ht.
Qed.

Lemma idle_createPromise (n k : string) (timeout : option Z)
    (st : IPCHandler.State) :
  ipc_idle n st -> k <> n ->
  ipc_idle n (IPCHandler.createPromise k timeout st)
  /\ IPCHandler.outcomes n (IPCHandler.createPromise k timeout st)
     = IPCHandler.outcomes n st.
Proof.
  intros [Hkp Hka Hhp Hha Hep Hea Ht] Hne. unfold IPCHandler.createPromise.
  destruct timeout as [ms|]; [destruct (0 <? ms)|]; simpl;
    (split; [split|]); simpl; try done.
  - intros j q. rewrite lookup_insert. case_decide; [|apply Hkp].
    intros [= <-]. done.
  - intros j q t. rewrite lookup_insert. case_decide.
    + intros [= <-] [= <-]. lia.
    + intros Hj Hq. specialize (Hhp _ _ _ Hj Hq). lia.
  - intros j q t Hj Hq. specialize (Hha _ _ _ Hj Hq). lia.
  - by rewrite lookup_insert_ne.
  - intros t cb. rewrite lookup_insert. case_decide; [|apply Ht].
    intros [= <-]. done.
  - intros j q. rewrite lookup_insert. case_decide; [|apply Hkp].
    intros [= <-]. done.
  - intros j q t. rewrite lookup_insert. case_decide; [|apply Hhp].
    intros [= <-]. done.
  - by rewrite lookup_insert_ne.
  - intros j q. rewrite lookup_insert. case_decide; [|apply Hkp].
    intros [= <-]. done.
  - intros j q t. rewrite lookup_insert. case_decide; [|apply Hhp].
    intros [= <-]. done.
  - by rewrite lookup_insert_ne.
Qed.

Lemma idle_requestAll (send : SendFn) (n k handler : string) (payload : JSValue)
    (timeout total : option Z) (st : IPCHandler.State) :
  ipc_idle n st -> k <> n ->
  ipc_idle n (snd (IPCHandler.requestAll send k handler payload timeout total st))
  /\ IPCHandler.outcomes n
       (snd (IPCHandler.requestAll send k handler payload timeout total st))
     = IPCHandler.outcomes n st.
Proof.
  intros Hidle Hne. unfold IPCHandler.requestAll.
  destruct (default 0 total =? 0); [done|].
  destruct (default 0 total - 1 <=? 0); [done|].
  destruct (send _); simpl; [|by apply idle_record_send].
  destruct Hidle as [Hkp Hka Hhp Hha Hep Hea Ht].
  destruct (0 <? default 30000 timeout); simpl;
    (split; [split|]); simpl; try done.
  - intros j q. rewrite lookup_insert. case_decide; [|apply Hka].
    intros [= <-]. done.
  - intros j q t Hj Hq. specialize (Hhp _ _ _ Hj Hq). lia.
  - intros j q t. rewrite lookup_insert. case_decide.
    + intros [= <-] [= <-]. lia.
    + intros Hj Hq. specialize (Hha _ _ _ Hj Hq). lia.
  - by rewrite lookup_insert_ne.
  - intros t cb. rewrite lookup_insert. case_decide; [|apply Ht].
    intros [= <-]. done.
  - intros j q. rewrite lookup_insert. case_decide; [|apply Hka].
    intros [= <-]. done.
  - intros j q t. rewrite lookup_insert. case_decide; [|apply Hha].
    intros [= <-]. done.
  - by rewrite lookup_insert_ne.
Qed.

Lemma no_rejection_logged {A : Type} (f : A -> string) (n : string)
    (x : IPCHandler.Settlement) (m : gmap string A) :
  (forall k p, m !! k = Some p -> f p = k) -> m !! n = None ->
  filter (fun e => fst e = n) (map (fun e => (f (snd e), x)) (map_to_list m)) = [].
Proof.
  intros Hkeys Hn. apply length_zero_iff_nil.
  rewrite (count_rejected_keys f n x (map_to_list m)).
  - rewrite (bool_decide_ext _ _ (keys_of_map_to_list m n)).
    by rewrite bool_nat_is_Some, Hn.
  - apply NoDup_fst_map_to_list.
  - intros k p Hin. apply elem_of_map_to_list in Hin. by apply Hkeys.
Qed.

Lemma idle_clearPending (n : string) (st : IPCHandler.State) :
  ipc_idle n st ->
  ipc_idle n (IPCHandler.clearPending st)
  /\ IPCHandler.outcomes n (IPCHandler.clearPending st) = IPCHandler.outcomes n st.
Proof.
  intros [Hkp Hka Hhp Hha Hep Hea Ht]. split; [split|]; simpl; try done.
  - intros t cb Htc.
    apply lookup_foldr_clear in Htc as [Htc _].
    apply lookup_foldr_clear in Htc as [Htc _]. by eapply Ht.
  - unfold IPCHandler.outcomes. simpl. rewrite !filter_app, !map_app.
    rewrite (no_rejection_logged sp_settles) by done.
    rewrite (no_rejection_logged IPCHandler.pa_settles) by done.
    by rewrite !app_nil_r.
Qed.

Lemma idle_step (send : SendFn) (n : string) (st : IPCHandler.State)
    (ev : IPCHandler.Event) :
  ipc_idle n st -> IPCHandler.registers n ev = false ->
  ipc_idle n (IPCHandler.step send st ev)
  /\ IPCHandler.outcomes n (IPCHandler.step send st ev) = IPCHandler.outcomes n st.
Proof.
  intros Hidle Hreg.
  destruct ev as [name fn|name|k h d t|c k h d t|k h d t total|m src|tid|];
    simpl in *.
  - destruct Hidle. split; [split|]; done.
  - destruct Hidle. split; [split|]; done.
  - apply bool_decide_eq_false in Hreg. unfold IPCHandler.request.
    destruct (idle_record_send n (HandlerRequest k h d) st Hidle) as [H1 H2].
    destruct (send _); simpl; [|done].
    destruct (idle_createPromise n k t _ H1 Hreg) as [H3 H4].
    split; [done|congruence].
  - apply bool_decide_eq_false in Hreg. unfold IPCHandler.requestTo.
    destruct (idle_record_send n (HandlerRequestTo c k h d) st Hidle) as [H1 H2].
    destruct (send _); simpl; [|done].
    destruct (idle_createPromise n k t _ H1 Hreg) as [H3 H4].
    split; [done|congruence].
  - apply bool_decide_eq_false in Hreg. by apply idle_requestAll.
  - by apply idle_handleIncoming.
  - by apply idle_fireTimer.
  - by apply idle_clearPending.
Qed.

Lemma idle_run (send : SendFn) (n : string) (evs : list IPCHandler.Event) :
  forall st : IPCHandler.State,
    ipc_idle n st -> ipc_registrations n evs = 0%nat ->
    ipc_idle n (IPCHandler.run send st evs)
    /\ IPCHandler.outcomes n (IPCHandler.run send st evs) = IPCHandler.outcomes n st.
Proof.
  induction evs as [|ev evs IH]; intros st Hidle Hreg; [done|].
  unfold ipc_registrations in Hreg.
  destruct (IPCHandler.registers n ev) eqn:Hev.
  { rewrite filter_cons_True in Hreg by done. discriminate. }
  rewrite filter_cons_False in Hreg by (rewrite Hev; discriminate).
  destruct (idle_step send n st ev Hidle Hev) as [H1 H2].
  destruct (IH _ H1 Hreg) as [H3 H4].
  simpl. split; [done|congruence].
Qed.

Lemma init_idle (n : string) (hs : gmap string HandlerFn) :
  ipc_idle n (IPCHandler.init hs).
Proof. split; done. Qed.

Lemma coll_record_send (n : string) (h : option nat) (rs : list (Z * JSValue))
    (exp : Z) (m : IPCMessage) (st : IPCHandler.State) :
  ipc_collecting n h rs exp st ->
  ipc_collecting n h rs exp (IPCHandler.record_send m st).
Proof. intros []. split; done. Qed.

Lemma coll_handle_bound (n : string) (h : option nat) (rs : list (Z * JSValue))
    (exp : Z) (st : IPCHandler.State) (t : nat) :
  ipc_collecting n h rs exp st -> h = Some t ->
  (t < IPCHandler.next_timer st)%nat.
Proof.
  intros Hc ->.
  eapply (ipc_coll_handles_a _ _ _ _ _ Hc); [apply (ipc_coll_entry_a _ _ _ _ _ Hc)|done].
Qed.

Lemma coll_settlePromise (n : string) (h : option nat) (rs : list (Z * JSValue))
    (exp : Z) (k : string) (s : IPCHandler.Settlement) (st : IPCHandler.State) :
  ipc_collecting n h rs exp st ->
  ipc_collecting n h rs exp (IPCHandler.settlePromise k s st).
Proof.
  intros [Hkp Hka Hhp Hha Hep Hea Ht Honly Hop Hoa Hsz Hlog].
  unfold IPCHandler.settlePromise.
  destruct (IPCHandler.promises st !! k) as [p|] eqn:Hp; [|done].
  assert (Hne : k <> n) by congruence.
  pose proof (Hkp _ _ Hp) as Hs.
  split; simpl; try done.
  - intros j q Hj. apply lookup_delete_Some in Hj as [_ Hj]. by apply Hkp.
  - intros j q t Hj. apply lookup_delete_Some in Hj as [_ Hj]. by apply (Hhp j).
  - by rewrite lookup_delete_ne.
  - intros t Hh. apply lookup_clearTimeout. split; [by apply Ht|by eapply Hop].
  - intros t cb Htc. apply lookup_clearTimeout in Htc as [Htc _]. by eapply Honly.
  - intros j q t Hj. apply lookup_delete_Some in Hj as [_ Hj]. by apply (Hop j).
  - rewrite Hs, outcomes_settle_other by done. done.
Qed.

Lemma coll_collectReply_other (n : string) (h : option nat)
    (rs : list (Z * JSValue)) (exp : Z) (k : string)
    (pending : IPCHandler.PendingAll) (src : Z) (v : JSValue)
    (st : IPCHandler.State) :
  ipc_collecting n h rs exp st -> k <> n ->
  IPCHandler.pendingAll st !! k = Some pending ->
  ipc_collecting n h rs exp (IPCHandler.collectReply k pending src v st).
Proof.
  intros [Hkp Hka Hhp Hha Hep Hea Ht Honly Hop Hoa Hsz Hlog] Hne Hpa.
  unfold IPCHandler.collectReply.
  pose proof (Hka _ _ Hpa) as Hs.
  destruct (IPCHandler.expected pending <=? _); split; simpl; try done.
  - intros j q Hj. apply lookup_delete_Some in Hj as [_ Hj]. by apply Hka.
  - intros j q t Hj. apply lookup_delete_Some in Hj as [_ Hj]. by apply (Hha j).
  - by rewrite lookup_delete_ne.
  - intros t Hh. apply lookup_clearTimeout. split; [by apply Ht|by eapply Hoa].
  - intros t cb Htc. apply lookup_clearTimeout in Htc as [Htc _]. by eapply Honly.
  - intros j q t Hj Hq. apply lookup_delete_Some in Hq as [_ Hq]. by apply (Hoa j).
  - rewrite Hs, outcomes_settle_other by done. done.
  - intros j q. rewrite lookup_insert. case_decide; [|apply Hka].
    intros [= <-]. simpl. congruence.
  - intros j q t. rewrite lookup_insert. case_decide; [|apply Hha].
    intros [= <-]. simpl. by apply (Hha k).
  - by rewrite lookup_insert_ne.
  - intros j q t Hj. rewrite lookup_insert. case_decide; [|by apply (Hoa j)].
    intros [= <-]. simpl. by apply (Hoa k).
Qed.

Lemma coll_collectReply_own (n : string) (h : option nat) (rs : list (Z * JSValue))
    (exp : Z) (src : Z) (v : JSValue) (st : IPCHandler.State) :
  ipc_collecting n h rs exp st ->
  let pending := {| IPCHandler.results := rs; IPCHandler.expected := exp;
                    IPCHandler.pa_settles := n; IPCHandler.pa_timeout := h |} in
  let rs' := assoc_set src v rs in
  let st' := IPCHandler.collectReply n pending src v st in
  (Z.of_nat (length rs') < exp /\ ipc_collecting n h rs' exp st')
  \/ (exp <= Z.of_nat (length rs') /\ ipc_idle n st'
      /\ IPCHandler.outcomes n st' = [IPCHandler.ResolvedAll (IPCHandler.collect rs')]).
Proof.
  intros [Hkp Hka Hhp Hha Hep Hea Ht Honly Hop Hoa Hsz Hlog] pending rs' st'.
  unfold st', IPCHandler.collectReply. simpl. fold rs'.
  destruct (Z.leb_spec exp (Z.of_nat (length rs'))) as [Hle|Hlt].
  - right. split; [done|]. split; [split|]; simpl; try done.
    + intros j q Hj. apply lookup_delete_Some in Hj as [_ Hj]. by apply Hka.
    + intros j q t Hj. apply lookup_delete_Some in Hj as [_ Hj]. by apply (Hha j).
    + apply lookup_delete_eq.
    + intros t cb Htc Hcb. apply lookup_clearTimeout in Htc as [Htc Hne].
      apply Hne. by eapply Honly.
    + rewrite outcomes_settle, decide_True by done.
      unfold IPCHandler.outcomes in *. simpl. by rewrite Hlog.
  - left. split; [done|]. split; simpl; try done.
    + intros j q. rewrite lookup_insert. case_decide; [|apply Hka].
      intros [= <-]. done.
    + intros j q t. rewrite lookup_insert. case_decide; [|apply Hha].
      intros [= <-]. simpl. intros Hh. by eapply Hha.
    + apply lookup_insert_eq.
    + intros j q t Hj. rewrite lookup_insert_ne by done. by apply (Hoa j).
Qed.

Lemma coll_createPromise (n : string) (h : option nat) (rs : list (Z * JSValue))
    (exp : Z) (k : string) (timeout : option Z) (st : IPCHandler.State) :
  ipc_collecting n h rs exp st -> k <> n ->
  ipc_collecting n h rs exp (IPCHandler.createPromise k timeout st).
Proof.
  intros Hc Hne.
  pose proof (coll_handle_bound n h rs exp st) as Hb. specialize (fun t => Hb t Hc).
  destruct Hc as [Hkp Hka Hhp Hha Hep Hea Ht Honly Hop Hoa Hsz Hlog].
  unfold IPCHandler.createPromise.
  destruct timeout as [ms|]; [destruct (0 <? ms)|]; simpl;
    split; simpl; try done.
  - intros j q. rewrite lookup_insert. case_decide; [|apply Hkp].
    intros [= <-]. done.
  - intros j q t. rewrite lookup_insert. case_decide.
    + intros [= <-] [= <-]. lia.
    + intros Hj Hq. specialize (Hhp _ _ _ Hj Hq). lia.
  - intros j q t Hj Hq. specialize (Hha _ _ _ Hj Hq). lia.
  - by rewrite lookup_insert_ne.
  - intros t Hh. specialize (Hb t Hh). rewrite lookup_insert_ne by lia.
    by apply Ht.
  - intros t cb. rewrite lookup_insert. case_decide; [|apply Honly].
    intros [= <-]. done.
  - intros j q t. rewrite lookup_insert. case_decide; [|apply Hop].
    intros [= <-] Hh. simpl. intros [= ?]. specialize (Hb t Hh). lia.
  - intros j q. rewrite lookup_insert. case_decide; [|apply Hkp].
    intros [= <-]. done.
  - intros j q t. rewrite lookup_insert. case_decide; [|apply Hhp].
    intros [= <-]. done.
  - by rewrite lookup_insert_ne.
  - intros j q t. rewrite lookup_insert. case_decide; [|apply Hop].
    intros [= <-]. done.
  - intros j q. rewrite lookup_insert. case_decide; [|apply Hkp].
    intros [= <-]. done.
  - intros j q t. rewrite lookup_insert. case_decide; [|apply Hhp].
    intros [= <-]. done.
  - by rewrite lookup_insert_ne.
  - intros j q t. rewrite lookup_insert. case_decide; [|apply Hop].
    intros [= <-]. done.
Qed.

Lemma coll_requestAll (send : SendFn) (n : string) (h : option nat)
    (rs : list (Z * JSValue)) (exp : Z) (k handler : string) (payload : JSValue)
    (timeout total : option Z) (st : IPCHandler.State) :
  ipc_collecting n h rs exp st -> k <> n ->
  ipc_collecting n h rs exp
    (snd (IPCHandler.requestAll send k handler payload timeout total st)).
Proof.
  intros Hc Hne. unfold IPCHandler.requestAll.
  destruct (default 0 total =? 0); [done|].
  destruct (default 0 total - 1 <=? 0); [done|].
  destruct (send _); simpl; [|by apply coll_record_send].
  pose proof (coll_handle_bound n h rs exp st) as Hb. specialize (fun t => Hb t Hc).
  destruct Hc as [Hkp Hka Hhp Hha Hep Hea Ht Honly Hop Hoa Hsz Hlog].
  destruct (0 <? default 30000 timeout); simpl; split; simpl; try done.
  - intros j q. rewrite lookup_insert. case_decide; [|apply Hka].
    intros [= <-]. done.
  - intros j q t Hj Hq. specialize (Hhp _ _ _ Hj Hq). lia.
  - intros j q t. rewrite lookup_insert. case_decide.
    + intros [= <-] [= <-]. lia.
    + intros Hj Hq. specialize (Hha _ _ _ Hj Hq). lia.
  - by rewrite lookup_insert_ne.
  - intros t Hh. specialize (Hb t Hh). rewrite lookup_insert_ne by lia.
    by apply Ht.
  - intros t cb. rewrite lookup_insert. case_decide; [|apply Honly].
    intros [= <-]. done.
  - intros j q t Hj. rewrite lookup_insert. case_decide; [|by apply (Hoa j)].
    intros [= <-] Hh. simpl. intros [= ?]. specialize (Hb t Hh). lia.
  - intros j q. rewrite lookup_insert. case_decide; [|apply Hka].
    intros [= <-]. done.
  - intros j q t. rewrite lookup_insert. case_decide; [|apply Hha].
    intros [= <-]. done.
  - by rewrite lookup_insert_ne.
  - intros j q t Hj. rewrite lookup_insert. case_decide; [|by apply (Hoa j)].
    intros [= <-]. done.
Qed.

Lemma coll_fireTimer_own (n : string) (tid : nat) (rs : list (Z * JSValue))
    (exp : Z) (st : IPCHandler.State) :
  ipc_collecting n (Some tid) rs exp st ->
  ipc_idle n (IPCHandler.fireTimer tid st)
  /\ IPCHandler.outcomes n (IPCHandler.fireTimer tid st)
     = [IPCHandler.ResolvedAll (IPCHandler.collect rs)].
Proof.
  intros [Hkp Hka Hhp Hha Hep Hea Ht Honly Hop Hoa Hsz Hlog].
  unfold IPCHandler.fireTimer. rewrite (Ht tid eq_refl). simpl.
  rewrite Hea. simpl.
  split; [split|]; simpl; try done.
  - intros j q Hj. apply lookup_delete_Some in Hj as [_ Hj]. by apply Hka.
  - intros j q t Hj. apply lookup_delete_Some in Hj as [_ Hj]. by apply (Hha j).
  - apply lookup_delete_eq.
  - intros t cb Htc Hcb. apply lookup_delete_Some in Htc as [Hne Htc].
    apply Honly in Htc; [|done]. congruence.
  - rewrite outcomes_settle, decide_True by done.
    unfold IPCHandler.outcomes in *. simpl. by rewrite Hlog.
Qed.

Lemma coll_fireTimer_other (n : string) (h : option nat) (rs : list (Z * JSValue))
    (exp : Z) (t : nat) (st : IPCHandler.State) :
  ipc_collecting n h rs exp st -> h <> Some t ->
  ipc_collecting n h rs exp (IPCHandler.fireTimer t st).
Proof.
  intros [Hkp Hka Hhp Hha Hep Hea Ht Honly Hop Hoa Hsz Hlog] Hne.
  unfold IPCHandler.fireTimer.
  destruct (IPCHandler.timers st !! t) as [cb|] eqn:Htc; [|done].
  assert (Hcb : timer_nonce cb <> n).
  { intros Heq. by apply Honly in Htc. }
  assert (Hkeep : forall t', h = Some t' ->
            delete t (IPCHandler.timers st) !! t'
            = Some (IPCHandler.ResolvePartial n)).
  { intros t' Hh. rewrite lookup_delete_ne by congruence. by apply Ht. }
  destruct cb as [k|k]; simpl in *.
  - split; simpl; try done.
    + intros j q Hj. apply lookup_delete_Some in Hj as [_ Hj]. by apply Hkp.
    + intros j q t' Hj. apply lookup_delete_Some in Hj as [_ Hj]. by apply (Hhp j).
    + by rewrite lookup_delete_ne.
    + intros t' cb Htc'. apply lookup_delete_Some in Htc' as [_ Htc'].
      by apply Honly.
    + intros j q t' Hj. apply lookup_delete_Some in Hj as [_ Hj]. by apply (Hop j).
    + rewrite outcomes_settle_other by done. done.
  - destruct (IPCHandler.pendingAll st !! k) as [pending|] eqn:Hpa.
    + split; simpl; try done.
      * intros j q Hj. apply lookup_delete_Some in Hj as [_ Hj]. by apply Hka.
      * intros j q t' Hj. apply lookup_delete_Some in Hj as [_ Hj].
        by apply (Hha j).
      * by rewrite lookup_delete_ne.
      * intros t' cb Htc'. apply lookup_delete_Some in Htc' as [_ Htc'].
        by apply Honly.
      * intros j q t' Hj Hq. apply lookup_delete_Some in Hq as [_ Hq].
        by apply (Hoa j).
      * rewrite outcomes_settle_other by done. done.
    + split; simpl; try done.
      intros t' cb Htc'. apply lookup_delete_Some in Htc' as [_ Htc'].
      by apply Honly.
Qed.

Lemma coll_reply (send : SendFn) (n : string) (h : option nat)
    (rs : list (Z * JSValue)) (exp : Z) (k : string) (v : JSValue)
    (sc : option Z) (s : IPCHandler.Settlement) (st : IPCHandler.State) :
  ipc_collecting n h rs exp st ->
  let st' :=
    match IPCHandler.pendingAll st !! k, sc with
    | Some pending, Some src => IPCHandler.collectReply k pending src v st
    | _, _ => IPCHandler.settlePromise k s st
    end in
  let rs' :=
    match sc with
    | Some src => if bool_decide (k = n) then assoc_set src v rs else rs
    | None => rs
    end in
  ipc_collecting n h rs' exp st'
  \/ (ipc_idle n st'
      /\ IPCHandler.outcomes n st' = [IPCHandler.ResolvedAll (IPCHandler.collect rs')]
      /\ k = n /\ is_Some sc /\ exp <= Z.of_nat (length rs')).
Proof.
  intros Hc st' rs'. unfold st', rs'. clear st' rs'.
  destruct (decide (k = n)) as [->|Hne].
  - rewrite (ipc_coll_entry_a _ _ _ _ _ Hc).
    destruct sc as [src|]; [|left; by apply coll_settlePromise].
    rewrite bool_decide_eq_true_2 by done.
    destruct (coll_collectReply_own n h rs exp src v st Hc)
      as [[Hlt Hc']|(Hle & Hidle & Hout)]; [by left|].
    right. split; [exact Hidle|]. split; [exact Hout|].
    split; [done|]. split; [eauto|done].
  - left. destruct sc as [src|].
    + rewrite bool_decide_eq_false_2 by done.
      destruct (IPCHandler.pendingAll st !! k) as [pending|] eqn:Hpa.
      * by apply coll_collectReply_other.
      * by apply coll_settlePromise.
    + destruct (IPCHandler.pendingAll st !! k); by apply coll_settlePromise.
Qed.

Lemma coll_step (send : SendFn) (n : string) (h : option nat)
    (rs : list (Z * JSValue)) (exp : Z) (st : IPCHandler.State)
    (ev : IPCHandler.Event) :
  ipc_collecting n h rs exp st ->
  IPCHandler.registers n ev = false -> is_clearPending ev = false ->
  let st' := IPCHandler.step send st ev in
  let rs' := add_reply n rs ev in
  ((forall t, h = Some t -> ev <> IPCHandler.TimerFires t)
   /\ ipc_collecting n h rs' exp st')
  \/ (ipc_idle n st'
      /\ IPCHandler.outcomes n st' = [IPCHandler.ResolvedAll (IPCHandler.collect rs')]
      /\ ((is_Some (reply_entry n ev) /\ exp <= Z.of_nat (length rs'))
          \/ exists t, h = Some t /\ ev = IPCHandler.TimerFires t)).
Proof.
  intros Hc Hreg Hclear.
  destruct ev as [name fn|name|k hd d t|c k hd d t|k hd d t total|m src|t|];
    simpl in *; try discriminate.
  - left. split; [done|]. destruct Hc. split; done.
  - left. split; [done|]. destruct Hc. split; done.
  - left. split; [done|]. apply bool_decide_eq_false in Hreg.
    unfold IPCHandler.request.
    pose proof (coll_record_send n h rs exp (HandlerRequest k hd d) st Hc) as H1.
    destruct (send _); simpl; [|done]. by apply coll_createPromise.
  - left. split; [done|]. apply bool_decide_eq_false in Hreg.
    unfold IPCHandler.requestTo.
    pose proof (coll_record_send n h rs exp (HandlerRequestTo c k hd d) st Hc) as H1.
    destruct (send _); simpl; [|done]. by apply coll_createPromise.
  - left. split; [done|]. apply bool_decide_eq_false in Hreg.
    by apply coll_requestAll.
  - destruct m; simpl;
      try (left; split; [done|]; unfold add_reply; simpl; exact Hc).
    + left. split; [done|]. unfold add_reply. simpl.
      destruct (IPCHandler.handlers st !! handler) as [fn|];
        [|by apply coll_record_send].
      destruct (fn payload); [|by apply coll_record_send].
      destruct (send _); by repeat apply coll_record_send.
    + left. split; [done|]. unfold add_reply. simpl.
      destruct (IPCHandler.handlers st !! handler) as [fn|];
        [|by apply coll_record_send].
      destruct (fn payload); [|by apply coll_record_send].
      destruct (send _); by repeat apply coll_record_send.
    + destruct (coll_reply send n h rs exp nonce payload sourceCluster
                  (IPCHandler.Resolved payload) st Hc)
        as [Hc'|(Hidle & Hout & -> & [s ->] & Hle)].
      * left. split; [done|]. unfold add_reply. simpl.
        destruct sourceCluster as [s|]; [|exact Hc'].
        destruct (bool_decide (nonce = n)); exact Hc'.
      * right. unfold add_reply. simpl in *.
        rewrite bool_decide_eq_true_2 in * by done. simpl.
        split; [done|]. split; [done|]. left. split; [eauto|done].
    + destruct (coll_reply send n h rs exp nonce (JError message) sourceCluster
                  (IPCHandler.Rejected message) st Hc)
        as [Hc'|(Hidle & Hout & -> & [s ->] & Hle)].
      * left. split; [done|]. unfold add_reply. simpl.
        destruct sourceCluster as [s|]; [|exact Hc'].
        destruct (bool_decide (nonce = n)); exact Hc'.
      * right. unfold add_reply. simpl in *.
        rewrite bool_decide_eq_true_2 in * by done. simpl.
        split; [done|]. split; [done|]. left. split; [eauto|done].
  - destruct (decide (h = Some t)) as [->|Hne].
    + right. destruct (coll_fireTimer_own n t rs exp st Hc) as [H1 H2].
      split; [done|]. split; [done|]. right. eauto.
    + left. split; [congruence|]. by apply coll_fireTimer_other.
Qed.

Lemma received_snoc (n : string) (initial : list (Z * JSValue))
    (evs : list IPCHandler.Event) (ev : IPCHandler.Event) :
  received n initial (evs ++ [ev]) = add_reply n (received n initial evs) ev.
Proof. unfold received. by rewrite fold_left_app. Qed.

Lemma ipc_registrations_app (n : string) (a b : list IPCHandler.Event) :
  ipc_registrations n (a ++ b) = 0%nat ->
  ipc_registrations n a = 0%nat /\ ipc_registrations n b = 0%nat.
Proof. unfold ipc_registrations. rewrite filter_app, length_app. lia. Qed.

Lemma coll_run (send : SendFn) (n : string) (h : option nat) (exp : Z)
    (evs : list IPCHandler.Event) :
  forall (st : IPCHandler.State) (rs : list (Z * JSValue)),
    ipc_collecting n h rs exp st ->
    ipc_registrations n evs = 0%nat -> ipc_clears evs = 0%nat ->
    let st' := IPCHandler.run send st evs in
    ipc_collecting n h (received n rs evs) exp st'
    \/ exists prefix ev suffix,
         evs = prefix ++ ev :: suffix
         /\ ipc_idle n st'
         /\ IPCHandler.outcomes n st'
            = [IPCHandler.ResolvedAll
                 (IPCHandler.collect (received n rs (prefix ++ [ev])))]
         /\ Z.of_nat (length (received n rs prefix)) < exp
         /\ ((is_Some (reply_entry n ev)
              /\ exp <= Z.of_nat (length (received n rs (prefix ++ [ev]))))
             \/ exists t, h = Some t /\ ev = IPCHandler.TimerFires t).
Proof.
  induction evs as [|ev evs IH]; intros st rs Hc Hreg Hclr; simpl.
  { by left. }
  unfold ipc_registrations in Hreg. unfold ipc_clears in Hclr.
  destruct (IPCHandler.registers n ev) eqn:Hev.
  { rewrite filter_cons_True in Hreg by done. discriminate. }
  rewrite filter_cons_False in Hreg by (rewrite Hev; discriminate).
  destruct (is_clearPending ev) eqn:Hcl.
  { rewrite filter_cons_True in Hclr by done. discriminate. }
  rewrite filter_cons_False in Hclr by (rewrite Hcl; discriminate).
  pose proof (ipc_coll_size _ _ _ _ _ Hc) as Hsz.
  destruct (coll_step send n h rs exp st ev Hc Hev Hcl)
    as [[Hne Hc']|(Hidle & Hout & Hwhy)].
  - destruct (IH _ _ Hc' Hreg Hclr)
      as [Hp|(prefix & ev' & suffix & -> & Hi & Ho & Hlt & Hcase)].
    + by left.
    + right. exists (ev :: prefix), ev', suffix. done.
  - right. exists [], ev, evs.
    destruct (idle_run send n evs _ Hidle Hreg) as [Hi Ho].
    split; [done|]. split; [done|]. split; [by rewrite Ho|].
    split; [done|]. exact Hwhy.
Qed.

Lemma requestAll_starts (send : SendFn) (n handler : string) (payload : JSValue)
    (timeout total : option Z) (st : IPCHandler.State) :
  ipc_idle n st -> IPCHandler.outcomes n st = [] ->
  send (HandlerRequestAll n handler payload) = SendOk ->
  1 < default 0 total ->
  let initial := IPCHandler.initialResults handler payload st in
  let h := if 0 <? default 30000 timeout
           then Some (IPCHandler.next_timer st) else None in
  let exp := default 0 total - 1 + Z.of_nat (length initial) in
  let r := IPCHandler.requestAll send n handler payload timeout total st in
  fst r = Pending
  /\ ipc_collecting n h initial exp (snd r)
  /\ IPCHandler.sent (snd r)
     = IPCHandler.sent st ++ [HandlerRequestAll n handler payload].
Proof.
  intros [Hkp Hka Hhp Hha Hep Hea Ht] Hlog Hsend Htotal initial h exp r.
  unfold r, IPCHandler.requestAll. fold initial.
  destruct (Z.eqb_spec (default 0 total) 0) as [|_]; [lia|].
  destruct (Z.leb_spec (default 0 total - 1) 0) as [|_]; [lia|].
  rewrite Hsend. unfold h.
  destruct (0 <? default 30000 timeout); simpl;
    (split; [done|]); (split; [|done]); split; simpl; try done.
  - intros j q. rewrite lookup_insert. case_decide; [|apply Hka].
    intros [= <-]. done.
  - intros j q t Hj Hq. specialize (Hhp _ _ _ Hj Hq). lia.
  - intros j q t. rewrite lookup_insert. case_decide.
    + intros [= <-] [= <-]. lia.
    + intros Hj Hq. specialize (Hha _ _ _ Hj Hq). lia.
  - apply lookup_insert_eq.
  - intros t [= <-]. apply lookup_insert_eq.
  - intros t cb. rewrite lookup_insert. case_decide; [by intros _ _; f_equal|].
    intros Htc Hcb. by apply Ht in Htc.
  - intros j q t Hj [= <-] Hq. specialize (Hhp _ _ _ Hj Hq). lia.
  - intros j q t Hne. rewrite lookup_insert_ne by done.
    intros Hj [= <-] Hq. specialize (Hha _ _ _ Hj Hq). lia.
  - lia.
  - intros j q. rewrite lookup_insert. case_decide; [|apply Hka].
    intros [= <-]. done.
  - intros j q t. rewrite lookup_insert. case_decide; [|apply Hha].
    intros [= <-]. done.
  - apply lookup_insert_eq.
  - intros t cb Htc Hcb. by apply Ht in Htc.
  - lia.
Qed.

(** Facts on [assoc_set] and on the collection built from a result set. *)

Lemma assoc_set_keys {V : Type} (k : Z) (v : V) (m : list (Z * V)) :
  (assoc_set k v m).*1 = if bool_decide (k ∈ m.*1) then m.*1 else m.*1 ++ [k].
Proof.
  induction m as [|[k' v'] m IH].
  { by rewrite bool_decide_eq_false_2 by apply not_elem_of_nil. }
  cbn [assoc_set]. destruct (Z.eqb_spec k' k) as [->|Hne]; cbn [fmap list_fmap fst].
  - by rewrite bool_decide_eq_true_2 by left.
  - rewrite IH. case_bool_decide as Hin.
    + by rewrite bool_decide_eq_true_2 by (by right).
    + rewrite bool_decide_eq_false_2; [done|].
      intros [?|?]%elem_of_cons; [congruence|done].
Qed.

Lemma assoc_set_NoDup {V : Type} (k : Z) (v : V) (m : list (Z * V)) :
  NoDup m.*1 -> NoDup (assoc_set k v m).*1.
Proof.
  intros Hnd. rewrite assoc_set_keys. case_bool_decide as Hin; [done|].
  apply NoDup_app. split; [done|]. split; [|apply NoDup_singleton].
  intros x Hx Hk. apply list_elem_of_singleton in Hk. by subst.
Qed.

Lemma assoc_set_length {V : Type} (k : Z) (v : V) (m : list (Z * V)) :
  (length m <= length (assoc_set k v m) <= S (length m))%nat.
Proof.
  rewrite <- (length_fmap fst (assoc_set k v m)), assoc_set_keys.
  case_bool_decide; rewrite ?length_app, length_fmap; simpl; lia.
Qed.

Lemma get_collect_assoc_set (k : Z) (v : JSValue) (m : list (Z * JSValue)) :
  ResultCollection.get (IPCHandler.collect (assoc_set k v m)) k
  = Some (IPCHandler.to_result (k, v)).
Proof.
  assert (Hid : forall e, clusterId (IPCHandler.to_result e) = fst e).
  { intros e. unfold IPCHandler.to_result. by destruct (instanceof_Error (snd e)). }
  unfold ResultCollection.get, IPCHandler.collect.
  induction m as [|[k' v'] m IH]; simpl.
  { by rewrite Hid, Z.eqb_refl. }
  destruct (Z.eqb_spec k' k) as [->|Hne]; simpl.
  - by rewrite Hid, Z.eqb_refl.
  - rewrite Hid. simpl. destruct (Z.eqb_spec k' k); [done|]. exact IH.
Qed.

Lemma get_collect_assoc_set_ne (k j : Z) (v : JSValue) (m : list (Z * JSValue)) :
  k <> j ->
  ResultCollection.get (IPCHandler.collect (assoc_set k v m)) j
  = ResultCollection.get (IPCHandler.collect m) j.
Proof.
  intros Hkj.
  assert (Hid : forall e, clusterId (IPCHandler.to_result e) = fst e).
  { intros e. unfold IPCHandler.to_result. by destruct (instanceof_Error (snd e)). }
  unfold ResultCollection.get, IPCHandler.collect.
  induction m as [|[k' v'] m IH]; simpl.
  { rewrite Hid. simpl. by destruct (Z.eqb_spec k j). }
  destruct (Z.eqb_spec k' k) as [->|Hne]; simpl.
  - rewrite !Hid. simpl. by destruct (Z.eqb_spec k j).
  - rewrite !Hid. simpl. destruct (Z.eqb_spec k' j); [done|]. exact IH.
Qed.

Lemma received_NoDup (n : string) (evs : list IPCHandler.Event) :
  forall rs : list (Z * JSValue), NoDup rs.*1 -> NoDup (received n rs evs).*1.
Proof.
  induction evs as [|ev evs IH]; intros rs Hnd; [done|].
  simpl. apply IH. unfold add_reply.
  destruct (reply_entry n ev) as [[s v]|]; [by apply assoc_set_NoDup|done].
Qed.

Lemma initialResults_shape (handler : string) (payload : JSValue)
    (st : IPCHandler.State) :
  IPCHandler.initialResults handler payload st
  = match IPCHandler.handlers st !! handler with
    | Some fn =>
        [(-1, match fn payload with Returns v => v | Throws m => JError m end)]
    | None => []
    end.
Proof.
  unfold IPCHandler.initialResults.
  destruct (IPCHandler.handlers st !! handler) as [fn|]; [|done].
  by destruct (fn payload).
Qed.

Lemma initialResults_NoDup (handler : string) (payload : JSValue)
    (st : IPCHandler.State) :
  NoDup (IPCHandler.initialResults handler payload st).*1.
Proof.
  rewrite initialResults_shape.
  destruct (IPCHandler.handlers st !! handler);
    [apply NoDup_singleton|apply NoDup_nil_2].
Qed.

Lemma received_cons (n : string) (initial : list (Z * JSValue))
    (evs : list IPCHandler.Event) (ev : IPCHandler.Event) :
  received n initial (ev :: evs) = received n (add_reply n initial ev) evs.
Proof. done. Qed.

Lemma received_keys (n : string) (evs : list IPCHandler.Event) :
  forall (rs : list (Z * JSValue)) (k : Z),
    k ∈ (received n rs evs).*1 ->
    k ∈ rs.*1 \/ exists ev v, In ev evs /\ reply_entry n ev = Some (k, v).
Proof.
  induction evs as [|ev evs IH]; intros rs k Hk; [by left|].
  simpl in Hk. apply IH in Hk as [Hk|(ev' & v & Hin & Hre)].
  - unfold add_reply in Hk.
    destruct (reply_entry n ev) as [[s v]|] eqn:Hre; [|by left].
    simpl in Hk. rewrite assoc_set_keys in Hk.
    case_bool_decide; [by left|].
    apply elem_of_app in Hk as [Hk|Hk]; [by left|].
    apply list_elem_of_singleton in Hk as ->.
    right. exists ev, v. split; [by left|done].
  - right. exists ev', v. split; [by right|done].
Qed.

Lemma received_keeps_head (n : string) (x : JSValue)
    (evs : list IPCHandler.Event) :
  forall rest : list (Z * JSValue),
    (forall ev v, In ev evs -> reply_entry n ev <> Some (-1, v)) ->
    exists rest', received n ((-1, x) :: rest) evs = (-1, x) :: rest'.
Proof.
  induction evs as [|ev evs IH]; intros rest Hno; [by exists rest|].
  rewrite received_cons. unfold add_reply.
  destruct (reply_entry n ev) as [[s v]|] eqn:Hre.
  - assert (Hs : s <> -1).
    { intros ->. by apply (Hno ev v); [left|]. }
    replace (assoc_set (s, v).1 (s, v).2 ((-1, x) :: rest))
      with ((-1, x) :: assoc_set s v rest).
    2: { cbn [assoc_set fst snd]. by destruct (Z.eqb_spec (-1) s). }
    apply IH. intros ev' v' Hin. apply Hno. by right.
  - apply IH. intros ev' v' Hin. apply Hno. by right.
Qed.

Lemma responder_stamps_own_id (send : SendFn) (c : ClusterClient.t)
    (k h : string) (d : JSValue) :
  exists new,
    IPCHandler.sent
      (ClusterClient.ipc (ClusterClient.handleMessage send (HandlerRequestAll k h d) c))
    = IPCHandler.sent (ClusterClient.ipc c) ++ new
    /\ new <> []
    /\ Forall (fun m => is_HandlerResponse m || is_HandlerError m = true
                        /\ nonce_of m = k
                        /\ ClusterClient.data_sourceCluster m
                           = Some (ClusterClient.id c)) new.
Proof.
  simpl.
  destruct (IPCHandler.handlers (ClusterClient.ipc c) !! h) as [fn|]; simpl.
  - destruct (fn d) as [v|e]; simpl.
    + destruct (send _) as [|e]; simpl.
      * eexists [_]. split; [done|]. split; [done|]. by repeat constructor.
      * eexists [_; _]. rewrite <- app_assoc. split; [done|]. split; [done|].
        by repeat constructor.
    + eexists [_]. split; [done|]. split; [done|]. by repeat constructor.
  - eexists [_]. split; [done|]. split; [done|]. by repeat constructor.
Qed.

(** The trace of one broadcast, shared by the statements below. *)
Lemma requestAll_trace (send : SendFn) (hs : gmap string HandlerFn)
    (pre evs : list IPCHandler.Event) (n handler : string) (payload : JSValue)
    (timeout total : option Z) :
  ipc_registrations n (pre ++ evs) = 0%nat -> ipc_clears evs = 0%nat ->
  send (HandlerRequestAll n handler payload) = SendOk ->
  1 < default 0 total ->
  let st0 := IPCHandler.run send (IPCHandler.init hs) pre in
  let initial := IPCHandler.initialResults handler payload st0 in
  let r := IPCHandler.requestAll send n handler payload timeout total st0 in
  let st2 := IPCHandler.run send (snd r) evs in
  let h := if 0 <? default 30000 timeout
           then Some (IPCHandler.next_timer st0) else None in
  let exp := default 0 total - 1 + Z.of_nat (length initial) in
  fst r = Pending
  /\ ipc_collecting n h initial exp (snd r)
  /\ IPCHandler.sent (snd r)
     = IPCHandler.sent st0 ++ [HandlerRequestAll n handler payload]
  /\ (ipc_collecting n h (received n initial evs) exp st2
      \/ exists prefix ev suffix,
           evs = prefix ++ ev :: suffix
           /\ IPCHandler.outcomes n st2
              = [IPCHandler.ResolvedAll
                   (IPCHandler.collect (received n initial (prefix ++ [ev])))]
           /\ Z.of_nat (length (received n initial prefix)) < exp
           /\ ((is_Some (reply_entry n ev)
                /\ Z.of_nat (length (received n initial (prefix ++ [ev]))) = exp)
               \/ exists t, h = Some t /\ ev = IPCHandler.TimerFires t)).
Proof.
  intros Hreg Hclr Hsend Htotal st0 initial r st2 h exp.
  apply ipc_registrations_app in Hreg as [Hpre Hevs].
  destruct (idle_run send n pre _ (init_idle n hs) Hpre) as [Hidle Hout0].
  fold st0 in Hidle, Hout0.
  destruct (requestAll_starts send n handler payload timeout total st0
              Hidle Hout0 Hsend Htotal) as (Hr & Hc & Hsent).
  fold initial h exp r in Hr, Hc, Hsent.
  split; [done|]. split; [done|]. split; [done|].
  destruct (coll_run send n h exp evs _ _ Hc Hevs Hclr)
    as [Hp|(prefix & ev & suffix & Heq & _ & Ho & Hlt & Hwhy)]; [by left|].
  right. exists prefix, ev, suffix.
  split; [done|]. split; [done|]. split; [done|].
  destruct Hwhy as [[Hre Hle]|Ht]; [left|by right].
  split; [done|].
  rewrite received_snoc in *. unfold add_reply in *.
  destruct (reply_entry n ev) as [[s v]|]; [|by destruct Hre].
  pose proof (assoc_set_length s v (received n initial prefix)). simpl in *. lia.
Qed.

(** C2, as the claim states it, fails: [clearPending()] rejects the promise
    of a [requestAll] that is still waiting, with "IPC handler cleared". *)
Lemma requestAll_rejected_by_clearPending :
  let send := fun _ : IPCMessage => SendOk in
  let r := IPCHandler.requestAll send "n1" "stats" JNull (Some 1000) (Some 2)
             (IPCHandler.init ∅) in
  fst r = Pending
  /\ IPCHandler.outcomes "n1" (IPCHandler.clearPending (snd r))
     = [IPCHandler.Rejected "IPC handler cleared"].
Proof. split; vm_compute; reflexivity. Qed.

(** C2, amended.  A [requestAll] with a positive time-out (the default
    included), under a nonce of its own, in any state the handler can be in:
    - with no units ([totalClusters] absent or 0) it returns the empty
      collection at once; with a single unit it returns at once the
      collection of the local entry alone;
    - otherwise, if the transport rejects the request message the call
      rejects with the transport's error; if the transport accepts it the
      call is pending, and after any further history without
      [clearPending()]: either nothing was settled, fewer entries than
      expected have been received, the timer is armed and its firing
      resolves the call with exactly the entries received so far; or the
      call was resolved once, never rejected, with the entries received up
      to the event that resolved it, that event being the reply that
      completed the expected number of entries or the timer;
    - the entries have distinct keys, the expected number is one per remote
      unit plus the local one when the local handler is registered, and a
      HandlerError from unit [s] yields the entry
      [{clusterId: s, status: 'error', error: message}]. *)
Theorem requestAll_resolves_with_entries_received :
  forall (send : SendFn) (hs : gmap string HandlerFn)
         (pre evs : list IPCHandler.Event) (n handler : string)
         (payload : JSValue) (timeout total : option Z),
    0 < default 30000 timeout ->
    ipc_registrations n (pre ++ evs) = 0%nat -> ipc_clears evs = 0%nat ->
    let st0 := IPCHandler.run send (IPCHandler.init hs) pre in
    let msg := HandlerRequestAll n handler payload in
    let initial := IPCHandler.initialResults handler payload st0 in
    let r := IPCHandler.requestAll send n handler payload timeout total st0 in
    let st2 := IPCHandler.run send (snd r) evs in
    let tid := IPCHandler.next_timer st0 in
    let exp := default 0 total - 1 + Z.of_nat (length initial) in
    (default 0 total = 0 -> r = (Returned [], st0))
    /\ (default 0 total <> 0 -> default 0 total <= 1 ->
        r = (Returned (IPCHandler.collect initial), st0))
    /\ (1 < default 0 total -> forall e, send msg = SendFailed e -> fst r = Failed e)
    /\ (1 < default 0 total -> send msg = SendOk ->
        fst r = Pending
        /\ ((IPCHandler.outcomes n st2 = []
             /\ Z.of_nat (length (received n initial evs)) < exp
             /\ IPCHandler.timers st2 !! tid = Some (IPCHandler.ResolvePartial n)
             /\ IPCHandler.outcomes n (IPCHandler.fireTimer tid st2)
                = [IPCHandler.ResolvedAll
                     (IPCHandler.collect (received n initial evs))])
            \/ exists prefix ev suffix,
                 evs = prefix ++ ev :: suffix
                 /\ IPCHandler.outcomes n st2
                    = [IPCHandler.ResolvedAll
                         (IPCHandler.collect (received n initial (prefix ++ [ev])))]
                 /\ Z.of_nat (length (received n initial prefix)) < exp
                 /\ ((is_Some (reply_entry n ev)
                      /\ Z.of_nat (length (received n initial (prefix ++ [ev])))
                         = exp)
                     \/ ev = IPCHandler.TimerFires tid)))
    /\ (forall evs', NoDup (received n initial evs').*1)
    /\ (Z.of_nat (length initial)
        = if bool_decide (is_Some (IPCHandler.handlers st0 !! handler))
          then 1 else 0)
    /\ (forall evs' s m src,
          ResultCollection.get
            (IPCHandler.collect
               (received n initial
                  (evs' ++ [IPCHandler.Incoming (HandlerError n m (Some s)) src]))) s
          = Some (mkResult s error JUndefined (Some m))).
Proof.
  intros send hs pre evs n handler payload timeout total Hpos Hreg Hclr
    st0 msg initial r st2 tid exp.
  split; [|split; [|split; [|split; [|split; [|split]]]]].
  - intros H0. unfold r, IPCHandler.requestAll. by rewrite H0.
  - intros Hne Hle. unfold r, IPCHandler.requestAll.
    destruct (Z.eqb_spec (default 0 total) 0); [done|].
    destruct (Z.leb_spec (default 0 total - 1) 0); [done|lia].
  - intros Htotal e He. unfold r, IPCHandler.requestAll.
    destruct (Z.eqb_spec (default 0 total) 0); [lia|].
    destruct (Z.leb_spec (default 0 total - 1) 0); [lia|].
    fold msg. by rewrite He.
  - intros Htotal Hsend.
    destruct (requestAll_trace send hs pre evs n handler payload timeout total
                Hreg Hclr Hsend Htotal) as (Hr & _ & _ & Hrun).
    fold st0 initial r st2 exp in Hr, Hrun.
    destruct (Z.ltb_spec 0 (default 30000 timeout)) as [_|]; [|lia].
    fold tid in Hrun.
    split; [done|].
    destruct Hrun as [Hc|(prefix & ev & suffix & Heq & Ho & Hlt & Hwhy)].
    + left. split; [apply (ipc_coll_log _ _ _ _ _ Hc)|].
      split; [apply (ipc_coll_size _ _ _ _ _ Hc)|].
      split; [by apply (ipc_coll_timer _ _ _ _ _ Hc)|].
      by destruct (coll_fireTimer_own n tid _ exp st2 Hc).
    + right. exists prefix, ev, suffix.
      split; [done|]. split; [done|]. split; [done|].
      destruct Hwhy as [?|(t & [= <-] & ->)]; [by left|by right].
  - intros evs'. apply received_NoDup, initialResults_NoDup.
  - unfold initial. rewrite initialResults_shape.
    destruct (IPCHandler.handlers st0 !! handler).
    + by rewrite bool_decide_eq_true_2 by eauto.
    + rewrite bool_decide_eq_false_2; [done|]. by intros [? ?].
  - intros evs' s m src. rewrite received_snoc. unfold add_reply. simpl.
    rewrite bool_decide_eq_true_2 by done. simpl.
    by rewrite get_collect_assoc_set.
Qed.

Lemma requestAll_resolves_with_entries_received_witness :
  let send := fun _ : IPCMessage => SendOk in
  let hs : gmap string HandlerFn := {[ "stats"%string := fun _ => Returns (JNum 5) ]} in
  let evs :=
    [IPCHandler.Incoming (HandlerResponse "n1" (JNum 7) (Some 1)) None;
     IPCHandler.Incoming (HandlerError "n1" "boom" (Some 2)) None;
     IPCHandler.TimerFires 0;
     IPCHandler.Incoming (HandlerResponse "n1" (JNum 9) (Some 3)) None] in
  let r := IPCHandler.requestAll send "n1" "stats" JNull (Some 1000) (Some 4)
             (IPCHandler.init hs) in
  fst r = Pending
  /\ IPCHandler.outcomes "n1" (IPCHandler.run send (snd r) evs)
     = [IPCHandler.ResolvedAll
          [mkResult (-1) ok (JNum 5) None; mkResult 1 ok (JNum 7) None;
           mkResult 2 error JUndefined (Some "boom"%string)]].
Proof.
  intros send hs evs r.
  destruct (requestAll_resolves_with_entries_received
              send hs [] evs "n1" "stats" JNull (Some 1000) (Some 4)
              ltac:(simpl; lia) eq_refl eq_refl) as (_ & _ & _ & H & _).
  destruct (H ltac:(simpl; lia) eq_refl) as [Hp _].
  split; [exact Hp|]. vm_compute. reflexivity.
Defined.

(** C3, as the claim states it, fails.  Unit 0 of a fleet of two calls
    [requestAll]; unit 1 answers, stamping its reply with its own id.  The
    collection unit 0 obtains holds the reply of unit 1 under key 1, but its
    own result is under key -1: [get(0)], the caller's unit id, finds
    nothing. *)
Lemma requestAll_local_entry_not_under_unit_id :
  let send := fun _ : IPCMessage => SendOk in
  let unit0 :=
    {| ClusterClient.id := 0; ClusterClient.ClusterCount := 2;
       ClusterClient.ipc :=
         IPCHandler.init {[ "count"%string := fun _ => Returns (JNum 5) ]} |} in
  let unit1 :=
    {| ClusterClient.id := 1; ClusterClient.ClusterCount := 2;
       ClusterClient.ipc :=
         IPCHandler.init {[ "count"%string := fun _ => Returns (JNum 7) ]} |} in
  let calling := snd (ClusterClient.requestAll send "n1" "count" JNull None unit0) in
  let answering :=
    ClusterClient.handleMessage send (HandlerRequestAll "n1" "count" JNull) unit1 in
  let reply := HandlerResponse "n1" (JNum 7) (Some 1) in
  let resolved := ClusterClient.handleMessage send reply calling in
  let rc := [mkResult (-1) ok (JNum 5) None; mkResult 1 ok (JNum 7) None] in
  IPCHandler.sent (ClusterClient.ipc answering) = [reply]
  /\ IPCHandler.outcomes "n1" (ClusterClient.ipc resolved)
     = [IPCHandler.ResolvedAll rc]
  /\ ResultCollection.get rc (ClusterClient.id unit0) = None
  /\ ResultCollection.get rc (ClusterClient.id unit1)
     = Some (mkResult 1 ok (JNum 7) None)
  /\ ResultCollection.get rc (-1) = Some (mkResult (-1) ok (JNum 5) None).
Proof. repeat split; vm_compute; reflexivity. Qed.

(** C3, amended.  A [requestAll] under a nonce of its own, in any state the
    handler can be in:
    - with [totalClusters] absent or 0 it returns the empty collection at
      once and runs no handler;
    - otherwise the caller's own handler, if registered, is run in-process
      and its result (or the Error made from what it threw) is stored under
      the key -1: with a single unit the call returns at once the collection
      of that entry alone; with more units, once the transport has accepted
      the HandlerRequestAll, that entry is the whole result set of the
      pending call before any reply is processed, and the only message sent
      is the HandlerRequestAll itself;
    - a collection the call is resolved with is built from the entries
      received up to some point of the history;
    - every key of such a result set is -1, the key of the seeded local
      entry, or the [sourceCluster] of a reply that was processed;
    - [get(-1)] finds the local entry (units have non-negative ids, so no
      reply claims -1), and [get(s)] finds the entry of the latest reply
      from [s];
    - a unit answering a HandlerRequestAll stamps each reply with its own
      id and the nonce of the request. *)
Theorem requestAll_seeds_local_entry_under_minus_one :
  forall (send : SendFn) (hs : gmap string HandlerFn)
         (pre evs : list IPCHandler.Event) (n handler : string)
         (payload : JSValue) (timeout total : option Z),
    ipc_registrations n (pre ++ evs) = 0%nat -> ipc_clears evs = 0%nat ->
    let st0 := IPCHandler.run send (IPCHandler.init hs) pre in
    let initial := IPCHandler.initialResults handler payload st0 in
    let r := IPCHandler.requestAll send n handler payload timeout total st0 in
    let st2 := IPCHandler.run send (snd r) evs in
    (default 0 total = 0 -> r = (Returned [], st0))
    /\ initial
       = match IPCHandler.handlers st0 !! handler with
         | Some fn =>
             [(-1, match fn payload with Returns v => v | Throws m => JError m end)]
         | None => []
         end
    /\ (default 0 total <> 0 -> default 0 total <= 1 ->
        r = (Returned (IPCHandler.collect initial), st0))
    /\ (1 < default 0 total ->
        send (HandlerRequestAll n handler payload) = SendOk ->
        fst r = Pending
        /\ (exists p, IPCHandler.pendingAll (snd r) !! n = Some p
                      /\ IPCHandler.results p = initial)
        /\ IPCHandler.sent (snd r)
           = IPCHandler.sent st0 ++ [HandlerRequestAll n handler payload]
        /\ (forall rc, In (IPCHandler.ResolvedAll rc) (IPCHandler.outcomes n st2) ->
              exists processed rest,
                evs = processed ++ rest
                /\ rc = IPCHandler.collect (received n initial processed)))
    /\ (forall processed k,
          k ∈ (received n initial processed).*1 ->
          (k = -1 /\ is_Some (IPCHandler.handlers st0 !! handler))
          \/ exists ev v, In ev processed /\ reply_entry n ev = Some (k, v))
    /\ (forall processed e,
          head initial = Some e ->
          (forall ev v, In ev processed -> reply_entry n ev <> Some (-1, v)) ->
          ResultCollection.get
            (IPCHandler.collect (received n initial processed)) (-1)
          = Some (IPCHandler.to_result e))
    /\ (forall processed ev s v,
          reply_entry n ev = Some (s, v) ->
          ResultCollection.get
            (IPCHandler.collect (received n initial (processed ++ [ev]))) s
          = Some (IPCHandler.to_result (s, v)))
    /\ (forall (c : ClusterClient.t) k h d,
          exists new,
            IPCHandler.sent
              (ClusterClient.ipc
                 (ClusterClient.handleMessage send (HandlerRequestAll k h d) c))
            = IPCHandler.sent (ClusterClient.ipc c) ++ new
            /\ new <> []
            /\ Forall (fun m => is_HandlerResponse m || is_HandlerError m = true
                                /\ nonce_of m = k
                                /\ ClusterClient.data_sourceCluster m
                                   = Some (ClusterClient.id c)) new).
Proof.
  intros send hs pre evs n handler payload timeout total Hreg Hclr
    st0 initial r st2.
  assert (Hshape := initialResults_shape handler payload st0).
  fold initial in Hshape.
  split.
  { intros H0. unfold r, IPCHandler.requestAll. by rewrite H0. }
  split; [exact Hshape|].
  split.
  { intros Hne Hle. unfold r, IPCHandler.requestAll.
    destruct (Z.eqb_spec (default 0 total) 0); [done|].
    destruct (Z.leb_spec (default 0 total - 1) 0); [done|lia]. }
  split.
  { intros Htotal Hsend.
    destruct (requestAll_trace send hs pre evs n handler payload timeout total
                Hreg Hclr Hsend Htotal) as (Hr & Hc & Hsent & Hrun).
    fold st0 initial r st2 in Hr, Hc, Hsent, Hrun.
    split; [exact Hr|].
    split; [eexists; split; [apply (ipc_coll_entry_a _ _ _ _ _ Hc)|done]|].
    split; [exact Hsent|].
    intros rc Hin.
    destruct Hrun as [Hp|(prefix & ev & suffix & Heq & Ho & _)].
    - rewrite (ipc_coll_log _ _ _ _ _ Hp) in Hin. destruct Hin.
    - rewrite Ho in Hin. destruct Hin as [[= <-]|[]].
      exists (prefix ++ [ev]), suffix. split; [|done].
      by rewrite <- app_assoc. }
  split.
  { intros processed k Hk.
    apply received_keys in Hk as [Hk|Hk]; [left|by right].
    rewrite Hshape in Hk.
    destruct (IPCHandler.handlers st0 !! handler) as [fn|].
    - apply list_elem_of_singleton in Hk. eauto.
    - by apply not_elem_of_nil in Hk. }
  split.
  { intros processed e He Hno. rewrite Hshape in *.
    destruct (IPCHandler.handlers st0 !! handler) as [fn|]; [|discriminate].
    injection He as <-.
    destruct (received_keeps_head n
                (match fn payload with Returns v => v | Throws m => JError m end)
                processed [] Hno) as [rest' ->].
    unfold ResultCollection.get, IPCHandler.collect. simpl.
    unfold IPCHandler.to_result at 1. simpl.
    by destruct (instanceof_Error _). }
  split.
  { intros processed ev s v Hre. rewrite received_snoc. unfold add_reply.
    rewrite Hre. simpl. apply get_collect_assoc_set. }
  intros c k h d. apply responder_stamps_own_id.
Qed.

Lemma requestAll_seeds_local_entry_under_minus_one_witness :
  let send := fun _ : IPCMessage => SendOk in
  let hs : gmap string HandlerFn := {[ "count"%string := fun _ => Returns (JNum 5) ]} in
  let evs := [IPCHandler.Incoming (HandlerResponse "n1" (JNum 7) (Some 1)) None] in
  let r := IPCHandler.requestAll send "n1" "count" JNull None (Some 2)
             (IPCHandler.init hs) in
  IPCHandler.sent (snd r) = [HandlerRequestAll "n1" "count" JNull]
  /\ ResultCollection.get
       (IPCHandler.collect (received "n1" [(-1, JNum 5)] evs)) (-1)
     = Some (mkResult (-1) ok (JNum 5) None)
  /\ ResultCollection.get
       (IPCHandler.collect (received "n1" [(-1, JNum 5)] evs)) 1
     = Some (mkResult 1 ok (JNum 7) None).
Proof.
  intros send hs evs r.
  destruct (requestAll_seeds_local_entry_under_minus_one
              send hs [] evs "n1" "count" JNull None (Some 2) eq_refl eq_refl)
    as (_ & _ & _ & Hcall & _ & Hlocal & Hremote & _).
  destruct (Hcall ltac:(simpl; lia) eq_refl) as (_ & _ & Hsent & _).
  split; [exact Hsent|]. split.
  - apply (Hlocal evs (-1, JNum 5) eq_refl).
    intros ev v [<-|[]]. vm_compute. discriminate.
  - apply (Hremote [] (IPCHandler.Incoming (HandlerResponse "n1" (JNum 7) (Some 1)) None)
             1 (JNum 7) eq_refl).
Defined.

(** * Further properties of the modelled code *)

(** ** ResultCollection: counters, errors, lookup and total *)



Lemma errorCount_app (l1 l2 : ResultCollection.t) :
  ResultCollection.errorCount (l1 ++ l2)
  = (ResultCollection.errorCount l1 + ResultCollection.errorCount l2)%nat.
Proof.
  unfold ResultCollection.errorCount. by rewrite filter_app, length_app.
Qed.

Lemma counts_cons (r : ClusterResult) (l : ResultCollection.t) :
  ResultCollection.successCount (r :: l)
  = ((if is_ok (status r) then 1 else 0) + ResultCollection.successCount l)%nat
  /\ ResultCollection.errorCount (r :: l)
     = ((if is_ok (status r) then 0 else 1) + ResultCollection.errorCount l)%nat.
Proof.
  unfold ResultCollection.successCount, ResultCollection.errorCount.
  destruct (status r) eqn:Hs.
  - rewrite filter_cons_True by (by rewrite Hs).
    rewrite filter_cons_False by (rewrite Hs; discriminate). done.
  - rewrite filter_cons_False by (rewrite Hs; discriminate).
    rewrite filter_cons_True by (by rewrite Hs). done.
Qed.

Lemma size_counts (rc : ResultCollection.t) :
  ResultCollection.size rc
  = (ResultCollection.successCount rc + ResultCollection.errorCount rc)%nat.
Proof.
  induction rc as [|r rc IH]; [done|].
  destruct (counts_cons r rc) as [-> ->].
  change (ResultCollection.size (r :: rc)) with (S (ResultCollection.size rc)).
  rewrite IH. destruct (is_ok (status r)); lia.
Qed.

Lemma errors_length (rc : ResultCollection.t) :
  length (ResultCollection.errors rc) = ResultCollection.errorCount rc.
Proof.
  unfold ResultCollection.errors, ResultCollection.errorCount.
  by rewrite length_map.
Qed.

(** X1.  Every entry of a ResultCollection is counted by exactly one of
    [successCount] and [errorCount]: the two add up to [size].  [errors()]
    has one element per counted error, and [values()] never more elements
    than there are entries that are no errors. *)
Theorem size_is_successCount_plus_errorCount :
  forall rc : ResultCollection.t,
    ResultCollection.size rc
    = (ResultCollection.successCount rc + ResultCollection.errorCount rc)%nat
    /\ length (ResultCollection.errors rc) = ResultCollection.errorCount rc
    /\ (length (ResultCollection.values rc)
        <= ResultCollection.size rc - ResultCollection.errorCount rc)%nat.
Proof.
  intros rc. split; [apply size_counts|]. split; [apply errors_length|].
  pose proof (values_le_successCount rc). pose proof (size_counts rc). lia.
Qed.

(** X2.  [allOk()] is true exactly when the collection holds no error
    entry: when [errors()] is empty, when [errorCount] is 0, when
    [successCount] equals [size].  The empty collection (what [requestAll]
    returns without any cluster) is all ok. *)
Theorem allOk_iff_no_errors :
  forall rc : ResultCollection.t,
    (ResultCollection.allOk rc = true <-> ResultCollection.errors rc = [])
    /\ (ResultCollection.allOk rc = true <-> ResultCollection.errorCount rc = 0%nat)
    /\ (ResultCollection.allOk rc = true
        <-> ResultCollection.successCount rc = ResultCollection.size rc)
    /\ ResultCollection.allOk [] = true.
Proof.
  intros rc.
  assert (Hcount : ResultCollection.allOk rc = true
                   <-> ResultCollection.errorCount rc = 0%nat).
  { induction rc as [|r rc IH]; [done|].
    destruct (counts_cons r rc) as [_ ->].
    change (ResultCollection.allOk (r :: rc))
      with (is_ok (status r) && ResultCollection.allOk rc).
    rewrite andb_true_iff, IH. destruct (is_ok (status r)); split.
    - intros [_ H]. lia.
    - intros H. split; [done|lia].
    - intros [H _]. discriminate.
    - intros H. lia. }
  split; [|split; [exact Hcount|split; [|done]]].
  - rewrite Hcount, <- errors_length. split.
    + by intros H%length_zero_iff_nil.
    + by intros ->.
  - rewrite Hcount, (size_counts rc). lia.
Qed.

(** X3.  [errors()] lists the error entries in the order of the collection,
    each under its own cluster id, and never with an empty message: an entry
    whose [error] is absent or the empty string is reported as
    'Unknown error', any other message is reported as it is.  Nothing else
    is listed: every element stems from an entry with status 'error'. *)
Theorem errors_never_carry_an_empty_message :
  forall rc : ResultCollection.t,
    map fst (ResultCollection.errors rc)
    = map clusterId (filter (fun r => is_error (status r) = true) rc)
    /\ (forall id m, In (id, m) (ResultCollection.errors rc) ->
          m <> ""%string
          /\ exists r, In r rc /\ status r = error /\ clusterId r = id)
    /\ (forall r m, In r rc -> status r = error -> error_msg r = Some m ->
          m <> ""%string -> In (clusterId r, m) (ResultCollection.errors rc))
    /\ (forall r, In r rc -> status r = error ->
          error_msg r = None \/ error_msg r = Some ""%string ->
          In (clusterId r, "Unknown error"%string) (ResultCollection.errors rc)).
Proof.
  intros rc. unfold ResultCollection.errors.
  split; [by rewrite map_map|]. split.
  { intros id m He. apply in_map_iff in He as (r & Heq & Hr).
    apply list_elem_of_In, list_elem_of_filter in Hr as [Hs Hr].
    injection Heq as <- <-. split.
    - destruct (error_msg r) as [[|c m]|]; done.
    - exists r. split; [by apply list_elem_of_In|].
      split; [by destruct (status r)|done]. }
  split.
  { intros r m Hin Hs Hm Hne. apply in_map_iff. exists r. split.
    - rewrite Hm. destruct m; done.
    - apply list_elem_of_In, list_elem_of_filter. split.
      + by rewrite Hs.
      + by apply list_elem_of_In. }
  intros r Hin Hs Hm. apply in_map_iff. exists r. split.
  - by destruct Hm as [-> | ->].
  - apply list_elem_of_In, list_elem_of_filter. split.
    + by rewrite Hs.
    + by apply list_elem_of_In.
Qed.

(** X4.  [get(id)] returns the first entry stored under the id, whatever
    comes after it; it returns undefined exactly when no entry of the
    collection carries the id. *)
Theorem get_returns_first_entry_of_id :
  forall (rc : ResultCollection.t) (id : Z),
    match ResultCollection.get rc id with
    | Some r =>
        exists before after,
          rc = before ++ r :: after
          /\ clusterId r = id
          /\ Forall (fun x => clusterId x <> id) before
    | None => Forall (fun x => clusterId x <> id) rc
    end.
Proof.
  intros rc id. unfold ResultCollection.get.
  induction rc as [|x rc IH]; simpl; [done|].
  destruct (Z.eqb_spec (clusterId x) id) as [Heq|Hne].
  - exists [], rc. done.
  - destruct (List.find (fun r => clusterId r =? id) rc) as [r|].
    + destruct IH as (before & after & -> & Hid & Hb).
      exists (x :: before), after. split; [done|]. split; [done|].
      by constructor.
    + by constructor.
Qed.



(** ** StoreManager: reads, sweeps, deletions and overwrites *)

Lemma expired_mono (e : StoreEntry) (t t' : Z) :
  t <= t' -> StoreManager.expired e t = true -> StoreManager.expired e t' = true.
Proof.
  unfold StoreManager.expired. destruct (expiresAt e) as [x|]; [|done].
  intros Ht. rewrite !andb_true_iff. intros [Hn Hx]. split; [done|].
  apply Z.ltb_lt in Hx. apply Z.ltb_lt. lia.
Qed.

Lemma get_has_same_map (m : gmap string StoreEntry) (k : string) (now : Z) :
  snd (StoreManager.get m k now) = snd (StoreManager.has m k now).
Proof.
  unfold StoreManager.get, StoreManager.has.
  destruct (m !! k) as [e|]; [|done]. by destruct (StoreManager.expired e now).
Qed.

Lemma has_spec (m : gmap string StoreEntry) (k : string) (now : Z) :
  StoreManager.has m k now
  = match m !! k with
    | Some e => if StoreManager.expired e now then (false, delete k m) else (true, m)
    | None => (false, m)
    end.
Proof. done. Qed.

(** X6.  [get] and [has] agree and touch nothing but their own key: both
    leave the same map behind, which differs from the one before at most in
    the key asked for; [has] answers true exactly when the key is still
    stored afterwards, and then [get] returns the stored value and changes
    nothing; when [has] answers false, [get] returns undefined. *)
Theorem reads_agree_and_touch_only_their_key :
  forall (m : gmap string StoreEntry) (k : string) (now : Z),
    snd (StoreManager.get m k now) = snd (StoreManager.has m k now)
    /\ (forall j, j <> k -> snd (StoreManager.get m k now) !! j = m !! j)
    /\ (fst (StoreManager.has m k now) = true
        <-> is_Some (snd (StoreManager.has m k now) !! k))
    /\ (fst (StoreManager.has m k now) = true ->
        exists e, m !! k = Some e
                  /\ StoreManager.get m k now = (value e, m)
                  /\ StoreManager.has m k now = (true, m))
    /\ (fst (StoreManager.has m k now) = false ->
        fst (StoreManager.get m k now) = JUndefined
        /\ snd (StoreManager.get m k now) !! k = None).
Proof.
  intros m k now. split; [apply get_has_same_map|].
  unfold StoreManager.get, StoreManager.has.
  destruct (m !! k) as [e|] eqn:Hk.
  - destruct (StoreManager.expired e now) eqn:He; simpl.
    + split; [intros j Hj; by rewrite lookup_delete_ne|].
      rewrite lookup_delete_eq. split; [split; [done|by intros [? ?]]|].
      split; [done|]. done.
    + split; [done|]. rewrite Hk. split; [split; [eauto|done]|].
      split; [eauto|done].
  - simpl. split; [done|]. rewrite Hk.
    split; [split; [done|by intros [? ?]]|]. split; done.
Qed.

(** X7.  The periodic sweep cannot be observed through reads: after a sweep
    at [now], every [get] and [has] made at [now] or later answers as it
    would have without the sweep.  A sweep only removes entries, and only
    expired ones; sweeping again at the same or a later time gives what the
    later sweep alone gives. *)
Theorem cleanup_is_not_observable :
  forall (m : gmap string StoreEntry) (k : string) (now now' : Z),
    now <= now' ->
    fst (StoreManager.get (StoreManager.cleanup m now) k now')
    = fst (StoreManager.get m k now')
    /\ fst (StoreManager.has (StoreManager.cleanup m now) k now')
       = fst (StoreManager.has m k now')
    /\ StoreManager.cleanup (StoreManager.cleanup m now) now'
       = StoreManager.cleanup m now'
    /\ (forall e, StoreManager.cleanup m now !! k = Some e ->
          m !! k = Some e /\ StoreManager.expired e now = false)
    /\ (forall e, m !! k = Some e -> StoreManager.expired e now = false ->
          StoreManager.cleanup m now !! k = Some e).
Proof.
  intros m k now now' Hle.
  assert (Hread : forall j,
            match StoreManager.cleanup m now !! j with
            | Some e => m !! j = Some e /\ StoreManager.expired e now = false
            | None => match m !! j with
                      | Some e => StoreManager.expired e now' = true
                      | None => True
                      end
            end).
  { intros j. rewrite cleanup_lookup. destruct (m !! j) as [e|]; [|done].
    destruct (StoreManager.expired e now) eqn:He; [|done].
    by apply (expired_mono e now now'). }
  split; [|split; [|split; [|split]]].
  - unfold StoreManager.get. specialize (Hread k).
    destruct (StoreManager.cleanup m now !! k) as [e|].
    + destruct Hread as [-> _]. by destruct (StoreManager.expired e now').
    + destruct (m !! k) as [e|]; [|done]. by rewrite Hread.
  - unfold StoreManager.has. specialize (Hread k).
    destruct (StoreManager.cleanup m now !! k) as [e|].
    + destruct Hread as [-> _]. by destruct (StoreManager.expired e now').
    + destruct (m !! k) as [e|]; [|done]. by rewrite Hread.
  - apply map_eq. intros j. rewrite !cleanup_lookup.
    destruct (m !! j) as [e|]; [|done].
    destruct (StoreManager.expired e now) eqn:He; [|done].
    by rewrite (expired_mono e now now').
  - intros e He. specialize (Hread k). by rewrite He in Hread.
  - intros e Hk He. by rewrite cleanup_lookup, Hk, He.
Qed.

Lemma cleanup_is_not_observable_witness :
  let m := StoreManager.set (StoreManager.set ∅ "a" (JNum 1) (Some 10) 100)
             "b" (JNum 2) None 100 in
  fst (StoreManager.get (StoreManager.cleanup m 200) "a" 300) = JUndefined
  /\ fst (StoreManager.get (StoreManager.cleanup m 200) "b" 300) = JNum 2.
Proof.
  intros m.
  destruct (cleanup_is_not_observable m "a" 200 300 ltac:(lia)) as (Ha & _).
  destruct (cleanup_is_not_observable m "b" 200 300 ltac:(lia)) as (Hb & _).
  split; [exact Ha|exact Hb].
Defined.

(** X8.  [delete] answers whether the key was stored, expired or not, and
    afterwards the key is gone: [get] returns undefined, [has] and a second
    [delete] return false, other keys are untouched.  For an expired entry
    no read has evicted yet, [has] says false while [delete] says true; once
    a read evicted it, [delete] says false too. *)
Theorem delete_reports_stored_entries :
  forall (m : gmap string StoreEntry) (k : string) (now : Z),
    let m' := snd (StoreManager.delete m k) in
    (fst (StoreManager.delete m k) = true <-> is_Some (m !! k))
    /\ StoreManager.get m' k now = (JUndefined, m')
    /\ StoreManager.has m' k now = (false, m')
    /\ StoreManager.delete m' k = (false, m')
    /\ (forall j, j <> k -> m' !! j = m !! j)
    /\ (forall e, m !! k = Some e -> StoreManager.expired e now = true ->
          fst (StoreManager.has m k now) = false
          /\ fst (StoreManager.delete m k) = true
          /\ fst (StoreManager.delete (snd (StoreManager.has m k now)) k) = false).
Proof.
  intros m k now m'. unfold m', StoreManager.delete. simpl.
  split; [apply bool_decide_eq_true|].
  unfold StoreManager.get, StoreManager.has, StoreManager.delete.
  rewrite !lookup_delete_eq.
  split; [done|]. split; [done|]. split.
  { rewrite bool_decide_eq_false_2 by (by intros [? ?]).
    by rewrite delete_delete_eq. }
  split; [intros j Hj; by rewrite lookup_delete_ne|].
  intros e Hk He. rewrite Hk, He. cbn [fst snd]. rewrite lookup_delete_eq.
  split; [done|]. split.
  - apply bool_decide_eq_true_2. eauto.
  - apply bool_decide_eq_false_2. by intros [? ?].
Qed.

(** X9.  A [set] replaces whatever the key held, time to live included:
    two writes to one key leave what the second alone leaves, so writing a
    key again without ttl makes it permanent.  Writes to different keys do
    not interfere. *)
Theorem set_replaces_value_and_expiry :
  forall (m : gmap string StoreEntry) (k : string) (v1 v2 : JSValue)
         (ttl1 ttl2 : option Z) (t1 t2 : Z),
    StoreManager.set (StoreManager.set m k v1 ttl1 t1) k v2 ttl2 t2
    = StoreManager.set m k v2 ttl2 t2
    /\ (forall t, fst (StoreManager.get
                         (StoreManager.set (StoreManager.set m k v1 ttl1 t1)
                            k v2 None t2) k t) = v2)
    /\ (forall j, j <> k ->
          StoreManager.set (StoreManager.set m k v1 ttl1 t1) j v2 ttl2 t2
          = StoreManager.set (StoreManager.set m j v2 ttl2 t2) k v1 ttl1 t1)
    /\ (forall j t, j <> k ->
          fst (StoreManager.get (StoreManager.set m k v1 ttl1 t1) j t)
          = fst (StoreManager.get m j t)).
Proof.
  intros m k v1 v2 ttl1 ttl2 t1 t2. unfold StoreManager.set.
  split; [apply insert_insert_eq|]. split.
  { intros t. unfold StoreManager.get. by rewrite lookup_insert_eq. }
  split.
  { intros j Hj. apply insert_insert_ne. exact Hj. }
  intros j t Hj. unfold StoreManager.get.
  rewrite lookup_insert_ne by congruence.
  destruct (m !! j) as [e|]; [|done]. by destruct (StoreManager.expired e t).
Qed.

Lemma apply_keeps_live_entry (m : gmap string StoreEntry) (k : string)
    (e : StoreEntry) (op : StoreManager.Op) :
  m !! k = Some e ->
  StoreManager.writes k op = false ->
  (forall now, clock op = Some now -> StoreManager.expired e now = false) ->
  StoreManager.apply m op !! k = Some e.
Proof.
  intros Hk Hw Hlive.
  destruct op as [j now|j now|j w ttl now|j|now|]; simpl in *.
  - unfold StoreManager.get. destruct (m !! j) as [x|] eqn:Hj; [|done].
    destruct (StoreManager.expired x now) eqn:Hx; [|done]. simpl.
    destruct (decide (j = k)) as [->|Hne].
    + rewrite Hk in Hj. injection Hj as <-. by rewrite (Hlive now) in Hx.
    + by rewrite lookup_delete_ne.
  - unfold StoreManager.has. destruct (m !! j) as [x|] eqn:Hj; [|done].
    destruct (StoreManager.expired x now) eqn:Hx; [|done]. simpl.
    destruct (decide (j = k)) as [->|Hne].
    + rewrite Hk in Hj. injection Hj as <-. by rewrite (Hlive now) in Hx.
    + by rewrite lookup_delete_ne.
  - apply bool_decide_eq_false in Hw.
    unfold StoreManager.set. by rewrite lookup_insert_ne.
  - apply bool_decide_eq_false in Hw. by rewrite lookup_delete_ne.
  - by rewrite cleanup_lookup, Hk, (Hlive now).
  - discriminate.
Qed.

(** X10.  An entry is never lost before it expires: whatever calls the
    store serves in between (reads and sweeps of any key, writes and
    deletions of other keys), as long as each of them reads the clock while
    the entry is unexpired the entry stays as it was written, and a [get] or
    [has] made while it is unexpired finds it. *)
Theorem entry_survives_until_it_expires :
  forall (ops : list StoreManager.Op) (m : gmap string StoreEntry) (k : string)
         (e : StoreEntry) (t : Z),
    m !! k = Some e ->
    Forall (fun op =>
              StoreManager.writes k op = false
              /\ forall now, clock op = Some now ->
                   StoreManager.expired e now = false) ops ->
    StoreManager.expired e t = false ->
    let m' := StoreManager.run m ops in
    m' !! k = Some e
    /\ StoreManager.get m' k t = (value e, m')
    /\ StoreManager.has m' k t = (true, m').
Proof.
  intros ops m k e t Hk Hops Ht m'.
  assert (Hk' : m' !! k = Some e).
  { unfold m'. clear Ht m'. revert m Hk.
    induction Hops as [|op ops [Hw Hlive] _ IH]; intros m Hk; [done|].
    simpl. apply IH. by apply apply_keeps_live_entry. }
  split; [exact Hk'|].
  unfold StoreManager.get, StoreManager.has. by rewrite Hk', Ht.
Qed.

Lemma entry_survives_until_it_expires_witness :
  let m := StoreManager.set ∅ "k" (JStr "v") (Some 50) 1000 in
  let ops := [StoreManager.OpGet "k" 1010; StoreManager.OpCleanup 1020;
              StoreManager.OpSet "j" JNull None 1030;
              StoreManager.OpHas "j" 1040; StoreManager.OpDelete "j"] in
  fst (StoreManager.get (StoreManager.run m ops) "k" 1050) = JStr "v".
Proof.
  intros m ops.
  assert (Hops : Forall (fun op =>
              StoreManager.writes "k" op = false
              /\ forall now, clock op = Some now ->
                   StoreManager.expired
                     {| value := JStr "v"; expiresAt := Some 1050 |} now = false)
            ops).
  { repeat constructor; simpl; intros now [= <-]; reflexivity. }
  destruct (entry_survives_until_it_expires ops m "k"
              {| value := JStr "v"; expiresAt := Some 1050 |} 1050
              eq_refl Hops eq_refl) as (_ & Hg & _).
  exact (f_equal fst Hg).
Defined.

(** X11.  The store over messages.  A StoreSet is answered with [true]
    under the nonce of the request; a StoreGet or StoreHas for the key made
    afterwards, before the entry expires (at any time when no or a zero ttl
    was given), is answered with the value written, resp. [true], under its
    own nonce and changes nothing; a StoreDelete is answered with [true] and
    a StoreGet after it with undefined.  Every reply is a StoreResponse that
    echoes the nonce of its request, and a message that is none of the four
    requests gets no reply and changes nothing. *)
Theorem store_messages_round_trip :
  forall (m : gmap string StoreEntry) (n1 n2 k : string) (v : JSValue)
         (ttl : option Z) (t0 t : Z),
    match ttl with
    | Some x => x = 0 \/ (0 < x /\ 0 <= t0 /\ t <= t0 + x)
    | None => True
    end ->
    let r1 := StoreManagerIPC.handleMessage m (StoreSet n1 k v ttl) t0 in
    let m1 := snd r1 in
    fst r1 = Some (StoreResponse n1 (JBool true))
    /\ StoreManagerIPC.handleMessage m1 (StoreGet n2 k) t
       = (Some (StoreResponse n2 v), m1)
    /\ StoreManagerIPC.handleMessage m1 (StoreHas n2 k) t
       = (Some (StoreResponse n2 (JBool true)), m1)
    /\ StoreManagerIPC.handleMessage m1 (StoreDelete n2 k) t
       = (Some (StoreResponse n2 (JBool true)), delete k m1)
    /\ StoreManagerIPC.handleMessage (delete k m1) (StoreGet n2 k) t
       = (Some (StoreResponse n2 JUndefined), delete k m1)
    /\ (forall (d : gmap string StoreEntry) (msg : IPCMessage) (now : Z),
          match fst (StoreManagerIPC.handleMessage d msg now) with
          | Some reply =>
              is_store_request msg = true
              /\ exists w, reply = StoreResponse (nonce_of msg) w
          | None =>
              is_store_request msg = false
              /\ snd (StoreManagerIPC.handleMessage d msg now) = d
          end).
Proof.
  intros m n1 n2 k v ttl t0 t Httl r1 m1.
  assert (Hk : m1 !! k
               = Some {| value := v; expiresAt := StoreManager.expiry_of ttl t0 |}).
  { unfold m1, r1. simpl. unfold StoreManager.set. apply lookup_insert_eq. }
  assert (Hlive : StoreManager.expired
                    {| value := v; expiresAt := StoreManager.expiry_of ttl t0 |} t
                  = false).
  { destruct ttl as [x|]; [|done]. destruct Httl as [->|(Hx & Ht0 & Ht)]; [done|].
    rewrite expired_after_set by done. apply Z.ltb_ge. lia. }
  split; [done|].
  unfold StoreManagerIPC.handleMessage, StoreManager.get, StoreManager.has,
    StoreManager.delete.
  rewrite Hk, Hlive, lookup_delete_eq. cbn [value].
  split; [done|]. split; [done|]. split.
  { rewrite bool_decide_eq_true_2 by eauto. done. }
  split; [done|].
  intros d msg now. destruct msg; simpl; try done.
  - destruct (d !! key) as [e|]; [destruct (StoreManager.expired e now)|];
      simpl; eauto.
  - eauto.
  - destruct (d !! key) as [e|]; [destruct (StoreManager.expired e now)|];
      simpl; eauto.
  - eauto.
Qed.

Lemma store_messages_round_trip_witness :
  let m1 := snd (StoreManagerIPC.handleMessage ∅
                   (StoreSet "n1" "k" (JNum 7) (Some 50)) 1000) in
  StoreManagerIPC.handleMessage m1 (StoreGet "n2" "k") 1050
  = (Some (StoreResponse "n2" (JNum 7)), m1).
Proof.
  intros m1.
  destruct (store_messages_round_trip ∅ "n1" "n2" "k" (JNum 7) (Some 50) 1000 1050)
    as (_ & Hg & _).
  { right. lia. }
  exact Hg.
Defined.

(** ** StoreClient: a request in flight *)

Lemma store_outcomes_snoc (n k : string) (s : StoreClient.Settlement)
    (st : StoreClient.State) (l : list (string * StoreClient.Settlement)) :
  l = StoreClient.settled st ->
  map snd (filter (fun e => fst e = n) (l ++ [(k, s)]))
  = StoreClient.outcomes n st ++ (if decide (k = n) then [s] else []).
Proof. intros ->. apply filter_snoc_key. Qed.

Lemma store_idle_step (send : SendFn) (n : string) (st : StoreClient.State)
    (ev : StoreClient.Event) :
  store_idle n st -> StoreClient.registers n ev = false ->
  store_idle n (StoreClient.step send st ev)
  /\ StoreClient.outcomes n (StoreClient.step send st ev)
     = StoreClient.outcomes n st.
Proof.
  intros [Hkeys Hh He Ht] Hreg.
  destruct ev as [m|m|tid]; simpl in *.
  - apply bool_decide_eq_false in Hreg.
    unfold StoreClient.call. destruct (send m); [|split; [split|]; done].
    split; [split|]; simpl; try done.
    + intros i p. rewrite lookup_insert. case_decide; [|apply Hkeys].
      intros [= <-]. done.
    + intros i p t'. rewrite lookup_insert. case_decide.
      * intros [= <-] [= <-]. lia.
      * intros Hi Hp. specialize (Hh _ _ _ Hi Hp). lia.
    + by rewrite lookup_insert_ne.
    + intros t'. rewrite lookup_insert. case_decide; [congruence|apply Ht].
  - unfold StoreClient.handleResponse.
    destruct (StoreClient.promises st !! nonce_of m) as [p|] eqn:Hp;
      [|split; [split|]; done].
    assert (Hne : nonce_of m <> n) by congruence.
    pose proof (Hkeys _ _ Hp) as Hs.
    split; [split|]; simpl.
    + intros i q Hi. apply lookup_delete_Some in Hi as [_ Hi]. by apply Hkeys.
    + intros i q t' Hi. apply lookup_delete_Some in Hi as [_ Hi]. by apply (Hh i).
    + by rewrite lookup_delete_ne.
    + intros t' Ht'. apply lookup_clearTimeout in Ht' as [Ht' _]. by apply Ht in Ht'.
    + unfold StoreClient.outcomes. simpl.
      rewrite filter_snoc_key, Hs. rewrite decide_False by done.
      by rewrite app_nil_r.
  - unfold StoreClient.fireTimer.
    destruct (StoreClient.timers st !! tid) as [j|] eqn:Hj;
      [|split; [split|]; done].
    assert (Hne : j <> n). { intros ->. by apply Ht in Hj. }
    split; [split|]; simpl.
    + intros i q Hi. apply lookup_delete_Some in Hi as [_ Hi]. by apply Hkeys.
    + intros i q t' Hi. apply lookup_delete_Some in Hi as [_ Hi]. by apply (Hh i).
    + by rewrite lookup_delete_ne.
    + intros t' Ht'. apply lookup_delete_Some in Ht' as [_ Ht']. by apply Ht in Ht'.
    + unfold StoreClient.outcomes. simpl.
      rewrite filter_snoc_key. rewrite decide_False by done.
      by rewrite app_nil_r.
Qed.

Lemma store_idle_run (send : SendFn) (n : string) (evs : list StoreClient.Event) :
  forall st : StoreClient.State,
    store_idle n st -> store_registrations n evs = 0%nat ->
    store_idle n (StoreClient.run send st evs)
    /\ StoreClient.outcomes n (StoreClient.run send st evs)
       = StoreClient.outcomes n st.
Proof.
  induction evs as [|ev evs IH]; intros st Hidle Hreg; [done|].
  unfold store_registrations in Hreg.
  destruct (StoreClient.registers n ev) eqn:Hev.
  { rewrite filter_cons_True in Hreg by done. discriminate. }
  rewrite filter_cons_False in Hreg by (rewrite Hev; discriminate).
  destruct (store_idle_step send n st ev Hidle Hev) as [H1 H2].
  destruct (IH _ H1 Hreg) as [H3 H4].
  simpl. split; [done|congruence].
Qed.

Lemma store_init_idle (n : string) : store_idle n StoreClient.init.
Proof. split; intros *; try rewrite lookup_empty; done. Qed.

Lemma store_call_waits (send : SendFn) (m : IPCMessage) (st : StoreClient.State) :
  store_idle (nonce_of m) st ->
  StoreClient.outcomes (nonce_of m) st = [] ->
  send m = SendOk ->
  fst (StoreClient.call send m st) = Pending
  /\ store_waiting (nonce_of m) (StoreClient.next_timer st)
       (snd (StoreClient.call send m st)).
Proof.
  intros [Hkeys Hh He Ht] Hout Hsend.
  unfold StoreClient.call. rewrite Hsend. split; [done|].
  split; simpl.
  - intros i p. rewrite lookup_insert. case_decide; [|apply Hkeys].
    intros [= <-]. done.
  - intros i p t'. rewrite lookup_insert. case_decide.
    + intros [= <-] [= <-]. lia.
    + intros Hi Hp. specialize (Hh _ _ _ Hi Hp). lia.
  - apply lookup_insert_eq.
  - apply lookup_insert_eq.
  - intros t'. rewrite lookup_insert. case_decide; [done|].
    intros Ht'. by apply Ht in Ht'.
  - intros i p Hi. rewrite lookup_insert_ne by done. intros Hp Hpt.
    specialize (Hh _ _ _ Hp Hpt). lia.
  - exact Hout.
Qed.

Lemma store_waiting_step (send : SendFn) (n : string) (tid : nat)
    (st : StoreClient.State) (ev : StoreClient.Event) :
  store_waiting n tid st -> StoreClient.registers n ev = false ->
  if store_decides n tid ev
  then store_idle n (StoreClient.step send st ev)
       /\ StoreClient.outcomes n (StoreClient.step send st ev)
          = [store_decision ev]
  else store_waiting n tid (StoreClient.step send st ev).
Proof.
  intros [Hkeys Hh He Ht Honly Hothers Hlog] Hreg.
  destruct ev as [m|m|t]; simpl in *.
  - (* a call under another nonce *)
    apply bool_decide_eq_false in Hreg.
    unfold StoreClient.call. destruct (send m); [|split; done].
    split; simpl; try done.
    + intros i p. rewrite lookup_insert. case_decide; [|apply Hkeys].
      intros [= <-]. done.
    + intros i p t'. rewrite lookup_insert. case_decide.
      * intros [= <-] [= <-]. lia.
      * intros Hi Hp. specialize (Hh _ _ _ Hi Hp). lia.
    + by rewrite lookup_insert_ne.
    + rewrite lookup_insert_ne; [done|].
      specialize (Hh _ _ _ He eq_refl). lia.
    + intros t'. rewrite lookup_insert. case_decide; [congruence|apply Honly].
    + intros i p Hi. rewrite lookup_insert. case_decide.
      * intros [= <-]. simpl. specialize (Hh _ _ _ He eq_refl).
        intros [= Heq]. lia.
      * by apply Hothers.
  - (* a response *)
    unfold StoreClient.handleResponse. case_bool_decide as Hn.
    + rewrite Hn, He. split; [split|]; simpl.
      * intros i q Hi. apply lookup_delete_Some in Hi as [_ Hi]. by apply Hkeys.
      * intros i q t' Hi. apply lookup_delete_Some in Hi as [_ Hi]. by apply (Hh i).
      * apply lookup_delete_eq.
      * intros t' Ht'. apply lookup_delete_Some in Ht' as [Hne Ht'].
        apply Honly in Ht'. congruence.
      * unfold StoreClient.outcomes in *. simpl.
        rewrite filter_snoc_key, Hlog. by rewrite decide_True.
    + destruct (StoreClient.promises st !! nonce_of m) as [p|] eqn:Hp; [|done].
      pose proof (Hkeys _ _ Hp) as Hs.
      pose proof (Hothers _ _ Hn Hp) as Hpt.
      split; simpl.
      * intros i q Hi. apply lookup_delete_Some in Hi as [_ Hi]. by apply Hkeys.
      * intros i q t' Hi. apply lookup_delete_Some in Hi as [_ Hi]. by apply (Hh i).
      * rewrite lookup_delete_ne by done. exact He.
      * destruct (sp_timeout p) as [t'|]; simpl; [|done].
        rewrite lookup_delete_ne; [done|congruence].
      * intros t' Ht'. apply lookup_clearTimeout in Ht' as [Ht' _]. by apply Honly.
      * intros i q Hi Hq. apply lookup_delete_Some in Hq as [_ Hq]. by apply (Hothers i).
      * unfold StoreClient.outcomes in *. simpl.
        rewrite filter_snoc_key, Hlog, Hs. by rewrite decide_False.
  - (* a timer *)
    unfold StoreClient.fireTimer. case_bool_decide as Hn.
    + subst t. rewrite Ht. split; [split|]; simpl.
      * intros i q Hi. apply lookup_delete_Some in Hi as [_ Hi]. by apply Hkeys.
      * intros i q t' Hi. apply lookup_delete_Some in Hi as [_ Hi]. by apply (Hh i).
      * apply lookup_delete_eq.
      * intros t' Ht'. apply lookup_delete_Some in Ht' as [Hne Ht'].
        apply Honly in Ht'. congruence.
      * unfold StoreClient.outcomes in *. simpl.
        rewrite filter_snoc_key, Hlog. by rewrite decide_True.
    + destruct (StoreClient.timers st !! t) as [j|] eqn:Hj; [|done].
      assert (Hne : j <> n). { intros ->. apply Honly in Hj. congruence. }
      split; simpl.
      * intros i q Hi. apply lookup_delete_Some in Hi as [_ Hi]. by apply Hkeys.
      * intros i q t' Hi. apply lookup_delete_Some in Hi as [_ Hi]. by apply (Hh i).
      * rewrite lookup_delete_ne by done. exact He.
      * rewrite lookup_delete_ne; [done|congruence].
      * intros t' Ht'. apply lookup_delete_Some in Ht' as [_ Ht']. by apply Honly.
      * intros i q Hi Hq. apply lookup_delete_Some in Hq as [_ Hq]. by apply (Hothers i).
      * unfold StoreClient.outcomes in *. simpl.
        rewrite filter_snoc_key, Hlog. by rewrite decide_False.
Qed.

Lemma store_waiting_run (send : SendFn) (n : string) (tid : nat)
    (evs : list StoreClient.Event) :
  forall st : StoreClient.State,
    store_waiting n tid st -> store_registrations n evs = 0%nat ->
    match List.find (store_decides n tid) evs with
    | Some ev =>
        store_idle n (StoreClient.run send st evs)
        /\ StoreClient.outcomes n (StoreClient.run send st evs)
           = [store_decision ev]
    | None => store_waiting n tid (StoreClient.run send st evs)
    end.
Proof.
  induction evs as [|ev evs IH]; intros st Hw Hreg; [done|].
  unfold store_registrations in Hreg.
  destruct (StoreClient.registers n ev) eqn:Hev.
  { rewrite filter_cons_True in Hreg by done. discriminate. }
  rewrite filter_cons_False in Hreg by (rewrite Hev; discriminate).
  pose proof (store_waiting_step send n tid st ev Hw Hev) as Hstep.
  simpl. destruct (store_decides n tid ev).
  - destruct Hstep as [Hidle Hout].
    destruct (store_idle_run send n evs _ Hidle Hreg) as [H1 H2].
    split; [done|congruence].
  - by apply IH.
Qed.

Lemma store_registrations_app (n : string) (a b : list StoreClient.Event) :
  store_registrations n (a ++ b) = 0%nat ->
  store_registrations n a = 0%nat /\ store_registrations n b = 0%nat.
Proof.
  unfold store_registrations. rewrite filter_app, length_app. lia.
Qed.

Lemma store_reachable_idle (send : SendFn) (n : string)
    (pre : list StoreClient.Event) :
  store_registrations n pre = 0%nat ->
  store_idle n (StoreClient.run send StoreClient.init pre)
  /\ StoreClient.outcomes n (StoreClient.run send StoreClient.init pre) = [].
Proof.
  intros Hpre.
  destruct (store_idle_run send n pre _ (store_init_idle n) Hpre) as [H1 H2].
  split; [exact H1|]. by rewrite H2.
Qed.

(** X12.  A request of the StoreClient ([get], [set], [has], [delete]),
    made under a nonce no other call uses, in any state the client can
    reach.  If the transport rejects the message the call rejects and
    nothing is ever settled or kept for it.  Otherwise the call is left
    pending with its timer armed, and after any further history it is
    settled by the first event among the responses carrying its nonce and
    its own timer: a response resolves it with the [value] of the response,
    the timer rejects it with 'Store request timed out'; whatever follows
    (a late response, the timer of a request already answered) changes
    nothing.  As long as neither has happened the request stays pending. *)
Theorem store_request_settled_by_first_response_or_timeout :
  forall (send : SendFn) (pre evs : list StoreClient.Event) (msg : IPCMessage),
    store_registrations (nonce_of msg) (pre ++ evs) = 0%nat ->
    let n := nonce_of msg in
    let c0 := StoreClient.run send StoreClient.init pre in
    let r := StoreClient.call send msg c0 in
    let tid := StoreClient.next_timer c0 in
    let c2 := StoreClient.run send (snd r) evs in
    (forall e, send msg = SendFailed e ->
       fst r = Failed e
       /\ StoreClient.promises (snd r) = StoreClient.promises c0
       /\ StoreClient.timers (snd r) = StoreClient.timers c0
       /\ StoreClient.outcomes n c2 = []
       /\ StoreClient.promises c2 !! n = None)
    /\ (send msg = SendOk ->
        fst r = Pending
        /\ StoreClient.timers (snd r) !! tid = Some n
        /\ match List.find (store_decides n tid) evs with
           | Some ev =>
               StoreClient.outcomes n c2 = [store_decision ev]
               /\ StoreClient.promises c2 !! n = None
               /\ (forall t, StoreClient.timers c2 !! t <> Some n)
           | None =>
               StoreClient.outcomes n c2 = []
               /\ StoreClient.promises c2 !! n
                  = Some {| sp_settles := n; sp_timeout := Some tid |}
               /\ StoreClient.timers c2 !! tid = Some n
           end).
Proof.
  intros send pre evs msg Hreg n c0 r tid c2.
  apply store_registrations_app in Hreg as [Hpre Hevs].
  destruct (store_reachable_idle send n pre Hpre) as [Hidle Hout0].
  fold c0 in Hidle, Hout0. split.
  - intros e He.
    assert (Hr : r = (Failed e,
                      {| StoreClient.promises := StoreClient.promises c0;
                         StoreClient.timers := StoreClient.timers c0;
                         StoreClient.next_timer := StoreClient.next_timer c0;
                         StoreClient.sent := StoreClient.sent c0 ++ [msg];
                         StoreClient.settled := StoreClient.settled c0 |})).
    { unfold r, StoreClient.call. by rewrite He. }
    assert (Hidle1 : store_idle n (snd r)).
    { rewrite Hr. destruct Hidle. by split. }
    destruct (store_idle_run send n evs _ Hidle1 Hevs) as [H1 H2].
    fold c2 in H1, H2. rewrite Hr in *. simpl in *.
    split; [done|]. split; [done|]. split; [done|].
    split; [by rewrite H2|]. by destruct H1.
  - intros Hsend.
    destruct (store_call_waits send msg c0 Hidle Hout0 Hsend) as [Hp Hw].
    fold r tid n in Hp, Hw. split; [exact Hp|].
    split; [by destruct Hw|].
    pose proof (store_waiting_run send n tid evs _ Hw Hevs) as Hrun.
    fold c2 in Hrun.
    destruct (List.find (store_decides n tid) evs) as [ev|].
    + destruct Hrun as [[_ _ He Ht] Hout]. done.
    + destruct Hrun. done.
Qed.

Lemma store_request_settled_by_first_response_or_timeout_witness :
  let send := fun _ : IPCMessage => SendOk in
  let r := StoreClient.get send "n1" "k" StoreClient.init in
  fst r = Pending
  /\ StoreClient.outcomes "n1"
       (StoreClient.run send (snd r)
          [StoreClient.Response (StoreResponse "n0" JNull);
           StoreClient.Response (StoreResponse "n1" (JNum 7));
           StoreClient.TimerFires 0])
     = [StoreClient.Resolved (JNum 7)]
  /\ StoreClient.outcomes "n1"
       (StoreClient.run send (snd r)
          [StoreClient.TimerFires 0;
           StoreClient.Response (StoreResponse "n1" (JNum 7))])
     = [StoreClient.Rejected "Store request timed out"].
Proof.
  intros send r.
  destruct (store_request_settled_by_first_response_or_timeout send []
              [StoreClient.Response (StoreResponse "n0" JNull);
               StoreClient.Response (StoreResponse "n1" (JNum 7));
               StoreClient.TimerFires 0] (StoreGet "n1" "k") eq_refl)
    as [_ H1].
  destruct (H1 eq_refl) as (Hp & _ & Hout & _).
  destruct (store_request_settled_by_first_response_or_timeout send []
              [StoreClient.TimerFires 0;
               StoreClient.Response (StoreResponse "n1" (JNum 7))]
              (StoreGet "n1" "k") eq_refl)
    as [_ H2].
  destruct (H2 eq_refl) as (_ & _ & Hout2 & _).
  split; [exact Hp|]. split; [exact Hout|exact Hout2].
Defined.

Lemma store_call_answered (send : SendFn) (pre : list StoreClient.Event)
    (msg resp : IPCMessage) :
  store_registrations (nonce_of msg) pre = 0%nat ->
  send msg = SendOk ->
  nonce_of resp = nonce_of msg ->
  let r := StoreClient.call send msg (StoreClient.run send StoreClient.init pre) in
  fst r = Pending
  /\ last (StoreClient.sent (snd r)) = Some msg
  /\ StoreClient.outcomes (nonce_of msg) (StoreClient.handleResponse resp (snd r))
     = [StoreClient.Resolved (StoreClient.value_field resp)]
  /\ StoreClient.promises (StoreClient.handleResponse resp (snd r)) !! nonce_of msg
     = None.
Proof.
  intros Hpre Hsend Hn r.
  destruct (store_reachable_idle send (nonce_of msg) pre Hpre) as [Hidle Hout0].
  destruct (store_call_waits send msg _ Hidle Hout0 Hsend) as [Hp Hw].
  fold r in Hp, Hw. split; [exact Hp|]. split.
  { unfold r, StoreClient.call. rewrite Hsend. simpl. apply last_snoc. }
  pose proof (store_waiting_step send _ _ _ (StoreClient.Response resp) Hw eq_refl)
    as Hstep.
  simpl in Hstep. rewrite bool_decide_eq_true_2 in Hstep by done.
  destruct Hstep as [[_ _ He _] Hout]. done.
Qed.

(** X13.  The store across the wire.  The message a StoreClient call sends,
    handed to [StoreManager.handleMessage], yields a reply; that reply,
    handed back to [handleResponse], resolves the pending promise of the
    call with what the manager's method returned: for [get] the stored value
    (undefined for a missing or expired key), for [set] the [true] of the
    acknowledgement (which [set] itself discards), for [has] and [delete]
    the boolean of [StoreManager.has] resp. [delete]. *)
Theorem store_call_resolves_with_manager_answer :
  forall (send : SendFn) (pre : list StoreClient.Event) (n k : string)
         (v : JSValue) (ttl : option Z) (data : gmap string StoreEntry) (now : Z),
    store_registrations n pre = 0%nat ->
    (forall m, is_store_request m = true -> send m = SendOk) ->
    let c0 := StoreClient.run send StoreClient.init pre in
    let served (call : CallResult JSValue * StoreClient.State) (answer : JSValue) :=
      fst call = Pending
      /\ exists msg reply,
           last (StoreClient.sent (snd call)) = Some msg
           /\ fst (StoreManagerIPC.handleMessage data msg now) = Some reply
           /\ StoreClient.outcomes n (StoreClient.handleResponse reply (snd call))
              = [StoreClient.Resolved answer] in
    served (StoreClient.get send n k c0) (fst (StoreManager.get data k now))
    /\ served (StoreClient.set send n k v ttl c0) (JBool true)
    /\ served (StoreClient.has send n k c0)
         (JBool (fst (StoreManager.has data k now)))
    /\ served (StoreClient.delete send n k c0)
         (JBool (fst (StoreManager.delete data k))).
Proof.
  intros send pre n k v ttl data now Hpre Hsend c0 served.
  assert (H : forall msg reply answer,
            is_store_request msg = true -> nonce_of msg = n ->
            StoreManagerIPC.handleMessage data msg now
            = (Some reply, snd (StoreManagerIPC.handleMessage data msg now)) ->
            nonce_of reply = n -> StoreClient.value_field reply = answer ->
            served (StoreClient.call send msg c0) answer).
  { intros msg reply answer Hreq Hn Hreply Hrn Hans. subst n.
    destruct (store_call_answered send pre msg reply Hpre (Hsend _ Hreq) Hrn)
      as (Hp & Hlast & Hout & _).
    split; [exact Hp|]. exists msg, reply.
    split; [exact Hlast|]. split; [by rewrite Hreply|]. by rewrite <- Hans. }
  split; [|split; [|split]].
  - apply (H (StoreGet n k) (StoreResponse n (fst (StoreManager.get data k now))));
      try done.
    simpl. by destruct (StoreManager.get data k now).
  - by apply (H (StoreSet n k v ttl) (StoreResponse n (JBool true))).
  - apply (H (StoreHas n k)
             (StoreResponse n (JBool (fst (StoreManager.has data k now)))));
      try done.
    simpl. by destruct (StoreManager.has data k now).
  - apply (H (StoreDelete n k)
             (StoreResponse n (JBool (fst (StoreManager.delete data k)))));
      done.
Qed.

Lemma store_call_resolves_with_manager_answer_witness :
  let send := fun _ : IPCMessage => SendOk in
  let data := StoreManager.set ∅ "k" (JNum 7) None 1000 in
  let call := StoreClient.get send "n1" "k" StoreClient.init in
  exists msg reply,
    last (StoreClient.sent (snd call)) = Some msg
    /\ fst (StoreManagerIPC.handleMessage data msg 2000) = Some reply
    /\ StoreClient.outcomes "n1" (StoreClient.handleResponse reply (snd call))
       = [StoreClient.Resolved (JNum 7)].
Proof.
  intros send data call.
  destruct (store_call_resolves_with_manager_answer send [] "n1" "k" JNull None
              data 2000 eq_refl (fun _ _ => eq_refl)) as ((_ & H) & _).
  exact H.
Defined.

(** ** IPCHandler: a request in flight *)


Lemma req_handle_bound (n : string) (h : option nat) (st : IPCHandler.State)
    (t : nat) :
  ipc_requesting n h st -> h = Some t -> (t < IPCHandler.next_timer st)%nat.
Proof.
  intros Hreq ->. destruct Hreq as [_ _ Hhp _ Hep _ _ _ _ _ _].
  by apply (Hhp _ _ _ Hep).
Qed.









Lemma rejections_replicate {A : Type} (f : A -> string) (n : string)
    (x : IPCHandler.Settlement) (L : list (string * A)) :
  map snd (filter (fun e => fst e = n) (map (fun e => (f (snd e), x)) L))
  = replicate
      (length (filter (fun e => fst e = n) (map (fun e => (f (snd e), x)) L))) x.
Proof.
  induction L as [|[k p] L IH]; [done|].
  cbn [map fst snd].
  destruct (decide (f p = n)) as [Heq|Hne].
  - rewrite filter_cons_True by done. simpl. by rewrite IH.
  - by rewrite filter_cons_False by done.
Qed.

Lemma rejections_of_table {A : Type} (f : A -> string) (n : string)
    (x : IPCHandler.Settlement) (m : gmap string A) :
  (forall k p, m !! k = Some p -> f p = k) ->
  map snd (filter (fun e => fst e = n)
             (map (fun e => (f (snd e), x)) (map_to_list m)))
  = match m !! n with Some _ => [x] | None => [] end.
Proof.
  intros Hkeys. rewrite rejections_replicate.
  rewrite (count_rejected_keys f n x (map_to_list m)).
  - rewrite (bool_decide_ext _ _ (keys_of_map_to_list m n)).
    rewrite bool_nat_is_Some. by destruct (m !! n).
  - apply NoDup_fst_map_to_list.
  - intros k p Hin. apply elem_of_map_to_list in Hin. by apply Hkeys.
Qed.

Lemma outcomes_clearPending (n : string) (st : IPCHandler.State) :
  (forall k p, IPCHandler.promises st !! k = Some p -> sp_settles p = k) ->
  (forall k p, IPCHandler.pendingAll st !! k = Some p ->
     IPCHandler.pa_settles p = k) ->
  IPCHandler.outcomes n (IPCHandler.clearPending st)
  = IPCHandler.outcomes n st
    ++ match IPCHandler.promises st !! n with
       | Some _ => [IPCHandler.Rejected "IPC handler cleared"]
       | None => []
       end
    ++ match IPCHandler.pendingAll st !! n with
       | Some _ => [IPCHandler.Rejected "IPC handler cleared"]
       | None => []
       end.
Proof.
  intros Hkp Hka. unfold IPCHandler.outcomes. simpl.
  rewrite !filter_app, !map_app.
  rewrite (rejections_of_table sp_settles) by done.
  by rewrite (rejections_of_table IPCHandler.pa_settles) by done.
Qed.











(** ** IPCHandler: the handler table and [clearPending] *)

Lemma handleIncoming_request_sent (send : SendFn) (st : IPCHandler.State)
    (broadcast : bool) (nonce name : string) (payload : JSValue)
    (src : option Z) :
  IPCHandler.sent
    (IPCHandler.handleIncoming send
       (handler_request broadcast nonce name payload) src st)
  = IPCHandler.sent st
    ++ match IPCHandler.handlers st !! name with
       | Some fn => replies_of send fn nonce payload src
       | None =>
           [HandlerError nonce
              ("No handler registered for '" +:+ name +:+ "'") src]
       end.
Proof.
  unfold handler_request, replies_of.
  destruct broadcast; simpl;
    (destruct (IPCHandler.handlers st !! name) as [fn|]; [|done]);
    destruct (fn payload); try destruct (send _); simpl;
    by rewrite <- ?app_assoc.
Qed.

(** X16.  Handlers are kept by name.  [handle] under a name already taken
    replaces the earlier handler; a request for the name is then answered by
    the handler registered last, with its result or with the message of the
    error it threw.  [removeHandler] answers whether the name was
    registered; afterwards a request for the name is answered with
    "No handler registered for '<name>'", and removing it again answers
    false.  Other names are not affected. *)
Theorem handlers_are_kept_by_name :
  forall (send : SendFn) (st : IPCHandler.State) (name nonce : string)
         (fn1 fn2 : HandlerFn) (payload : JSValue) (src : option Z)
         (broadcast : bool),
    let ask := handler_request broadcast nonce name payload in
    let st2 := IPCHandler.handle name fn2 (IPCHandler.handle name fn1 st) in
    let removed := IPCHandler.removeHandler name st2 in
    st2 = IPCHandler.handle name fn2 st
    /\ IPCHandler.sent (IPCHandler.handleIncoming send ask src st2)
       = IPCHandler.sent st ++ replies_of send fn2 nonce payload src
    /\ fst removed = true
    /\ IPCHandler.handlers (snd removed) !! name = None
    /\ IPCHandler.sent (IPCHandler.handleIncoming send ask src (snd removed))
       = IPCHandler.sent st
         ++ [HandlerError nonce ("No handler registered for '" +:+ name +:+ "'") src]
    /\ fst (IPCHandler.removeHandler name (snd removed)) = false
    /\ (forall other, other <> name ->
          IPCHandler.handlers st2 !! other = IPCHandler.handlers st !! other
          /\ IPCHandler.handlers (snd removed) !! other
             = IPCHandler.handlers st !! other).
Proof.
  intros send st name nonce fn1 fn2 payload src broadcast ask st2 removed.
  assert (Hst2 : st2 = IPCHandler.handle name fn2 st).
  { unfold st2, IPCHandler.handle, IPCHandler.with_handlers. simpl.
    by rewrite insert_insert_eq. }
  assert (Hl : IPCHandler.handlers st2 !! name = Some fn2).
  { rewrite Hst2. simpl. apply lookup_insert_eq. }
  assert (Hr : IPCHandler.handlers (snd removed) !! name = None).
  { simpl. apply lookup_delete_eq. }
  split; [exact Hst2|]. split.
  { unfold ask. rewrite (handleIncoming_request_sent send st2), Hl.
    by rewrite Hst2. }
  split.
  { unfold removed, IPCHandler.removeHandler. cbn [fst].
    apply bool_decide_eq_true_2. rewrite Hl. eauto. }
  split; [exact Hr|]. split.
  { unfold ask. rewrite (handleIncoming_request_sent send (snd removed)), Hr.
    done. }
  split.
  { unfold IPCHandler.removeHandler at 1. cbn [fst].
    apply bool_decide_eq_false_2. rewrite Hr. by intros [? ?]. }
  intros other Hne. simpl.
  rewrite lookup_delete_ne by congruence.
  by rewrite !lookup_insert_ne by congruence.
Qed.

Lemma ipc_keys_createPromise (k : string) (timeout : option Z)
    (st : IPCHandler.State) :
  ipc_keys st -> ipc_keys (IPCHandler.createPromise k timeout st).
Proof.
  intros [Hkp Hka]. unfold IPCHandler.createPromise.
  destruct timeout as [ms|]; [destruct (0 <? ms)|]; simpl; split; simpl; try done;
    intros j q; (rewrite lookup_insert; case_decide; [|apply Hkp]);
    by intros [= <-].
Qed.

Lemma ipc_keys_step (send : SendFn) (st : IPCHandler.State)
    (ev : IPCHandler.Event) :
  ipc_keys st -> ipc_keys (IPCHandler.step send st ev).
Proof.
  intros Hkeys. pose proof Hkeys as [Hkp Hka].
  destruct ev as [name fn|name|k hd d t|c k hd d t|k hd d t total|m src|tid|];
    simpl.
  - done.
  - done.
  - unfold IPCHandler.request. destruct (send _); simpl; [|done].
    by apply ipc_keys_createPromise.
  - unfold IPCHandler.requestTo. destruct (send _); simpl; [|done].
    by apply ipc_keys_createPromise.
  - unfold IPCHandler.requestAll.
    destruct (default 0 total =? 0); [done|].
    destruct (default 0 total - 1 <=? 0); [done|].
    destruct (send _); simpl; [|done].
    destruct (0 <? default 30000 t); simpl; split; simpl; try done;
      intros j q; (rewrite lookup_insert; case_decide; [|apply Hka]);
      by intros [= <-].
  - assert (Hsettle : forall k s, ipc_keys (IPCHandler.settlePromise k s st)).
    { intros k s. unfold IPCHandler.settlePromise.
      destruct (IPCHandler.promises st !! k) as [p|]; [|done].
      split; simpl; [|done].
      intros j q Hj. apply lookup_delete_Some in Hj as [_ Hj]. by apply Hkp. }
    assert (Hcollect : forall k pending s v,
              IPCHandler.pendingAll st !! k = Some pending ->
              ipc_keys (IPCHandler.collectReply k pending s v st)).
    { intros k pending s v Hpa. unfold IPCHandler.collectReply.
      destruct (IPCHandler.expected pending <=? _); split; simpl; try done.
      - intros j q Hj. apply lookup_delete_Some in Hj as [_ Hj]. by apply Hka.
      - intros j q. rewrite lookup_insert. case_decide; [|apply Hka].
        intros [= <-]. simpl. subst j. by apply Hka. }
    destruct m; simpl; try done.
    + destruct (IPCHandler.handlers st !! handler) as [fn|]; [|done].
      destruct (fn payload); [|done]. by destruct (send _).
    + destruct (IPCHandler.handlers st !! handler) as [fn|]; [|done].
      destruct (fn payload); [|done]. by destruct (send _).
    + destruct (IPCHandler.pendingAll st !! nonce) as [pending|] eqn:Hpa;
        [destruct sourceCluster as [s|]|]; auto.
    + destruct (IPCHandler.pendingAll st !! nonce) as [pending|] eqn:Hpa;
        [destruct sourceCluster as [s|]|]; auto.
  - unfold IPCHandler.fireTimer.
    destruct (IPCHandler.timers st !! tid) as [cb|]; [|done].
    destruct cb as [k|k]; simpl.
    + split; simpl; [|done].
      intros j q Hj. apply lookup_delete_Some in Hj as [_ Hj]. by apply Hkp.
    + destruct (IPCHandler.pendingAll st !! k) as [pending|]; [|done].
      split; simpl; [done|].
      intros j q Hj. apply lookup_delete_Some in Hj as [_ Hj]. by apply Hka.
  - split; simpl; intros j q Hj; by rewrite lookup_empty in Hj.
Qed.

Lemma ipc_keys_run (send : SendFn) (evs : list IPCHandler.Event) :
  forall st, ipc_keys st -> ipc_keys (IPCHandler.run send st evs).
Proof.
  induction evs as [|ev evs IH]; intros st Hk; [done|].
  simpl. by apply IH, ipc_keys_step.
Qed.

Lemma lookup_foldr_clear_None {A C : Type} (f : A -> option nat) (L : list A)
    (ts : gmap nat C) (tid : nat) :
  (exists e, e ∈ L /\ f e = Some tid) ->
  foldr (fun e => clearTimeout (f e)) ts L !! tid = None.
Proof.
  induction L as [|e L IH]; intros (x & Hx & Hf).
  - by apply not_elem_of_nil in Hx.
  - simpl. destruct (f e) as [t|] eqn:He; simpl.
    + destruct (decide (t = tid)) as [->|Hne]; [apply lookup_delete_eq|].
      rewrite lookup_delete_ne by done.
      apply elem_of_cons in Hx as [->|Hx]; [congruence|]. apply IH. eauto.
    + apply elem_of_cons in Hx as [->|Hx]; [congruence|]. apply IH. eauto.
Qed.

Lemma lookup_foldr_clear_keep {A C : Type} (f : A -> option nat) (L : list A)
    (ts : gmap nat C) (tid : nat) :
  ts !! tid = None -> foldr (fun e => clearTimeout (f e)) ts L !! tid = None.
Proof.
  intros Hts. induction L as [|e L IH]; [done|].
  simpl. destruct (f e) as [t|]; simpl; [|done].
  destruct (decide (t = tid)) as [->|Hne]; [apply lookup_delete_eq|].
  by rewrite lookup_delete_ne.
Qed.

(** X17.  [clearPending()] in any state the IPCHandler can reach: both
    pending tables are emptied; every call that was pending, single request
    or broadcast, is rejected with 'IPC handler cleared', once; nothing is
    logged for a nonce that was not pending; the timer of every entry is
    disarmed; handlers and messages sent are left alone.  Calling it again
    changes nothing. *)
Theorem clearPending_rejects_every_pending_call :
  forall (send : SendFn) (hs : gmap string HandlerFn)
         (evs : list IPCHandler.Event) (n : string),
    let st := IPCHandler.run send (IPCHandler.init hs) evs in
    let st' := IPCHandler.clearPending st in
    IPCHandler.promises st' = ∅
    /\ IPCHandler.pendingAll st' = ∅
    /\ IPCHandler.handlers st' = IPCHandler.handlers st
    /\ IPCHandler.sent st' = IPCHandler.sent st
    /\ IPCHandler.outcomes n st'
       = IPCHandler.outcomes n st
         ++ cleared (IPCHandler.promises st !! n)
         ++ cleared (IPCHandler.pendingAll st !! n)
    /\ (forall k p t, IPCHandler.promises st !! k = Some p ->
          sp_timeout p = Some t -> IPCHandler.timers st' !! t = None)
    /\ (forall k p t, IPCHandler.pendingAll st !! k = Some p ->
          IPCHandler.pa_timeout p = Some t -> IPCHandler.timers st' !! t = None)
    /\ IPCHandler.clearPending st' = st'.
Proof.
  intros send hs evs n st st'.
  assert (Hkeys : ipc_keys st).
  { apply ipc_keys_run. split; intros k p Hk; simpl in Hk;
      by rewrite lookup_empty in Hk. }
  destruct Hkeys as [Hkp Hka].
  split; [done|]. split; [done|]. split; [done|]. split; [done|].
  split; [by apply outcomes_clearPending|].
  split; [|split].
  - intros k p t Hk Ht. unfold st'. simpl.
    apply lookup_foldr_clear_keep, lookup_foldr_clear_None.
    exists (k, p). split; [by apply elem_of_map_to_list|done].
  - intros k p t Hk Ht. unfold st'. simpl.
    apply lookup_foldr_clear_None.
    exists (k, p). split; [by apply elem_of_map_to_list|done].
  - unfold st', IPCHandler.clearPending. simpl.
    rewrite map_to_list_empty. simpl. by rewrite app_nil_r.
Qed.

(** ** The event bus *)

Lemma bus_step_logs (send : SendFn) (st : EventBusClient.State)
    (ev : EventBusClient.Event) :
  let st' := EventBusClient.step send st ev in
  EventBusClient.clusterId st' = EventBusClient.clusterId st
  /\ EventBusClient.emitted st'
     = EventBusClient.emitted st ++ option_list (local_emit ev)
  /\ filter (fun m => is_EventAck m = true) (EventBusClient.sent st')
     = filter (fun m => is_EventAck m = true) (EventBusClient.sent st)
       ++ option_list (ack_due (EventBusClient.clusterId st) ev).
Proof.
  assert (Hsnoc : forall (l : list IPCMessage) (m : IPCMessage),
            filter (fun m => is_EventAck m = true) (l ++ [m])
            = filter (fun m => is_EventAck m = true) l
              ++ (if is_EventAck m then [m] else [])).
  { intros l m. rewrite filter_app. f_equal.
    destruct (is_EventAck m) eqn:Hm.
    - by rewrite filter_cons_True.
    - rewrite filter_cons_False; [done|]. by rewrite Hm. }
  destruct ev as [n e d t x|m|tid]; simpl.
  - unfold EventBusClient.broadcastAndWait.
    destruct (send _); [destruct (default 0 x <=? 0)|]; simpl;
      rewrite ?Hsnoc; simpl; rewrite ?app_nil_r; done.
  - destruct m; simpl; rewrite ?Hsnoc; simpl; rewrite ?app_nil_r; try done.
    destruct (EventBusClient.ackPromises st !! nonce) as [p|];
      [destruct (EventBusClient.expected p <=? _)|]; simpl;
      by rewrite ?app_nil_r.
  - unfold EventBusClient.fireTimer.
    destruct (EventBusClient.timers st !! tid); simpl; by rewrite !app_nil_r.
Qed.

(** X18.  What an EventBusClient does with the messages it receives, over
    any history of calls, messages and timers: every EventForward and every
    EventEmitAndWait received is emitted to the local listeners, once, in
    the order of arrival, with its event name, data and source; every
    EventEmitAndWait received is acknowledged, once, in the order of
    arrival, by an EventAck that carries the nonce of the message and the
    id of this client; nothing else is ever emitted or acknowledged. *)
Theorem incoming_events_are_emitted_and_acked :
  forall (send : SendFn) (evs : list EventBusClient.Event)
         (st : EventBusClient.State),
    let st' := EventBusClient.run send st evs in
    EventBusClient.clusterId st' = EventBusClient.clusterId st
    /\ EventBusClient.emitted st'
       = EventBusClient.emitted st ++ omap local_emit evs
    /\ filter (fun m => is_EventAck m = true) (EventBusClient.sent st')
       = filter (fun m => is_EventAck m = true) (EventBusClient.sent st)
         ++ omap (ack_due (EventBusClient.clusterId st)) evs.
Proof.
  intros send evs. induction evs as [|ev evs IH]; intros st.
  { simpl. by rewrite !app_nil_r. }
  destruct (bus_step_logs send st ev) as (Hid & Hem & Hack).
  destruct (IH (EventBusClient.step send st ev)) as (Hid' & Hem' & Hack').
  simpl. rewrite Hid', Hem', Hack', Hid, Hem, Hack, <- !app_assoc.
  split; [done|].
  split; f_equal.
  - by destruct (local_emit ev).
  - by destruct (ack_due (EventBusClient.clusterId st) ev).
Qed.

Lemma others_spec (x : Z) (ids : list Z) :
  (x ∉ EventBusManager.others x ids)
  /\ (forall y, y ∈ EventBusManager.others x ids <-> y ∈ ids /\ y <> x)
  /\ (NoDup ids -> NoDup (EventBusManager.others x ids))
  /\ (NoDup ids -> x ∈ ids ->
      S (length (EventBusManager.others x ids)) = length ids)
  /\ (x ∉ ids -> EventBusManager.others x ids = ids).
Proof.
  unfold EventBusManager.others.
  split; [intros [H _]%list_elem_of_filter; by apply H|].
  split; [intros y; rewrite list_elem_of_filter; tauto|].
  split; [apply NoDup_filter|].
  split.
  - induction ids as [|y ids IH]; intros Hnd Hx.
    { by apply not_elem_of_nil in Hx. }
    apply NoDup_cons in Hnd as [Hy Hnd].
    destruct (decide (y = x)) as [->|Hne].
    + rewrite filter_cons_False by (intros H; by apply H).
      simpl. f_equal. clear IH Hx.
      induction ids as [|z ids IH]; [done|].
      apply not_elem_of_cons in Hy as [Hz Hy].
      apply NoDup_cons in Hnd as [_ Hnd].
      rewrite filter_cons_True by congruence. simpl. f_equal. by apply IH.
    + rewrite filter_cons_True by done. simpl. f_equal.
      apply IH; [done|]. apply elem_of_cons in Hx as [->|Hx]; done.
  - induction ids as [|y ids IH]; intros Hx; [done|].
    apply not_elem_of_cons in Hx as [Hy Hx].
    rewrite filter_cons_True by congruence. f_equal. by apply IH.
Qed.

(** X19.  How the manager's event bus routes an event.  An EventEmit
    without target goes, as an EventForward with the same nonce, event, data
    and source, to every cluster id it was given except the cluster the
    message came from, in the order given: the sender never gets its own
    broadcast, every other cluster gets it, and with distinct ids each gets
    it once.  An EventEmitAndWait is routed the same way, unchanged.  An
    EventEmit with a target goes to the target alone, whatever the ids, even
    when the target is the sender itself. *)
Theorem events_are_routed_to_the_other_clusters :
  forall (nonce event : string) (payload : JSValue) (src sender : Z)
         (ids : list Z),
    let forwarded := EventForward nonce event payload src in
    let waited := EventEmitAndWait nonce event payload src in
    let out :=
      EventBusManager.handleMessage (EventEmit nonce event payload src None)
        sender ids in
    let out' := EventBusManager.handleMessage waited sender ids in
    out = map (fun id => (id, forwarded)) (EventBusManager.others sender ids)
    /\ out' = map (fun id => (id, waited)) (EventBusManager.others sender ids)
    /\ (forall id m, (id, m) ∈ out -> id <> sender /\ id ∈ ids /\ m = forwarded)
    /\ (forall id, id ∈ ids -> id <> sender -> (id, forwarded) ∈ out)
    /\ (forall id, id ∈ ids -> id <> sender -> (id, waited) ∈ out')
    /\ (NoDup ids -> NoDup out.*1 /\ NoDup out'.*1)
    /\ (NoDup ids -> sender ∈ ids ->
        S (length out) = length ids /\ S (length out') = length ids)
    /\ (forall target,
          EventBusManager.handleMessage
            (EventEmit nonce event payload src (Some target)) sender ids
          = [(target, forwarded)]).
Proof.
  intros nonce event payload src sender ids forwarded waited out out'.
  destruct (others_spec sender ids) as (Hself & Hmem & Hnd & Hlen & _).
  assert (Hfst : forall (m : IPCMessage) (l : list Z),
            (map (fun id => (id, m)) l).*1 = l).
  { intros m l. induction l as [|x l IH]; [done|]. simpl. f_equal. exact IH. }
  split; [done|]. split; [done|]. split.
  { intros id m Hin. unfold out in Hin. simpl in Hin.
    apply list_elem_of_fmap in Hin as (x & [= -> ->] & Hx).
    apply Hmem in Hx as [Hx Hne]. done. }
  split.
  { intros id Hid Hne. unfold out. simpl.
    apply list_elem_of_fmap. exists id. split; [done|]. by apply Hmem. }
  split.
  { intros id Hid Hne. unfold out'. simpl.
    apply list_elem_of_fmap. exists id. split; [done|]. by apply Hmem. }
  split.
  { intros Hids. unfold out, out'. simpl.
    rewrite (Hfst forwarded), (Hfst waited). split; by apply Hnd. }
  split; [|done].
  intros Hids Hs. unfold out, out'. simpl. rewrite !length_map.
  split; by apply Hlen.
Qed.

(** X20.  Where an acknowledgement goes.  A client that receives an
    EventEmitAndWait sends an EventAck whose data names the client itself as
    source; the manager's event bus delivers an EventAck to the cluster named
    in that data.  So the acknowledgement is delivered to the cluster that
    sent it, whichever cluster broadcast the event and whichever handler
    received the ack: a broadcaster other than the acknowledging cluster is
    not among the receivers.  The acknowledging client, having no pending
    entry under the nonce, ignores the ack it gets back. *)
Theorem ack_is_delivered_to_the_acknowledging_cluster :
  forall (nonce event : string) (payload : JSValue)
         (broadcaster : Z) (st : EventBusClient.State) (ids : list Z)
         (self : nat) (m : ClusterHandler.Manager),
    let me := EventBusClient.clusterId st in
    let st' :=
      EventBusClient.handleIncoming
        (EventEmitAndWait nonce event payload broadcaster) st in
    let ack := EventAck nonce me in
    last (EventBusClient.sent st') = Some ack
    /\ (forall sender,
          EventBusManager.handleMessage ack sender ids = [(me, ack)])
    /\ (broadcaster <> me ->
        forall sender,
          broadcaster ∉ (EventBusManager.handleMessage ack sender ids).*1)
    /\ ClusterHandlerIPC.handleEvent self ack m
       = match ClusterHandlerIPC.registry_get (ClusterHandler.clusters m) me with
         | Some ref => [ClusterHandlerIPC.SendInstance ref ack]
         | None => []
         end
    /\ (EventBusClient.ackPromises st !! nonce = None ->
        EventBusClient.handleIncoming ack st' = st').
Proof.
  intros nonce event payload broadcaster st ids self m me st' ack.
  split; [apply last_snoc|]. split; [done|]. split.
  { intros Hne sender. simpl. intros Hin%list_elem_of_singleton. done. }
  split.
  { unfold ClusterHandlerIPC.handleEvent. simpl.
    by destruct (ClusterHandlerIPC.registry_get (ClusterHandler.clusters m) me). }
  intros Hnone. unfold st'. simpl. by rewrite Hnone.
Qed.

Lemma ack_is_delivered_to_the_acknowledging_cluster_witness :
  let st' :=
    EventBusClient.handleIncoming (EventEmitAndWait "n1" "reload" JNull 0)
      (EventBusClient.init 1) in
  last (EventBusClient.sent st') = Some (EventAck "n1" 1)
  /\ EventBusManager.handleMessage (EventAck "n1" 1) 1 [0; 1; 2]
     = [(1, EventAck "n1" 1)].
Proof.
  intros st'.
  destruct (ack_is_delivered_to_the_acknowledging_cluster "n1" "reload" JNull
              0 (EventBusClient.init 1) [0; 1; 2] 0%nat
              {| ClusterHandler.m_ready := true;
                 ClusterHandler.packageType := None;
                 ClusterHandler.totalClusters := 0;
                 ClusterHandler.clusters := [];
                 ClusterHandler.objects := fun _ =>
                   {| ClusterHandler.c_id := 0; ClusterHandler.c_ready := true;
                      ClusterHandler.c_exited := false;
                      ClusterHandler.lastHeartbeatReceived := 0 |} |})
    as (Hlast & Hroute & _).
  split; [exact Hlast|exact (Hroute 1)].
Defined.

(** ** ClusterHandler: routing IPC messages between clusters *)

Lemma registry_get_entry (clusters : list (Z * nat)) (id : Z) (ref : nat) :
  NoDup clusters.*1 -> (id, ref) ∈ clusters ->
  ClusterHandlerIPC.registry_get clusters id = Some ref.
Proof.
  unfold ClusterHandlerIPC.registry_get.
  induction clusters as [|[k r] l IH]; intros Hnd Hin.
  { by apply not_elem_of_nil in Hin. }
  simpl in Hnd. apply NoDup_cons in Hnd as [Hk Hnd]. simpl.
  destruct (Z.eqb_spec k id) as [->|Hne].
  - apply elem_of_cons in Hin as [[= ->]|Hin]; [done|].
    exfalso. apply Hk. apply list_elem_of_fmap. by exists (id, ref).
  - apply elem_of_cons in Hin as [[= -> ->]|Hin]; [done|]. by apply IH.
Qed.

Lemma registry_get_None (clusters : list (Z * nat)) (id : Z) :
  id ∉ clusters.*1 -> ClusterHandlerIPC.registry_get clusters id = None.
Proof.
  unfold ClusterHandlerIPC.registry_get.
  induction clusters as [|[k r] l IH]; intros Hid; [done|].
  simpl in *. apply not_elem_of_cons in Hid as [Hne Hid].
  destruct (Z.eqb_spec k id) as [->|_]; [done|]. by apply IH.
Qed.

Lemma deliveries_registered (clusters : list (Z * nat)) (msg : IPCMessage)
    (l : list (Z * nat)) :
  NoDup clusters.*1 -> l ⊆ clusters ->
  omap (fun d : Z * IPCMessage =>
          (fun ref => ClusterHandlerIPC.SendInstance ref (snd d))
            <$> ClusterHandlerIPC.registry_get clusters (fst d))
    (map (fun id => (id, msg)) l.*1)
  = map (fun e => ClusterHandlerIPC.SendInstance (snd e) msg) l.
Proof.
  intros Hnd. induction l as [|[k r] l IH]; intros Hsub; [done|].
  simpl. rewrite (registry_get_entry clusters k r Hnd).
  - simpl. f_equal. apply IH. intros x Hx. apply Hsub. by right.
  - apply Hsub. by left.
Qed.

(** X21.  How the manager routes what a cluster sends.  A HandlerRequest,
    HandlerRequestAll, HandlerResponse or HandlerError is passed on,
    unchanged, to every cluster registered under an id other than the
    sender's, in registry order, and to no one else: nothing goes back to
    the sender's own channel; with the sender registered, all clusters but
    one receive it.  A broadcast EventEmit reaches the same clusters as an
    EventForward; an EventEmit for a target that is not registered is
    dropped.  A store request is answered on the sender's own channel with
    one StoreResponse carrying its nonce, and passed on to no cluster. *)
Theorem manager_routes_messages_between_clusters :
  forall (self : nat) (message : IPCMessage) (m : ClusterHandler.Manager)
         (store : gmap string StoreEntry) (now : Z),
    let own := ClusterHandler.c_id (ClusterHandler.objects m self) in
    let registry := ClusterHandler.clusters m in
    let others := filter (fun e : Z * nat => fst e <> own) registry in
    let fx := ClusterHandlerIPC.forward self message m in
    fx = map (fun e => ClusterHandlerIPC.SendInstance (snd e) message) others
    /\ (forall id ref, (id, ref) ∈ registry -> id <> own ->
          ClusterHandlerIPC.SendInstance ref message ∈ fx)
    /\ (forall e, e ∈ fx ->
          exists id ref, e = ClusterHandlerIPC.SendInstance ref message
                         /\ (id, ref) ∈ registry /\ id <> own)
    /\ (NoDup registry.*1 -> own ∈ registry.*1 ->
        S (length fx) = length registry)
    /\ (NoDup registry.*1 ->
        forall nonce event payload src,
          ClusterHandlerIPC.handleEvent self
            (EventEmit nonce event payload src None) m
          = map (fun e => ClusterHandlerIPC.SendInstance (snd e)
                            (EventForward nonce event payload src)) others)
    /\ (forall nonce event payload src target,
          target ∉ registry.*1 ->
          ClusterHandlerIPC.handleEvent self
            (EventEmit nonce event payload src (Some target)) m = [])
    /\ (is_store_request message = true ->
        exists w,
          fst (ClusterHandlerIPC.handleStore message store now)
          = [ClusterHandlerIPC.IpcSend (StoreResponse (nonce_of message) w)]).
Proof.
  intros self message m store now own registry others fx.
  split; [done|]. split.
  { intros id ref Hin Hne. unfold fx, ClusterHandlerIPC.forward.
    apply list_elem_of_fmap. exists (id, ref). split; [done|].
    apply list_elem_of_filter. done. }
  split.
  { intros e He. unfold fx, ClusterHandlerIPC.forward in He.
    apply list_elem_of_fmap in He as ([id ref] & -> & Hin).
    apply list_elem_of_filter in Hin as [Hne Hin]. by exists id, ref. }
  split.
  { intros Hnd Hown. unfold fx, ClusterHandlerIPC.forward. rewrite length_map.
    fold own registry. clearbody own registry. clear -Hnd Hown.
    induction registry as [|[k r] l IH]; [by apply not_elem_of_nil in Hown|].
    simpl in Hnd. apply NoDup_cons in Hnd as [Hk Hnd].
    destruct (decide (k = own)) as [->|Hne].
    - rewrite filter_cons_False by (intros H; by apply H). simpl. f_equal.
      clear IH Hown Hnd. induction l as [|[j q] l IH]; [done|].
      simpl in Hk. apply not_elem_of_cons in Hk as [Hj Hk].
      rewrite filter_cons_True by (simpl; congruence). simpl. f_equal. by apply IH.
    - rewrite filter_cons_True by done. simpl. f_equal. apply IH; [done|].
      simpl in Hown. apply elem_of_cons in Hown as [->|Hown]; done. }
  split.
  { intros Hnd nonce event payload src.
    unfold ClusterHandlerIPC.handleEvent. simpl. fold own registry.
    assert (Heq : EventBusManager.others own (map fst registry) = others.*1).
    { unfold EventBusManager.others, others. clear.
      induction registry as [|[k r] l IH]; [done|]. simpl.
      destruct (decide (k <> own)).
      - rewrite !filter_cons_True by done. simpl. f_equal. exact IH.
      - rewrite !filter_cons_False by done. exact IH. }
    rewrite Heq. apply deliveries_registered; [done|].
    intros x Hx. by apply list_elem_of_filter in Hx as [_ Hx]. }
  split.
  { intros nonce event payload src target Ht.
    unfold ClusterHandlerIPC.handleEvent. simpl. fold registry.
    by rewrite registry_get_None. }
  intros Hreq. unfold ClusterHandlerIPC.handleStore.
  destruct message; try discriminate; simpl.
  - destruct (StoreManager.get store key now). simpl. eauto.
  - eauto.
  - destruct (StoreManager.has store key now). simpl. eauto.
  - eauto.
Qed.

Lemma manager_routes_messages_between_clusters_witness :
  let unit0 := {| ClusterHandler.c_id := 0; ClusterHandler.c_ready := true;
                  ClusterHandler.c_exited := false;
                  ClusterHandler.lastHeartbeatReceived := 0 |} in
  let m := {| ClusterHandler.m_ready := true;
              ClusterHandler.packageType := None;
              ClusterHandler.totalClusters := 3;
              ClusterHandler.clusters := [(0, 0%nat); (1, 1%nat); (2, 2%nat)];
              ClusterHandler.objects := fun _ => unit0 |} in
  length (ClusterHandlerIPC.forward 0 (HandlerRequestAll "n1" "stats" JNull) m)
  = 2%nat.
Proof.
  intros unit0 m.
  destruct (manager_routes_messages_between_clusters 0
              (HandlerRequestAll "n1" "stats" JNull) m ∅ 0)
    as (_ & _ & _ & Hlen & _).
  assert (Hnd : NoDup [0; 1; 2]) by (apply (bool_decide_unpack _); vm_compute; exact I).
  exact (eq_add_S _ _ (Hlen Hnd ltac:(left))).
Defined.

(** ** ProcessGuard: the table of cleanup tasks *)

Lemma shutdown_loop (tasks : list (string * ProcessGuard.CleanupTask)) :
  ProcessGuard.attempts (flat_map ProcessGuard.runTask tasks) = tasks.*1
  /\ ProcessGuard.failures (flat_map ProcessGuard.runTask tasks)
     = omap entry_failure tasks
  /\ ProcessGuard.kills (flat_map ProcessGuard.runTask tasks) = [].
Proof.
  induction tasks as [|[n [b ms]] tasks (IHa & IHf & IHk)]; [done|].
  cbn [flat_map]. rewrite attempts_app, failures_app, kills_app, IHa, IHf, IHk.
  unfold ProcessGuard.runTask, entry_failure. simpl. by destruct b.
Qed.

Lemma shutdown_tail (onComplete : option string) (st : ProcessGuard.State) :
  let tail :=
    ProcessGuard.killAllChildren st
    ++ [ProcessGuard.EmitShutdownComplete]
    ++ match onComplete with
       | None => [ProcessGuard.InfoCompleted] ++ ProcessGuard.release st
                 ++ [ProcessGuard.Exit 0]
       | Some m =>
           [ProcessGuard.DebugShutdownError m] ++ ProcessGuard.killAllChildren st
           ++ ProcessGuard.release st ++ [ProcessGuard.Exit 1]
       end in
  ProcessGuard.attempts tail = []
  /\ ProcessGuard.failures tail = []
  /\ ProcessGuard.kills tail
     = omap id (ProcessGuard.children st)
       ++ match onComplete with
          | None => []
          | Some _ => omap id (ProcessGuard.children st)
          end.
Proof.
  intros tail. unfold tail.
  destruct (killAll_effects st) as (Ka & Kf & Kk & _).
  destruct (release_effects st) as (Ra & Rk & _).
  assert (Rf : ProcessGuard.failures (ProcessGuard.release st) = []).
  { unfold ProcessGuard.release.
    by destruct (ProcessGuard.forceExitTimeout st),
                (ProcessGuard.orphanCheckInterval st). }
  destruct onComplete;
    rewrite ?attempts_app, ?failures_app, ?kills_app, ?Ka, ?Kf, ?Kk, ?Ra, ?Rk, ?Rf;
    simpl; by rewrite ?app_nil_r.
Qed.

Lemma shutdown_effects (onComplete : option string) (st : ProcessGuard.State) :
  let fx := ProcessGuard.executeShutdown onComplete st in
  ProcessGuard.attempts fx = (ProcessGuard.cleanupTasks st).*1
  /\ ProcessGuard.failures fx = omap entry_failure (ProcessGuard.cleanupTasks st)
  /\ ProcessGuard.kills fx
     = omap id (ProcessGuard.children st)
       ++ match onComplete with
          | None => []
          | Some _ => omap id (ProcessGuard.children st)
          end.
Proof.
  intros fx. unfold fx, ProcessGuard.executeShutdown.
  destruct (shutdown_loop (ProcessGuard.cleanupTasks st)) as (La & Lf & Lk).
  destruct (shutdown_tail onComplete st) as (Ta & Tf & Tk).
  cbv zeta in Ta, Tf, Tk.
  rewrite attempts_app, failures_app, kills_app, La, Lf, Lk, Ta, Tf, Tk.
  by rewrite !app_nil_r.
Qed.

Lemma entry_failure_cons (e : string * ProcessGuard.CleanupTask)
    (l : list (string * ProcessGuard.CleanupTask)) :
  omap entry_failure (e :: l)
  = match entry_failure e with
    | Some x => x :: omap entry_failure l
    | None => omap entry_failure l
    end.
Proof. done. Qed.

Lemma entry_failure_name (e : string * ProcessGuard.CleanupTask)
    (f : string * string) :
  entry_failure e = Some f -> fst f = fst e.
Proof.
  destruct e as [n [b ms]]. unfold entry_failure. simpl.
  destruct b; intros [= <-]; done.
Qed.

Lemma remove_by_name (tasks : list (string * ProcessGuard.CleanupTask))
    (name : string) :
  let rest := filter (fun e : string * ProcessGuard.CleanupTask => fst e <> name)
                tasks in
  rest.*1 = filter (fun n => n <> name) tasks.*1
  /\ omap entry_failure rest
     = filter (fun f => fst f <> name) (omap entry_failure tasks)
  /\ (name ∉ tasks.*1 -> rest = tasks).
Proof.
  induction tasks as [|e tasks (IHa & IHf & IHn)]; [done|]. cbv zeta in *.
  destruct (decide (fst e <> name)) as [Hne|Heq].
  - rewrite filter_cons_True by done. split; [|split].
    + simpl. rewrite filter_cons_True by done. f_equal. exact IHa.
    + rewrite !entry_failure_cons.
      destruct (entry_failure e) as [f|] eqn:He; [|exact IHf].
      rewrite filter_cons_True by (by rewrite (entry_failure_name _ _ He)).
      by rewrite IHf.
    + intros [_ Hn]%not_elem_of_cons. f_equal. by apply IHn.
  - rewrite filter_cons_False by done. split; [|split].
    + simpl. rewrite filter_cons_False by done. exact IHa.
    + rewrite entry_failure_cons.
      destruct (entry_failure e) as [f|] eqn:He; [|exact IHf].
      rewrite filter_cons_False by (by rewrite (entry_failure_name _ _ He)).
      exact IHf.
    + intros [Hn _]%not_elem_of_cons. exfalso. apply Heq. congruence.
Qed.

(** X22.  [removeCleanupTask(name)] takes the task out of the shutdown: the
    tasks attempted are those attempted without the call, minus [name], in
    the same order, and the failures recorded are the same minus those of
    [name]; the children terminated are the same.  Removing a name that is
    not registered changes nothing. *)
Theorem removed_task_is_not_attempted :
  forall (st : ProcessGuard.State) (name : string) (onComplete : option string),
    let before := ProcessGuard.executeShutdown onComplete st in
    let after :=
      ProcessGuard.executeShutdown onComplete
        (ProcessGuard.removeCleanupTask name st) in
    ProcessGuard.attempts after
    = filter (fun n => n <> name) (ProcessGuard.attempts before)
    /\ (name ∉ ProcessGuard.attempts after)
    /\ ProcessGuard.failures after
       = filter (fun f => fst f <> name) (ProcessGuard.failures before)
    /\ ProcessGuard.kills after = ProcessGuard.kills before
    /\ (name ∉ ProcessGuard.attempts before ->
        ProcessGuard.removeCleanupTask name st = st).
Proof.
  intros st name onComplete before after.
  destruct (shutdown_effects onComplete st) as (Ba & Bf & Bk).
  destruct (shutdown_effects onComplete (ProcessGuard.removeCleanupTask name st))
    as (Aa & Af & Ak).
  fold before in Ba, Bf, Bk. fold after in Aa, Af, Ak.
  destruct (remove_by_name (ProcessGuard.cleanupTasks st) name) as (Ha & Hf & Hn).
  rewrite Aa, Af, Ak, Ba, Bf, Bk. simpl.
  split; [exact Ha|]. split.
  { rewrite Ha. intros [H _]%list_elem_of_filter. by apply H. }
  split; [exact Hf|]. split; [done|].
  intros Habs. destruct st as [ts cs f o]. unfold ProcessGuard.removeCleanupTask.
  simpl in *. f_equal. by apply Hn.
Qed.

Lemma map_set_keys (name : string) (t : ProcessGuard.CleanupTask)
    (m : list (string * ProcessGuard.CleanupTask)) :
  (ProcessGuard.map_set name t m).*1
  = if decide (name ∈ m.*1) then m.*1 else m.*1 ++ [name].
Proof.
  induction m as [|[n t'] m IH]; [done|]. cbn [ProcessGuard.map_set].
  case_bool_decide as Hn.
  - subst n. rewrite !fmap_cons. cbn [fst]. rewrite decide_True by left. done.
  - rewrite !fmap_cons, IH. cbn [fst].
    destruct (decide (name ∈ m.*1)) as [Hin|Hout].
    + rewrite decide_True by (by right). done.
    + rewrite decide_False; [done|].
      intros [?|?]%elem_of_cons; [congruence|done].
Qed.

Lemma map_set_elements (name : string) (t : ProcessGuard.CleanupTask)
    (m : list (string * ProcessGuard.CleanupTask)) (e : string * ProcessGuard.CleanupTask) :
  NoDup m.*1 -> e ∈ ProcessGuard.map_set name t m ->
  e = (name, t) \/ (e ∈ m /\ fst e <> name).
Proof.
  induction m as [|[n t'] m IH]; intros Hnd He.
  { apply list_elem_of_singleton in He. by left. }
  simpl in Hnd. apply NoDup_cons in Hnd as [Hn Hnd]. simpl in He.
  case_bool_decide as Heq.
  - subst n. apply elem_of_cons in He as [->|He]; [by left|]. right.
    split; [by right|]. intros <-. apply Hn.
    apply list_elem_of_fmap. by exists e.
  - apply elem_of_cons in He as [->|He].
    + right. split; [by left|done].
    + destruct (IH Hnd He) as [->|[Hin Hne]]; [by left|].
      right. split; [by right|done].
Qed.

Lemma first_occurrences_snoc (l : list string) (x : string) :
  first_occurrences (l ++ [x])
  = if decide (x ∈ first_occurrences l) then first_occurrences l
    else first_occurrences l ++ [x].
Proof. unfold first_occurrences. by rewrite fold_left_app. Qed.

Lemma first_occurrences_spec (l : list string) :
  NoDup (first_occurrences l) /\ forall x, x ∈ first_occurrences l <-> x ∈ l.
Proof.
  induction l as [|x l [IHnd IHin]] using rev_ind.
  { split; [apply NoDup_nil_2|done]. }
  rewrite first_occurrences_snoc.
  destruct (decide (x ∈ first_occurrences l)) as [Hin|Hout].
  - split; [done|]. intros y. rewrite elem_of_app, list_elem_of_singleton, IHin.
    split; [by left|]. intros [?| ->]; [done|]. by apply IHin.
  - split.
    + apply NoDup_app. split; [done|]. split; [|apply NoDup_singleton].
      intros y Hy Hx%list_elem_of_singleton. by subst y.
    + intros y. rewrite !elem_of_app, !list_elem_of_singleton, IHin. done.
Qed.

Lemma last_registration_snoc (name : string)
    (regs : list (string * ProcessGuard.TaskBehaviour * option Z))
    (r : string * ProcessGuard.TaskBehaviour * option Z) :
  last_registration name (regs ++ [r])
  = if decide (fst (fst r) = name) then Some r else last_registration name regs.
Proof.
  unfold last_registration. rewrite filter_app.
  destruct (decide (fst (fst r) = name)) as [Heq|Hne].
  - rewrite filter_cons_True by done. apply last_snoc.
  - rewrite filter_cons_False by done. by rewrite app_nil_r.
Qed.

Lemma omap_by_key {A : Type} (g : string -> option (string * A))
    (T : list (string * A)) :
  Forall (fun e => g (fst e) = Some e) T -> omap g T.*1 = T.
Proof.
  induction 1 as [|e T He _ IH]; [done|].
  rewrite fmap_cons. cbn [omap list_omap]. by rewrite He, IH.
Qed.

Lemma register_snoc (regs : list (string * ProcessGuard.TaskBehaviour * option Z))
    (r : string * ProcessGuard.TaskBehaviour * option Z) (st : ProcessGuard.State) :
  ProcessGuard.register (regs ++ [r]) st
  = ProcessGuard.addCleanupTask (fst (fst r)) (snd (fst r)) (snd r)
      (ProcessGuard.register regs st).
Proof. unfold ProcessGuard.register. by rewrite fold_left_app. Qed.

Lemma register_table (regs : list (string * ProcessGuard.TaskBehaviour * option Z))
    (st0 : ProcessGuard.State) :
  ProcessGuard.cleanupTasks st0 = [] ->
  let tasks := ProcessGuard.cleanupTasks (ProcessGuard.register regs st0) in
  tasks.*1 = first_occurrences regs.*1.*1
  /\ Forall (fun e => registered_entry <$> last_registration (fst e) regs = Some e)
       tasks
  /\ ProcessGuard.children (ProcessGuard.register regs st0)
     = ProcessGuard.children st0.
Proof.
  intros Hempty. induction regs as [|r regs (IHk & IHe & IHc)] using rev_ind.
  { simpl. rewrite Hempty. done. }
  cbv zeta in *. rewrite register_snoc. unfold ProcessGuard.addCleanupTask.
  cbn [ProcessGuard.cleanupTasks ProcessGuard.children].
  set (T := ProcessGuard.cleanupTasks (ProcessGuard.register regs st0)) in *.
  destruct (first_occurrences_spec regs.*1.*1) as [Hnd Hin].
  split; [|split; [|exact IHc]].
  - rewrite map_set_keys, !fmap_app.
    change ([r].*1.*1) with [fst (fst r)].
    rewrite first_occurrences_snoc, IHk. done.
  - apply Forall_forall. intros e He.
    apply map_set_elements in He; [|by rewrite IHk].
    rewrite last_registration_snoc.
    destruct He as [->|[He Hne]].
    + simpl. rewrite decide_True by done. simpl. by destruct r as [[n b] ms].
    + rewrite decide_False by congruence.
      by apply (proj1 (Forall_forall _ _) IHe).
Qed.

(** X23.  Cleanup tasks are kept by name.  Whatever is registered, names
    repeated or not, the shutdown attempts each name once, in the order in
    which the names were first registered; registering a name again replaces
    the callback and its timeout without moving the task, so the failure
    recorded for a name is the one of its last registration. *)
Theorem tasks_run_once_in_order_of_first_registration :
  forall (st0 : ProcessGuard.State)
         (regs : list (string * ProcessGuard.TaskBehaviour * option Z))
         (onComplete : option string),
    ProcessGuard.cleanupTasks st0 = [] ->
    let fx :=
      ProcessGuard.executeShutdown onComplete (ProcessGuard.register regs st0) in
    ProcessGuard.attempts fx = first_occurrences regs.*1.*1
    /\ NoDup (ProcessGuard.attempts fx)
    /\ (forall n, n ∈ ProcessGuard.attempts fx <-> n ∈ regs.*1.*1)
    /\ ProcessGuard.failures fx
       = omap (fun n => last_registration n regs ≫= recorded_failure)
           (ProcessGuard.attempts fx)
    /\ ProcessGuard.kills fx
       = omap id (ProcessGuard.children st0)
         ++ match onComplete with
            | None => []
            | Some _ => omap id (ProcessGuard.children st0)
            end.
Proof.
  intros st0 regs onComplete Hempty fx.
  destruct (shutdown_effects onComplete (ProcessGuard.register regs st0))
    as (Ha & Hf & Hk).
  fold fx in Ha, Hf, Hk.
  destruct (register_table regs st0 Hempty) as (Tk & Te & Tc).
  cbv zeta in Tk, Te.
  destruct (first_occurrences_spec regs.*1.*1) as [Hnd Hin].
  rewrite Ha, Hf, Hk, Tk, Tc.
  split; [done|]. split; [done|]. split; [exact Hin|]. split; [|done].
  rewrite <- Tk. clear -Te.
  induction Te as [|e T He _ IH]; [done|].
  rewrite entry_failure_cons, fmap_cons. cbn [omap list_omap].
  destruct (last_registration (fst e) regs) as [[[n b] ms]|]; [|done].
  simpl in He. injection He as <-. rewrite IH.
  unfold entry_failure, recorded_failure, registered_entry. by destruct b.
Qed.

Lemma tasks_run_once_in_order_of_first_registration_witness :
  let regs := [("A"%string, ProcessGuard.Throws "old", None);
               ("B"%string, ProcessGuard.Completes, None);
               ("A"%string, ProcessGuard.ExceedsTimeout, Some 10)] in
  let fx := ProcessGuard.executeShutdown None
              (ProcessGuard.register regs (ProcessGuard.emptyGuard [])) in
  ProcessGuard.attempts fx = ["A"%string; "B"%string]
  /\ ProcessGuard.failures fx = [("A"%string, "A timeout"%string)].
Proof.
  intros regs fx.
  destruct (tasks_run_once_in_order_of_first_registration
              (ProcessGuard.emptyGuard []) regs None eq_refl)
    as (Ha & _ & _ & Hf & _).
  split; [exact Ha|]. etransitivity; [exact Hf|]. vm_compute. reflexivity.
Defined.

Lemma no_exit_in_loop (tasks : list (string * ProcessGuard.CleanupTask)) :
  Forall (fun e => is_Exit e = false /\ e <> ProcessGuard.InfoCompleted)
    (flat_map ProcessGuard.runTask tasks).
Proof.
  induction tasks as [|[n [b ms]] tasks IH]; [done|].
  cbn [flat_map]. apply Forall_app. split; [|exact IH].
  unfold ProcessGuard.runTask. simpl. destruct b; repeat constructor; done.
Qed.

Lemma no_exit_in_kills (st : ProcessGuard.State) :
  Forall (fun e => is_Exit e = false /\ e <> ProcessGuard.InfoCompleted)
    (ProcessGuard.killAllChildren st).
Proof.
  unfold ProcessGuard.killAllChildren.
  induction (ProcessGuard.children st) as [|[h|] cs IH]; [done| |done].
  cbn [omap list_omap fmap option_fmap option_map]. by constructor.
Qed.

Lemma no_exit_in_release (st : ProcessGuard.State) :
  Forall (fun e => is_Exit e = false /\ e <> ProcessGuard.InfoCompleted)
    (ProcessGuard.release st).
Proof.
  unfold ProcessGuard.release.
  destruct (ProcessGuard.forceExitTimeout st),
           (ProcessGuard.orphanCheckInterval st); repeat constructor; done.
Qed.

(** X24.  The error path of the shutdown.  When a listener of
    ['shutdown:complete'] throws, every cleanup task has already been
    attempted and the children terminated; the error is logged right after
    the event, the children are terminated a second time, the timers are
    released and the liveness file removed as on the normal path, and the
    process exits with code 1: the only exit, the last effect, and
    'Graceful shutdown completed' is never logged. *)
Theorem failing_complete_listener_exits_with_code_1 :
  forall (st : ProcessGuard.State) (msg : string),
    let fx := ProcessGuard.executeShutdown (Some msg) st in
    last fx = Some (ProcessGuard.Exit 1)
    /\ filter (fun e => is_Exit e = true) fx = [ProcessGuard.Exit 1]
    /\ ProcessGuard.attempts fx = (ProcessGuard.cleanupTasks st).*1
    /\ ProcessGuard.kills fx
       = omap id (ProcessGuard.children st) ++ omap id (ProcessGuard.children st)
    /\ (ProcessGuard.InfoCompleted ∉ fx)
    /\ (exists before after,
          fx = before
               ++ ProcessGuard.EmitShutdownComplete
               :: ProcessGuard.DebugShutdownError msg :: after
          /\ ProcessGuard.attempts after = []
          /\ ProcessGuard.UnlinkPidFile ∈ after).
Proof.
  intros st msg fx.
  destruct (shutdown_effects (Some msg) st) as (Ha & _ & Hk).
  fold fx in Ha, Hk.
  pose proof (no_exit_in_loop (ProcessGuard.cleanupTasks st)) as Hloop.
  pose proof (no_exit_in_kills st) as Hkill.
  pose proof (no_exit_in_release st) as Hrel.
  assert (Hfx : fx = (flat_map ProcessGuard.runTask (ProcessGuard.cleanupTasks st)
                      ++ ProcessGuard.killAllChildren st
                      ++ [ProcessGuard.EmitShutdownComplete;
                          ProcessGuard.DebugShutdownError msg]
                      ++ ProcessGuard.killAllChildren st
                      ++ ProcessGuard.release st)
                     ++ [ProcessGuard.Exit 1]).
  { unfold fx, ProcessGuard.executeShutdown.
    repeat rewrite <- app_assoc. done. }
  assert (Hbody : Forall (fun e => is_Exit e = false /\ e <> ProcessGuard.InfoCompleted)
            (flat_map ProcessGuard.runTask (ProcessGuard.cleanupTasks st)
             ++ ProcessGuard.killAllChildren st
             ++ [ProcessGuard.EmitShutdownComplete;
                 ProcessGuard.DebugShutdownError msg]
             ++ ProcessGuard.killAllChildren st
             ++ ProcessGuard.release st)).
  { apply Forall_app; split; [exact Hloop|].
    apply Forall_app; split; [exact Hkill|].
    apply Forall_app; split; [by repeat constructor|].
    apply Forall_app; split; [exact Hkill|exact Hrel]. }
  split; [rewrite Hfx; apply last_snoc|]. split.
  { rewrite Hfx, filter_app, filter_cons_True, filter_nil by done.
    assert (Hnone : forall l,
              Forall (fun e => is_Exit e = false /\ e <> ProcessGuard.InfoCompleted) l ->
              filter (fun e => is_Exit e = true) l = []).
    { induction 1 as [|e l [He _] _ IH]; [done|].
      rewrite filter_cons_False by (rewrite He; discriminate). exact IH. }
    by rewrite Hnone. }
  split; [exact Ha|]. split; [exact Hk|]. split.
  { rewrite Hfx. intros [Hin|Hin]%elem_of_app.
    - by apply (proj1 (Forall_forall _ _) Hbody) in Hin as [_ Hne].
    - by apply list_elem_of_singleton in Hin. }
  exists (flat_map ProcessGuard.runTask (ProcessGuard.cleanupTasks st)
          ++ ProcessGuard.killAllChildren st),
         (ProcessGuard.killAllChildren st ++ ProcessGuard.release st
          ++ [ProcessGuard.Exit 1]).
  split.
  { unfold fx, ProcessGuard.executeShutdown.
    repeat rewrite <- app_assoc. done. }
  destruct (killAll_effects st) as (Ka & _).
  destruct (release_effects st) as (Ra & _).
  split; [by rewrite !attempts_app, Ka, Ra|].
  apply elem_of_app. right. apply elem_of_app. left.
  unfold ProcessGuard.release. apply elem_of_app. right.
  apply elem_of_app. right. by left.
Qed.

(** ** ProcessGuard: one shutdown per process *)

Lemma signals_after_start (ms : Z) (evs : list ProcessGuardSignals.Event) :
  forall (st : ProcessGuardSignals.State) (fx : list ProcessGuardSignals.Effect),
    ProcessGuardSignals.isShuttingDown st = true ->
    let s := fold_left (ProcessGuardSignals.step ms) evs (st, fx) in
    fst s = st
    /\ shutdown_calls (snd s) = shutdown_calls fx
    /\ force_exits (snd s) = force_exits fx
    /\ shutdown_starts (snd s) = shutdown_starts fx.
Proof.
  induction evs as [|ev evs IH]; intros st fx Hs; [done|].
  assert (Hstep : exists new,
            ProcessGuardSignals.step ms (st, fx) ev = (st, fx ++ new)
            /\ shutdown_calls new = [] /\ force_exits new = []
            /\ shutdown_starts new = []).
  { destruct ev; unfold ProcessGuardSignals.step; simpl;
      unfold ProcessGuardSignals.initiate, ProcessGuardSignals.signalHandler,
        ProcessGuardSignals.uncaughtException,
        ProcessGuardSignals.unhandledRejection;
      rewrite ?Hs; eauto. }
  destruct Hstep as (new & Hstep & Hc & Hf & Hst).
  simpl. rewrite Hstep.
  destruct (IH st (fx ++ new) Hs) as (H1 & H2 & H3 & H4).
  cbv zeta in *. rewrite H1, H2, H3, H4.
  unfold shutdown_calls, force_exits, shutdown_starts in *.
  rewrite !omap_app, Hc, Hf, Hst, !app_nil_r. done.
Qed.

(** X25.  One shutdown per process.  Over any history of [initiate] calls,
    signals, uncaught exceptions and unhandled rejections, everything is
    decided by the first event that can start the shutdown.  Before it,
    nothing is started or armed.  From it on [isInShutdown()] is true and
    the start time is the time of that event; [executeShutdown] is called
    once, with the reason of that event (not at all when a listener of
    ['shutdown:start'] threw); the force-exit timer is armed once, by that
    event, when it is a signal or an uncaught exception, and not at all
    when it is a direct [initiate].  Later signals and calls start nothing
    and arm nothing. *)
Theorem shutdown_is_started_by_the_first_event_only :
  forall (forceExitMs : Z) (evs : list ProcessGuardSignals.Event),
    let s := ProcessGuardSignals.run forceExitMs ProcessGuardSignals.init evs in
    match List.find starts_shutdown evs with
    | None =>
        fst s = ProcessGuardSignals.init
        /\ shutdown_calls (snd s) = []
        /\ force_exits (snd s) = []
        /\ shutdown_starts (snd s) = []
    | Some ev =>
        ProcessGuardSignals.isInShutdown (fst s) = true
        /\ ProcessGuardSignals.shutdownStartTime (fst s) = start_time ev
        /\ ProcessGuardSignals.forceExitTimeout (fst s) = start_force_exit ev
        /\ shutdown_starts (snd s) = [start_reason ev]
        /\ shutdown_calls (snd s)
           = match start_listener ev with
             | None => [start_reason ev]
             | Some _ => []
             end
        /\ force_exits (snd s)
           = match start_force_exit ev with
             | Some f => [(f, forceExitMs)]
             | None => []
             end
    end.
Proof.
  intros forceExitMs evs s. unfold s, ProcessGuardSignals.run.
  assert (Hgen : forall fx,
            shutdown_calls fx = [] -> force_exits fx = [] ->
            shutdown_starts fx = [] ->
            let s := fold_left (ProcessGuardSignals.step forceExitMs) evs
                       (ProcessGuardSignals.init, fx) in
            match List.find starts_shutdown evs with
            | None =>
                fst s = ProcessGuardSignals.init
                /\ shutdown_calls (snd s) = []
                /\ force_exits (snd s) = []
                /\ shutdown_starts (snd s) = []
            | Some ev =>
                ProcessGuardSignals.isInShutdown (fst s) = true
                /\ ProcessGuardSignals.shutdownStartTime (fst s) = start_time ev
                /\ ProcessGuardSignals.forceExitTimeout (fst s) = start_force_exit ev
                /\ shutdown_starts (snd s) = [start_reason ev]
                /\ shutdown_calls (snd s)
                   = match start_listener ev with
                     | None => [start_reason ev]
                     | Some _ => []
                     end
                /\ force_exits (snd s)
                   = match start_force_exit ev with
                     | Some f => [(f, forceExitMs)]
                     | None => []
                     end
            end).
  { clear s. induction evs as [|ev evs IH]; intros fx Hc Hf Hst; [done|].
    cbn [List.find fold_left].
    destruct (starts_shutdown ev) eqn:Hev.
    - (* the event that starts the shutdown *)
      assert (Hstep : exists st' new,
                ProcessGuardSignals.step forceExitMs
                  (ProcessGuardSignals.init, fx) ev = (st', fx ++ new)
                /\ ProcessGuardSignals.isShuttingDown st' = true
                /\ ProcessGuardSignals.shutdownStartTime st' = start_time ev
                /\ ProcessGuardSignals.forceExitTimeout st' = start_force_exit ev
                /\ shutdown_starts new = [start_reason ev]
                /\ shutdown_calls new
                   = match start_listener ev with
                     | None => [start_reason ev]
                     | Some _ => []
                     end
                /\ force_exits new
                   = match start_force_exit ev with
                     | Some f => [(f, forceExitMs)]
                     | None => []
                     end).
      { destruct ev as [r now [e|]|sg now [e|]|err now [e|]|r];
          try discriminate; eexists _, _; (split; [reflexivity|]); done. }
      destruct Hstep as (st' & new & Hstep & Hs & Ht & Hfe & Hst' & Hc' & Hf').
      rewrite Hstep.
      destruct (signals_after_start forceExitMs evs st' (fx ++ new) Hs)
        as (H1 & H2 & H3 & H4).
      cbv zeta in *. rewrite H1, H2, H3, H4.
      unfold ProcessGuardSignals.isInShutdown.
      unfold shutdown_calls, force_exits, shutdown_starts in *.
      rewrite !omap_app, Hc, Hf, Hst, Hc', Hf', Hst'. done.
    - destruct ev; try discriminate.
      unfold ProcessGuardSignals.step at 2. simpl.
      apply IH; unfold shutdown_calls, force_exits, shutdown_starts in *;
        rewrite omap_app; simpl; rewrite ?Hc, ?Hf, ?Hst; done. }
  by apply Hgen.
Qed.

(** ** ClusterProcessGuard: missed liveness checks *)

Lemma trailing_failures (l : list bool) :
  exists before, l = before ++ replicate (leading_failures (rev l)) false.
Proof.
  induction l as [|a l [before IH]] using rev_ind.
  { by exists []. }
  rewrite rev_app_distr. simpl. destruct a.
  - exists (l ++ [true]). simpl. by rewrite app_nil_r.
  - exists before. simpl.
    change (false :: replicate ?n false) with (replicate (S n) false).
    rewrite replicate_S_end, app_assoc, <- IH. done.
Qed.

Lemma rev_replicate {A : Type} (n : nat) (x : A) :
  rev (replicate n x) = replicate n x.
Proof.
  induction n as [|n IH]; [done|].
  simpl. by rewrite IH, <- replicate_S_end.
Qed.

Lemma leading_failures_replicate (n : nat) (l : list bool) :
  (n <= leading_failures (replicate n false ++ l))%nat.
Proof. induction n as [|n IH]; simpl; lia. Qed.

Lemma fails_in_a_row_snoc (k : nat) (checks : list bool) (a : bool) :
  fails_in_a_row k (checks ++ [a]) ->
  fails_in_a_row k checks
  \/ (a = false /\ k <= leading_failures (rev (checks ++ [a])))%nat
  \/ k = 0%nat.
Proof.
  intros (before & after & Heq).
  destruct after as [|b after _] using rev_ind.
  - rewrite app_nil_r in Heq. destruct k as [|k]; [by right; right|].
    right. left. rewrite Heq.
    assert (Ha : a = false).
    { rewrite replicate_S_end, !app_assoc in Heq.
      by apply app_inj_tail in Heq as [_ ->]. }
    split; [done|].
    rewrite rev_app_distr, rev_replicate.
    apply (leading_failures_replicate (S k)).
  - left. rewrite !app_assoc in Heq. apply app_inj_tail in Heq as [Heq _].
    exists before, after. by rewrite Heq, <- app_assoc.
Qed.

Lemma guard_run_snoc (st : ClusterProcessGuard.State) (checks : list bool)
    (a : bool) :
  ClusterProcessGuard.run st (checks ++ [a])
  = ClusterProcessGuard.step (ClusterProcessGuard.run st checks) a.
Proof. unfold ClusterProcessGuard.run. by rewrite fold_left_app. Qed.

Lemma guard_invariant (pid M : Z) (checks : list bool) :
  let k := Z.max 1 M in
  let s := ClusterProcessGuard.run
             {| ClusterProcessGuard.managerPid := pid;
                ClusterProcessGuard.missedChecks := 0;
                ClusterProcessGuard.maxMissed := M;
                ClusterProcessGuard.exited := false |} checks in
  ClusterProcessGuard.managerPid (fst s) = pid
  /\ ClusterProcessGuard.maxMissed (fst s) = M
  /\ ((ClusterProcessGuard.exited (fst s) = false
       /\ snd s = []
       /\ ClusterProcessGuard.missedChecks (fst s) = failed_in_a_row checks
       /\ failed_in_a_row checks < k
       /\ ~ fails_in_a_row (Z.to_nat k) checks)
      \/ (ClusterProcessGuard.exited (fst s) = true
          /\ snd s = [ClusterProcessGuard.ConsoleError pid k;
                      ClusterProcessGuard.ClearInterval;
                      ClusterProcessGuard.Exit 1]
          /\ fails_in_a_row (Z.to_nat k) checks)).
Proof.
  intros k.
  assert (Hk1 : 1 <= k) by (unfold k; lia).
  assert (HkM : M <= k) by (unfold k; lia).
  assert (Hkc : k = 1 \/ k = M) by (unfold k; lia).
  induction checks as [|a checks IH] using rev_ind.
  { simpl. split; [done|]. split; [done|]. left.
    split; [done|]. split; [done|]. split; [done|].
    split; [unfold failed_in_a_row, k; simpl; lia|].
    intros (before & after & Heq).
    destruct (Z.to_nat k) as [|n] eqn:Hk; [unfold k in Hk; lia|].
    destruct before; discriminate. }
  cbv zeta in *. rewrite guard_run_snoc.
  destruct (ClusterProcessGuard.run _ checks) as [st fx].
  destruct IH as (Hpid & HM & IH). simpl in Hpid, HM, IH.
  unfold ClusterProcessGuard.step, ClusterProcessGuard.check. simpl.
  destruct IH as [(Hex & Hfx & Hmiss & Hlt & Hno)|(Hex & Hfx & Hrun)].
  - rewrite Hex. destruct a.
    + (* the manager is alive: the counter is reset *)
      simpl. split; [done|]. split; [done|]. left.
      split; [done|]. split; [by rewrite Hfx|].
      assert (Hz : failed_in_a_row (checks ++ [true]) = 0).
      { unfold failed_in_a_row. by rewrite rev_app_distr. }
      rewrite Hz. split; [done|]. split; [lia|].
      intros H. apply fails_in_a_row_snoc in H as [H|[[H _]|H]];
        [done|discriminate|lia].
    + (* a missed check *)
      assert (Hz : failed_in_a_row (checks ++ [false])
                   = failed_in_a_row checks + 1).
      { unfold failed_in_a_row. rewrite rev_app_distr. simpl. lia. }
      assert (Hpos : 0 <= failed_in_a_row checks)
        by (unfold failed_in_a_row; lia).
      rewrite HM, Hmiss.
      destruct (Z.leb_spec M (failed_in_a_row checks + 1)) as [Hge|Hlt'].
      * simpl. split; [done|]. split; [done|]. right.
        assert (Hk : failed_in_a_row checks + 1 = k) by lia.
        split; [done|]. split; [by rewrite Hfx, Hpid, Hk|].
        destruct (trailing_failures (checks ++ [false])) as [before Heq].
        exists before, []. rewrite app_nil_r.
        replace (Z.to_nat k) with (leading_failures (rev (checks ++ [false])));
          [done|].
        unfold failed_in_a_row in *. lia.
      * simpl. split; [done|]. split; [done|]. left.
        split; [done|]. split; [by rewrite Hfx|]. split; [by rewrite Hz|].
        split; [lia|].
        intros H. apply fails_in_a_row_snoc in H as [H|[[_ H]|H]];
          [done| |lia].
        unfold failed_in_a_row in *. lia.
  - rewrite Hex. simpl. split; [done|]. split; [done|]. right.
    split; [done|]. split; [by rewrite app_nil_r|].
    destruct Hrun as (before & after & ->).
    exists before, (after ++ [a]). by rewrite <- !app_assoc.
Qed.

(** X26.  A ClusterProcessGuard created with a parent process counts the
    liveness checks that failed in a row: the counter is the number of
    failed checks at the end of the history, and a successful check resets
    it.  The guard terminates the process, with code 1 and once, exactly
    when [maxMissed] checks in a row have failed (at the first failed check
    when [maxMissed] is 1 or less); until then it does nothing.  Without a
    parent process, or with init as parent, the constructor throws. *)
Theorem guard_exits_after_maxMissed_failed_checks_in_a_row :
  forall (ppid : Z) (maxMissed : option Z) (checks : list bool),
    match ClusterProcessGuard.create ppid maxMissed with
    | inl message =>
        (ppid = 0 \/ ppid = 1)
        /\ message = "ClusterProcessGuard: No parent process detected."%string
    | inr st0 =>
        let k := Z.max 1 (default 3 maxMissed) in
        let s := ClusterProcessGuard.run st0 checks in
        ppid <> 0 /\ ppid <> 1
        /\ (ClusterProcessGuard.exited (fst s) = true
            <-> fails_in_a_row (Z.to_nat k) checks)
        /\ (ClusterProcessGuard.exited (fst s) = false ->
            snd s = []
            /\ ClusterProcessGuard.missedChecks (fst s) = failed_in_a_row checks)
        /\ (ClusterProcessGuard.exited (fst s) = true ->
            snd s = [ClusterProcessGuard.ConsoleError ppid k;
                     ClusterProcessGuard.ClearInterval;
                     ClusterProcessGuard.Exit 1])
    end.
Proof.
  intros ppid maxMissed checks. unfold ClusterProcessGuard.create.
  destruct (Z.eqb_spec ppid 0) as [H0|H0]; simpl; [by split; [left|]|].
  destruct (Z.eqb_spec ppid 1) as [H1|H1]; simpl; [by split; [right|]|].
  destruct (guard_invariant ppid (default 3 maxMissed) checks)
    as (_ & _ & [(Hex & Hfx & Hm & _ & Hno)|(Hex & Hfx & Hrun)]);
    cbv zeta in *.
  - rewrite Hex. split; [done|]. split; [done|]. split; [split; [done|]|].
    + intros H. by apply Hno in H.
    + split; [done|]. discriminate.
  - rewrite Hex. split; [done|]. split; [done|]. split; [done|].
    split; [discriminate|done].
Qed.

(** ** Logger *)

Lemma log_cases (level : Logger.LogLevel) (message ts : string)
    (st : Logger.State) :
  (Logger.is_enabled st = true /\ Logger.minLevel st <= Logger.LEVEL_PRIORITY level
   /\ exists parts,
        snd (Logger.log level message ts st)
        = Some (Logger.console_of level, parts))
  \/ ((Logger.is_enabled st = false
       \/ Logger.LEVEL_PRIORITY level < Logger.minLevel st)
      /\ Logger.log level message ts st = (st, None)).
Proof.
  unfold Logger.log.
  destruct (Logger.is_enabled st) eqn:He; simpl; [|right; split; [by left|done]].
  destruct (Z.ltb_spec (Logger.LEVEL_PRIORITY level) (Logger.minLevel st)).
  { right. split; [by right|done]. }
  left. split; [done|]. split; [done|].
  destruct (Logger.parseTag message) as [[t|] body]; [|by eexists].
  destruct (Logger.useColors st); [|by eexists].
  destruct (Logger.colorForTag t st). by eexists.
Qed.

(** X27.  What the Logger prints.  [log] prints exactly when the logger is
    enabled and the priority of the level is not below the minimum level;
    otherwise it does nothing and leaves the logger as it is.  What is
    printed at some level is printed at every level of higher priority.
    Errors go to [console.error], warnings to [console.warn], the rest to
    [console.log].  A logger built without options prints nothing; one that
    is only enabled prints from 'info' up and drops 'debug'. *)
Theorem log_prints_from_the_minimum_level_up :
  forall (level : Logger.LogLevel) (message ts : string) (st : Logger.State),
    (is_Some (snd (Logger.log level message ts st))
     <-> Logger.is_enabled st = true
         /\ Logger.minLevel st <= Logger.LEVEL_PRIORITY level)
    /\ (snd (Logger.log level message ts st) = None ->
        fst (Logger.log level message ts st) = st)
    /\ (forall out, snd (Logger.log level message ts st) = Some out ->
          fst out = Logger.console_of level)
    /\ (forall higher,
          Logger.LEVEL_PRIORITY level <= Logger.LEVEL_PRIORITY higher ->
          is_Some (snd (Logger.log level message ts st)) ->
          is_Some (snd (Logger.log higher message ts st)))
    /\ snd (Logger.log level message ts (Logger.create None)) = None
    /\ (is_Some (snd (Logger.log level message ts
                        (Logger.create
                           (Some {| Logger.enabled := Some true;
                                    Logger.level := None;
                                    Logger.colors := None;
                                    Logger.timestamps := None |}))))
        <-> level <> Logger.Debug).
Proof.
  intros level message ts st.
  assert (Hiff : forall l s,
            is_Some (snd (Logger.log l message ts s))
            <-> Logger.is_enabled s = true
                /\ Logger.minLevel s <= Logger.LEVEL_PRIORITY l).
  { intros l s.
    destruct (log_cases l message ts s) as [(He & Hl & parts & ->)|[Hwhy Heq]].
    - split; [done|eauto].
    - rewrite Heq. simpl. split; [by intros [? ?]|].
      intros [He Hl]. destruct Hwhy as [Hd|Hlt]; [congruence|lia]. }
  split; [apply Hiff|]. split.
  { destruct (log_cases level message ts st) as [(_ & _ & parts & ->)|[_ ->]];
      [discriminate|done]. }
  split.
  { intros out.
    destruct (log_cases level message ts st) as [(_ & _ & parts & ->)|[_ ->]];
      [|discriminate].
    by intros [= <-]. }
  split.
  { intros higher Hle. rewrite !Hiff. intros [He Hl]. split; [done|lia]. }
  split; [done|].
  rewrite Hiff. simpl.
  destruct level; simpl;
    (split;
     [intros [_ H]; first [lia | done]
     |intros H; first [by exfalso; apply H | split; [done|lia]]]).
Qed.

Lemma until_bracket_split (s : string) :
  match Logger.until_bracket s with
  | Some (tag, after) =>
      s = tag +:+ String Logger.bracket_close after /\ bracket_free tag = true
  | None => bracket_free s = true
  end.
Proof.
  induction s as [|c s IH]; [done|]. simpl.
  destruct (Ascii.eqb_spec c Logger.bracket_close) as [->|Hne]; [done|].
  destruct (Logger.until_bracket s) as [[tag after]|]; simpl.
  - destruct IH as [-> Hfree]. split; [done|].
    destruct (Ascii.eqb_spec c Logger.bracket_close); done.
  - destruct (Ascii.eqb_spec c Logger.bracket_close); done.
Qed.

Lemma until_bracket_found (tag after : string) :
  bracket_free tag = true ->
  Logger.until_bracket (tag +:+ String Logger.bracket_close after)
  = Some (tag, after).
Proof.
  induction tag as [|c tag IH].
  - intros _. reflexivity.
  - intros Hfree. cbn [bracket_free] in Hfree.
    apply andb_prop in Hfree as [Hc Hfree]. apply negb_true_iff in Hc.
    change (Logger.until_bracket
              (String c (tag +:+ String Logger.bracket_close after))
            = Some (String c tag, after)).
    cbn [Logger.until_bracket]. by rewrite Hc, IH.
Qed.

Lemma skip_spaces_split (s : string) :
  exists ws, s = ws +:+ Logger.skip_spaces s
             /\ all_spaces ws = true
             /\ starts_with_space (Logger.skip_spaces s) = false.
Proof.
  induction s as [|c s (ws & Heq & Hws & Hb)]; [by exists ""|].
  cbn [Logger.skip_spaces]. destruct (Logger.is_space c) eqn:Hc.
  - exists (String c ws). split; [|split; [|exact Hb]].
    + change (String c s = String c (ws +:+ Logger.skip_spaces s)).
      by f_equal.
    + cbn [all_spaces]. by rewrite Hc, Hws.
  - exists "". split; [done|]. split; [done|].
    cbn [starts_with_space]. exact Hc.
Qed.

Lemma skip_spaces_found (ws body : string) :
  all_spaces ws = true -> starts_with_space body = false ->
  Logger.skip_spaces (ws +:+ body) = body.
Proof.
  intros Hws Hb. induction ws as [|c ws IH].
  - destruct body as [|c body]; [done|].
    change (Logger.skip_spaces (String c body) = String c body).
    cbn [Logger.skip_spaces starts_with_space] in *. by rewrite Hb.
  - cbn [all_spaces] in Hws. apply andb_prop in Hws as [Hc Hws].
    change (Logger.skip_spaces (String c (ws +:+ body)) = body).
    cbn [Logger.skip_spaces]. rewrite Hc. by apply IH.
Qed.

(** X28.  [parseTag] takes a message apart and loses nothing but white
    space.  A message made of a bracketed tag (not empty, without closing
    bracket), any white space and a body that does not start with white
    space is split into that tag and that body.  Conversely, whenever a tag
    is found the message is the bracketed tag, some white space and the
    body returned, the tag is not empty and holds no closing bracket, and
    the body does not start with white space; when no tag is found the body
    is the whole message. *)
Theorem parseTag_splits_tag_and_body :
  forall (tag ws body message : string),
    (tag <> ""%string -> bracket_free tag = true ->
     all_spaces ws = true -> starts_with_space body = false ->
     Logger.parseTag
       (String Logger.bracket_open tag +:+ String Logger.bracket_close ws +:+ body)
     = (Some tag, body))
    /\ match Logger.parseTag message with
       | (Some t, b) =>
           t <> ""%string /\ bracket_free t = true
           /\ starts_with_space b = false
           /\ exists spaces,
                all_spaces spaces = true
                /\ message
                   = String Logger.bracket_open t
                     +:+ String Logger.bracket_close spaces +:+ b
       | (None, b) => b = message
       end.
Proof.
  intros tag ws body message. split.
  - intros Hne Hfree Hws Hb.
    change (Logger.parseTag
              (String Logger.bracket_open
                 (tag +:+ String Logger.bracket_close (ws +:+ body)))
            = (Some tag, body)).
    unfold Logger.parseTag.
    rewrite Ascii.eqb_refl, until_bracket_found by done.
    destruct tag as [|c tag]; [done|].
    by rewrite skip_spaces_found.
  - unfold Logger.parseTag. destruct message as [|c0 rest]; [done|].
    destruct (Ascii.eqb_spec c0 Logger.bracket_open) as [->|Hne]; [|done].
    pose proof (until_bracket_split rest) as Hsplit.
    destruct (Logger.until_bracket rest) as [[[|c t] after]|]; try done.
    destruct Hsplit as [-> Hfree].
    destruct (skip_spaces_split after) as (spaces & Heq & Hws & Hb).
    split; [done|]. split; [done|]. split; [done|].
    exists spaces. split; [done|]. simpl. do 2 f_equal.
    change (String Logger.bracket_close spaces +:+ Logger.skip_spaces after)
      with (String Logger.bracket_close (spaces +:+ Logger.skip_spaces after)).
    by rewrite <- Heq.
Qed.

Lemma parseTag_splits_tag_and_body_witness :
  Logger.parseTag "[ClusterManager]  Spawning 4 clusters"
  = (Some "ClusterManager"%string, "Spawning 4 clusters"%string).
Proof.
  destruct (parseTag_splits_tag_and_body "ClusterManager" "  "
              "Spawning 4 clusters" "") as [H _].
  exact (H ltac:(discriminate) eq_refl eq_refl eq_refl).
Defined.

Lemma colour_tags_snoc (tags : list string) (t : string) (st : Logger.State) :
  colour_tags (tags ++ [t]) st
  = snd (Logger.colorForTag t (colour_tags tags st)).
Proof. unfold colour_tags. by rewrite fold_left_app. Qed.

Lemma colour_is_kept (more : list string) :
  forall (st : Logger.State) (t : string) (c : Logger.Color),
    Logger.tagColorMap st !! t = Some c ->
    Logger.tagColorMap (colour_tags more st) !! t = Some c.
Proof.
  induction more as [|t' more IH]; intros st t c Hc; [done|].
  simpl. apply IH. unfold Logger.colorForTag.
  destruct (Logger.tagColorMap st !! t') as [c'|] eqn:Ht'; [done|].
  simpl. rewrite lookup_insert_ne; [done|]. congruence.
Qed.

Lemma colour_table (options : option Logger.LoggingOptions) (tags : list string) :
  let st := colour_tags tags (Logger.create options) in
  Logger.tagColorIndex st = length (first_occurrences tags)
  /\ (forall i t, first_occurrences tags !! i = Some t ->
        Logger.tagColorMap st !! t
        = Some (nth (i mod 5) Logger.TAG_COLORS Logger.green))
  /\ (forall t, t ∉ first_occurrences tags -> Logger.tagColorMap st !! t = None).
Proof.
  induction tags as [|t tags (IHi & IHc & IHn)] using rev_ind.
  { simpl. split; [done|]. split; [done|]. intros t _. apply lookup_empty. }
  cbv zeta in *. rewrite colour_tags_snoc, first_occurrences_snoc.
  set (st := colour_tags tags (Logger.create options)) in *.
  destruct (first_occurrences_spec tags) as [Hnd Hin].
  unfold Logger.colorForTag.
  destruct (decide (t ∈ first_occurrences tags)) as [Hseen|Hnew].
  - apply list_elem_of_lookup in Hseen as [i Hi].
    rewrite (IHc i t Hi). simpl. done.
  - rewrite (IHn t Hnew). simpl. split; [|split].
    + rewrite length_app. simpl. lia.
    + intros i t' Hi. apply lookup_app_Some in Hi as [Hi|[Hlen Hi]].
      * rewrite lookup_insert_ne; [by apply IHc|].
        intros <-. apply Hnew. by eapply list_elem_of_lookup_2.
      * apply list_lookup_singleton_Some in Hi as [Hi <-].
        rewrite lookup_insert_eq, IHi.
        replace i with (length (first_occurrences tags)) by lia. done.
    + intros t' Ht'. apply not_elem_of_app in Ht' as [Ht' Hne].
      rewrite lookup_insert_ne; [by apply IHn|].
      intros <-. apply Hne. by left.
Qed.

(** X29.  The colours of the tags.  The tags get the five tag colours in
    turn, in the order in which they are first coloured: the tag that is the
    i-th new one gets colour number i modulo 5, the counter of the logger
    is the number of different tags coloured so far, and a tag that was not
    coloured has no entry.  A tag keeps its colour: whatever tags are
    coloured afterwards, [colorForTag] returns the same colour for it. *)
Theorem tags_get_the_colours_in_turn_and_keep_them :
  forall (options : option Logger.LoggingOptions) (tags more : list string),
    let st := colour_tags tags (Logger.create options) in
    Logger.tagColorIndex st = length (first_occurrences tags)
    /\ (forall i t, first_occurrences tags !! i = Some t ->
          fst (Logger.colorForTag t st)
          = nth (i mod 5) Logger.TAG_COLORS Logger.green
          /\ fst (Logger.colorForTag t (colour_tags more st))
             = nth (i mod 5) Logger.TAG_COLORS Logger.green)
    /\ (forall t, t ∉ tags ->
          Logger.tagColorMap st !! t = None
          /\ fst (Logger.colorForTag t st)
             = nth (length (first_occurrences tags) mod 5)
                 Logger.TAG_COLORS Logger.green)
    /\ (forall t, snd (Logger.colorForTag t (snd (Logger.colorForTag t st)))
                  = snd (Logger.colorForTag t st)).
Proof.
  intros options tags more st.
  destruct (colour_table options tags) as (Hi & Hc & Hn). fold st in Hi, Hc, Hn.
  destruct (first_occurrences_spec tags) as [_ Hin].
  split; [exact Hi|]. split; [|split].
  - intros i t Hit. pose proof (Hc i t Hit) as Ht.
    pose proof (colour_is_kept more st t _ Ht) as Ht'.
    unfold Logger.colorForTag. by rewrite Ht, Ht'.
  - intros t Ht. assert (Hnone : Logger.tagColorMap st !! t = None).
    { apply Hn. by rewrite Hin. }
    split; [exact Hnone|]. unfold Logger.colorForTag. rewrite Hnone. simpl.
    by rewrite Hi.
  - intros t. unfold Logger.colorForTag at 2 3.
    destruct (Logger.tagColorMap st !! t) as [c|] eqn:Ht; simpl.
    + unfold Logger.colorForTag. by rewrite Ht.
    + unfold Logger.colorForTag. simpl. by rewrite lookup_insert_eq.
Qed.

(** ** The event bus, end to end *)

(** X30.  An event from one cluster to the listeners of another.  When the
    transport accepts it, [emitTo] sends one EventEmit and resolves; the
    manager's event bus turns it into one EventForward for the target alone;
    the client that receives it emits the event to its listeners with the
    data given and the id of the sending cluster as source, and sends
    nothing back.  [broadcast] sends one EventEmit without target, which the
    event bus forwards to every other cluster, where it is emitted the same
    way.  When the transport rejects the message the call rejects and
    nothing else happens. *)
Theorem emitted_event_reaches_the_listeners :
  forall (send : SendFn) (sender receiver : EventBusClient.State)
         (target : Z) (nonce event : string) (payload : JSValue) (ids : list Z),
    let me := EventBusClient.clusterId sender in
    let direct := EventEmit nonce event payload me (Some target) in
    let to_all := EventEmit nonce event payload me None in
    let forwarded := EventForward nonce event payload me in
    let received := EventBusClient.handleIncoming forwarded receiver in
    EventBus.emitTo send target nonce event payload sender
    = (match send direct with SendOk => Returned tt | SendFailed e => Failed e end,
       EventBusClient.record_send direct sender)
    /\ EventBus.broadcast send nonce event payload sender
       = (match send to_all with SendOk => Returned tt | SendFailed e => Failed e end,
          EventBusClient.record_send to_all sender)
    /\ EventBusManager.handleMessage direct me ids = [(target, forwarded)]
    /\ (forall id, id ∈ ids -> id <> me ->
          (id, forwarded) ∈ EventBusManager.handleMessage to_all me ids)
    /\ (forall d, d ∈ EventBusManager.handleMessage to_all me ids ->
          snd d = forwarded /\ fst d <> me)
    /\ EventBusClient.emitted received
       = EventBusClient.emitted receiver ++ [(event, payload, me)]
    /\ EventBusClient.sent received = EventBusClient.sent receiver
    /\ EventBusClient.ackPromises received = EventBusClient.ackPromises receiver
    /\ EventBusClient.settled received = EventBusClient.settled receiver.
Proof.
  intros send sender receiver target nonce event payload ids
    me direct to_all forwarded received.
  destruct (others_spec me ids) as (_ & Hmem & _).
  split.
  { unfold EventBus.emitTo. fold me direct. by destruct (send direct). }
  split.
  { unfold EventBus.broadcast. fold me to_all. by destruct (send to_all). }
  split; [done|]. split.
  { intros id Hid Hne. simpl. apply list_elem_of_fmap. exists id.
    split; [done|]. by apply Hmem. }
  split.
  { intros d Hd. simpl in Hd. apply list_elem_of_fmap in Hd as (id & -> & Hid).
    apply Hmem in Hid as [_ Hne]. done. }
  done.
Qed.
